(** * Ren3 batch processor: a shallow embedding of [ren3_processor.py]

    The development follows the Python module top to bottom: the Python
    primitives the module relies on ([range], slicing, [int], [str.lower],
    [in], [list.sort]), the configuration loader, the retry gateway
    [_api_call], file discovery, the batcher, the remote calls of the batch
    pipeline, the polling loop, the merger, the folder pipeline and [main];
    then the driver [run_processor.py], which picks the newest promo folder
    and runs the processor on it.

    Effects are explicit.  A computation is a function from a [World] to an
    [outcome] and a new [World]; the world holds the scripted answers of the
    remote service, the local file system and the trace of observable events
    (requests, sleeps, warnings and errors logged, files written).  The
    unbounded [while True] of [poll_job_status] takes a fuel argument and
    answers [Diverge] when the fuel is used up; [Diverge] is not an
    exception and no [except] clause catches it. *)

From Stdlib Require Import ZArith Lia Ascii String.
From stdpp Require Import base list gmap strings sorting pretty.

Local Open Scope Z_scope.

(** ** Exceptions and results *)

(** The exception classes that the module can meet.  [RequestException] is
    the class caught by [_api_call]; all of them are subclasses of
    [Exception]. *)
Inductive exn : Type :=
  | RequestException
  | ValueError
  | AttributeError
  | KeyError
  | TypeError
  | FileNotFoundError
  | FileExistsError
  | ParserError
  | PlainException
  | OverflowError
  | OSError
  | NotADirectoryError.

(** Result of a pure Python function that may raise. *)
Inductive result (A : Type) : Type :=
  | Ok (a : A)
  | Err (e : exn).
Arguments Ok {A} a.
Arguments Err {A} e.

(** ** Python primitives *)

Module Py.

(** Number of elements of [range(lo, hi, step)] for a non-zero step, as
    CPython computes it. *)
Definition range_len (lo hi step : Z) : Z :=
  if 0 <? step then
    (if lo <? hi then (hi - lo - 1) / step + 1 else 0)
  else
    (if hi <? lo then (lo - hi - 1) / (- step) + 1 else 0).

(** [range(lo, hi, step)]; a zero step raises [ValueError]. *)
Definition range (lo hi step : Z) : result (list Z) :=
  if step =? 0 then Err ValueError
  else Ok (map (fun k : nat => lo + Z.of_nat k * step)
               (seq 0 (Z.to_nat (range_len lo hi step)))).

(** A slice bound is taken from the end when negative and clipped to the
    list. *)
Definition clip (n x : Z) : Z :=
  if x <? 0 then Z.max 0 (x + n) else Z.min x n.

(** [l[i:j]]. *)
Definition slice {A : Type} (l : list A) (i j : Z) : list A :=
  let n := Z.of_nat (length l) in
  let lo := clip n i in
  let hi := clip n j in
  take (Z.to_nat (hi - lo)) (drop (Z.to_nat lo) l).

(** [str.lower] on ASCII text: the letters A-Z are mapped to a-z, every
    other character is kept. *)
Definition lower_char (c : ascii) : ascii :=
  let n := N_of_ascii c in
  if ((65 <=? n) && (n <=? 90))%N then ascii_of_N (n + 32) else c.

Fixpoint lower (s : string) : string :=
  match s with
  | EmptyString => EmptyString
  | String c r => String (lower_char c) (lower r)
  end.

(** [s.startswith(p)]. *)
Fixpoint startswith (p s : string) : bool :=
  match p, s with
  | EmptyString, _ => true
  | String a p', String b s' => if decide (a = b) then startswith p' s' else false
  | String _ _, EmptyString => false
  end.

(** [needle in hay] on strings. *)
Fixpoint contains (needle hay : string) : bool :=
  if startswith needle hay then true
  else match hay with
       | EmptyString => false
       | String _ r => contains needle r
       end.

(** [s.endswith(p)]: [s] is [p], or what follows its first character
    ends with [p]. *)
Fixpoint endswith (p s : string) : bool :=
  if decide (s = p) then true
  else match s with
       | EmptyString => false
       | String _ r => endswith p r
       end.

(** [s.strip()] for ASCII white space. *)
Fixpoint lstrip (s : string) : string :=
  match s with
  | String c r => if Ascii.is_space c then lstrip r else s
  | EmptyString => EmptyString
  end.

Definition strip (s : string) : string :=
  String.rev (lstrip (String.rev (lstrip s))).

(** Decimal digits with single underscores allowed between digits. *)
Fixpoint digits (acc : Z) (after_digit : bool) (s : string) : option Z :=
  match s with
  | EmptyString => if after_digit then Some acc else None
  | String c r =>
      match Ascii.is_nat c with
      | Some d => digits (10 * acc + Z.of_nat d) true r
      | None =>
          if decide (c = "_"%char) then
            (if after_digit then digits acc false r else None)
          else None
      end
  end.

(** [int(s)] in base ten on ASCII text: an optional sign and ASCII digits,
    between ASCII white space; text that is not such a literal raises
    [ValueError].  Python also reads the decimal digits and the white space
    of other scripts; on the literals read here it gives the same value. *)
Definition int (s : string) : result Z :=
  let body :=
    match strip s with
    | String "-" r => Z.opp <$> digits 0 false r
    | String "+" r => digits 0 false r
    | t => digits 0 false t
    end in
  match body with
  | Some z => Ok z
  | None => Err ValueError
  end.

(** Truth value of an optional string: [None] and [''] are false. *)
Definition truthy (o : option string) : bool :=
  match o with
  | Some (String _ _) => true
  | _ => false
  end.

End Py.

(** ** Configuration *)

(** [os.environ]. *)
Abbreviation environ := (gmap string string).

(** [os.getenv(key, default)]. *)
Definition getenv (env : environ) (key fallback : string) : string :=
  default fallback (env !! key).

Record Ren3Config : Type := {
  api_url : string;
  user_id : option string;
  workspace_id : option string;
  agent_uuid : option string;
  agent_folder : option string;
  batch_size : Z;
  poll_interval : Z;
  max_retries : Z
}.

(** The names of the required settings that are unset or empty, in the
    order of the list [required]. *)
Definition missing (c : Ren3Config) : list string :=
  omap (fun kv : string * option string =>
          if Py.truthy kv.2 then None else Some kv.1)
       [("user_id", user_id c); ("workspace_id", workspace_id c);
        ("agent_uuid", agent_uuid c); ("agent_folder", agent_folder c)].

(** [Ren3Config.__init__]: the three tunables are converted with [int],
    then the required settings are checked.  Both failures are
    [ValueError]s. *)
Definition Ren3Config_init (env : environ) : result Ren3Config :=
  match Py.int (getenv env "BATCH_SIZE" "30") with
  | Err e => Err e
  | Ok bs =>
  match Py.int (getenv env "POLL_INTERVAL" "15") with
  | Err e => Err e
  | Ok pi =>
  match Py.int (getenv env "MAX_RETRIES" "3") with
  | Err e => Err e
  | Ok mr =>
      let c := {| api_url := getenv env "REN3_API_URL" "https://backend.ren3.ai";
                  user_id := env !! "REN3_USER_ID";
                  workspace_id := env !! "REN3_WORKSPACE_ID";
                  agent_uuid := env !! "REN3_AGENT_UUID";
                  agent_folder := env !! "REN3_AGENT_FOLDER";
                  batch_size := bs;
                  poll_interval := pi;
                  max_retries := mr |} in
      match missing c with
      | [] => Ok c
      | _ :: _ => Err ValueError
      end
  end end end.

(** ** Paths *)

(** A [pathlib.Path], as its parts; an absolute path starts with the part
    ["/"]. *)
Abbreviation Path := (list string).

(** [p.name]: the last part, empty for the root and for the empty path. *)
Definition path_name (p : Path) : string :=
  match last p with
  | Some s => if decide (s = "/") then "" else s
  | None => ""
  end.

(** [p / child]; an empty [child] adds nothing. *)
Definition path_join (p : Path) (child : string) : Path :=
  if decide (child = "") then p else p ++ [child].

(** Splitting of a path string at the separators. *)
Fixpoint split_path (cur : string) (s : string) : list string :=
  match s with
  | EmptyString => [String.rev cur]
  | String c r =>
      if decide (c = "/"%char) then String.rev cur :: split_path "" r
      else split_path (String c cur) r
  end.

(** [Path(s)]: empty and ["."] components are dropped. *)
Definition Path_of_string (s : string) : Path :=
  let parts := filter (fun c => c <> "" /\ c <> ".") (split_path "" s) in
  if Py.startswith "/" s then "/" :: parts else parts.

(** Paths are compared part by part, parts by code points. *)
Fixpoint path_leb (p q : Path) : bool :=
  match p, q with
  | [], _ => true
  | _ :: _, [] => false
  | a :: p', b :: q' =>
      match String.compare a b with
      | Lt => true
      | Gt => false
      | Eq => path_leb p' q'
      end
  end.

Definition path_le (p q : Path) : Prop := path_leb p q.

(** ** The world *)

(** A table: its column names and its rows, a row giving the cells it has
    by column name (a column absent from a row is a blank cell). *)
Record DataFrame : Type := {
  columns : list string;
  rows : list (list (string * string))
}.

(** A file on disk: bytes, or a workbook written by [to_excel]. *)
Inductive file : Type :=
  | Bytes (content : string)
  | Workbook (table : DataFrame).

(** An entry of the job log: [type] and [text]; either key may be absent. *)
Record log_entry : Type := {
  log_type : option Z;
  log_text : option string
}.

(** A document of the output folder. *)
Record doc : Type := {
  doc_uuid : string;
  doc_filename : string
}.

(** The [returnObject] member of an answer of the service, by shape. *)
Inductive ret_object : Type :=
  | RAbsent
  | RFiles (input_files : list string)
  | RJob (uuid : string)
  | RLogs (logs : list log_entry)
  | RDetails (output_folder : string)
  | RDocs (docs : list doc).

(** The JSON document of an answer: the truth value of its [success] member
    and its [returnObject]. *)
Record response : Type := {
  success : bool;
  returnObject : ret_object
}.

(** What the service does with one request: a 2xx reply with its body and
    the JSON document the body decodes to, if it is one; a transport
    failure (timeout, connection error, status that is not 2xx); or a 2xx
    reply whose body breaks off, the connection failing after [partial] has
    arrived. *)
Inductive http_answer : Type :=
  | Reply (content : string) (json : option response)
  | TransportError
  | Truncated (partial : string).

Inductive body_kind : Type := Multipart | JsonBody | QueryParams | JsonStream.

Record request : Type := {
  url : string;
  kind : body_kind;
  timeout : Z;
  subject : string
}.

(** The lines of the log that the trace keeps: the warnings and errors,
    and the lines that mark the progress of a run. *)
Inductive log_msg : Type :=
  | ApiCallFailed (attempt max : Z)
  | Progress (text : string)
  | AgentCompleted
  | PollingError (e : exn)
  | DownloadFailed (e : exn)
  | ReadFailed (csv : Path) (e : exn)
  | AddedRows (n : nat) (csv : Path)
  | FolderNotFound (folder : Path)
  | NoJsonFiles
  | BatchBanner (batch_num total : Z)
  | CsvNotFound (batch_num : Z)
  | BatchCompleted (batch_num : Z)
  | BatchFailed (batch_num : Z) (e : exn)
  | NoBatchSucceeded
  | ProcessingFailed (e : exn)
  | FatalError (e : exn).

Inductive event : Type :=
  | EvRequest (r : request)
  | EvSleep (seconds : Z)
  | EvLog (m : log_msg)
  | EvWrite (p : Path).

Record World : Type := {
  service : nat -> http_answer;      (* the answer to the n-th request sent *)
  sent : nat;                        (* requests sent so far *)
  uuid4 : nat -> string;             (* the n-th identifier drawn *)
  drawn : nat;                       (* identifiers drawn so far *)
  strftime : string;                 (* the time stamp of the combined file *)
  read_csv : string -> result DataFrame;  (* the CSV parser, on a file's bytes *)
  dirs : gmap Path (list string);    (* directories, with their entries in scan order *)
  files : gmap Path file;            (* regular files *)
  trace : list event;                (* what happened, oldest first *)
  clock : nat -> Z                   (* the monotonic clock, in seconds, after n waits *)
}.

Definition with_sent (n : nat) (w : World) : World :=
  {| service := service w; sent := n; uuid4 := uuid4 w; drawn := drawn w;
     strftime := strftime w; read_csv := read_csv w; dirs := dirs w;
     files := files w; trace := trace w;
     clock := clock w |}.

Definition with_drawn (n : nat) (w : World) : World :=
  {| service := service w; sent := sent w; uuid4 := uuid4 w; drawn := n;
     strftime := strftime w; read_csv := read_csv w; dirs := dirs w;
     files := files w; trace := trace w;
     clock := clock w |}.

Definition with_dirs (d : gmap Path (list string)) (w : World) : World :=
  {| service := service w; sent := sent w; uuid4 := uuid4 w; drawn := drawn w;
     strftime := strftime w; read_csv := read_csv w; dirs := d;
     files := files w; trace := trace w;
     clock := clock w |}.

Definition with_files (f : gmap Path file) (w : World) : World :=
  {| service := service w; sent := sent w; uuid4 := uuid4 w; drawn := drawn w;
     strftime := strftime w; read_csv := read_csv w; dirs := dirs w;
     files := f; trace := trace w;
     clock := clock w |}.

Definition with_trace (t : list event) (w : World) : World :=
  {| service := service w; sent := sent w; uuid4 := uuid4 w; drawn := drawn w;
     strftime := strftime w; read_csv := read_csv w; dirs := dirs w;
     files := files w; trace := t;
     clock := clock w |}.

(** ** Computations *)

(** How a call ends: it returns, it raises, or it runs for ever. *)
Inductive outcome (A : Type) : Type :=
  | Ret (a : A)
  | Raise (e : exn)
  | Diverge.
Arguments Ret {A} a.
Arguments Raise {A} e.
Arguments Diverge {A}.

Definition M (A : Type) : Type := World -> outcome A * World.

Definition ret {A : Type} (a : A) : M A := fun w => (Ret a, w).

Definition raise {A : Type} (e : exn) : M A := fun w => (Raise e, w).

Definition bind {A B : Type} (m : M A) (k : A -> M B) : M B :=
  fun w =>
    match m w with
    | (Ret a, w') => k a w'
    | (Raise e, w') => (Raise e, w')
    | (Diverge, w') => (Diverge, w')
    end.

(** [try: m  except C as e: handler(e)], for the exception classes [C]
    selected by [catches]. *)
Definition try_catch {A : Type} (catches : exn -> bool)
    (m : M A) (handler : exn -> M A) : M A :=
  fun w =>
    match m w with
    | (Raise e, w') => if catches e then handler e w' else (Raise e, w')
    | r => r
    end.

(** [except Exception]: every exception of the model. *)
Definition try_except {A : Type} (m : M A) (handler : exn -> M A) : M A :=
  try_catch (fun _ => true) m handler.

(** [except requests.exceptions.RequestException]. *)
Definition is_request_exception (e : exn) : bool :=
  match e with
  | RequestException => true
  | _ => false
  end.

Notation "x <- m ;; k" := (bind m (fun x => k))
  (at level 100, m at next level, right associativity, only parsing).
Notation "m ;;; k" := (bind m (fun _ => k))
  (at level 100, right associativity, only parsing).

Definition diverge {A : Type} : M A := fun w => (Diverge, w).

Definition of_result {A : Type} (r : result A) : M A :=
  match r with
  | Ok a => ret a
  | Err e => raise e
  end.

Definition emit (e : event) : M unit :=
  fun w => (Ret tt, with_trace (trace w ++ [e]) w).

Definition log (m : log_msg) : M unit := emit (EvLog m).

(** The waits made so far. *)
Fixpoint waits (t : list event) : nat :=
  match t with
  | EvSleep _ :: t' => S (waits t')
  | _ :: t' => waits t'
  | [] => O
  end.

(** The longest wait that fits in the time stamp of [time.sleep], a signed
    64-bit count of nanoseconds. *)
Definition sleep_ceiling : Z := 9223372036.

(** A wait that the clock never refuses: the clock of a machine reads less
    than [sleep_ceiling - sleep_floor] seconds, some 156 years. *)
Definition sleep_floor : Z := 4294967296.

(** The longest wait the system takes now: the wait ends at the reading of
    the clock plus its length, which must not pass [sleep_ceiling]. *)
Definition wait_limit (w : World) : Z :=
  Z.max sleep_floor (sleep_ceiling - clock w (waits (trace w))).

(** What [time.sleep] raises for a length, if it does: [ValueError] for a
    negative one, [OverflowError] for one that does not fit in the time
    stamp, [OSError] for one that ends past the range of the clock. *)
Definition sleep_error (w : World) (seconds : Z) : option exn :=
  if seconds <? 0 then Some ValueError
  else if sleep_ceiling <? seconds then Some OverflowError
  else if wait_limit w <? seconds then Some OSError
  else None.

(** [time.sleep(seconds)]. *)
Definition sleep (seconds : Z) : M unit :=
  fun w =>
    match sleep_error w seconds with
    | Some e => (Raise e, w)
    | None => emit (EvSleep seconds) w
    end.

(** One request on the session: it is recorded, counted, and answered by
    the service. *)
Definition send (r : request) : M http_answer :=
  fun w =>
    (Ret (service w (sent w)),
     with_sent (S (sent w)) (with_trace (trace w ++ [EvRequest r]) w)).

(** [str(uuid.uuid4())]. *)
Definition fresh_uuid : M string :=
  fun w => (Ret (uuid4 w (drawn w)), with_drawn (S (drawn w)) w).

(** ** Remote call gateway *)

Inductive http_method : Type := POST | GET.

(** The request that [_api_call] sends: a multipart POST with a timeout of
    300 seconds when there are files to upload, a JSON POST or a GET with a
    timeout of 60 seconds otherwise. *)
Definition api_request (cfg : Ren3Config) (endpoint subject : string)
    (upload : list Path) (method : http_method) : request :=
  match upload, method with
  | _ :: _, _ => {| url := api_url cfg +:+ endpoint; kind := Multipart;
                    timeout := 300; subject := subject |}
  | [], POST => {| url := api_url cfg +:+ endpoint; kind := JsonBody;
                   timeout := 60; subject := subject |}
  | [], GET => {| url := api_url cfg +:+ endpoint; kind := QueryParams;
                  timeout := 60; subject := subject |}
  end.

(** The body of the [try] of [_api_call]: one request, [raise_for_status],
    [response.json()].  A body that is not JSON makes [response.json()]
    raise [requests.exceptions.JSONDecodeError], a [RequestException]; so
    is the error of a body that breaks off, which these requests read at
    once. *)
Definition attempt_request (cfg : Ren3Config) (endpoint subject : string)
    (upload : list Path) (method : http_method) : M response :=
  a <- send (api_request cfg endpoint subject upload method) ;;
  match a with
  | Reply _ (Some j) => ret j
  | Reply _ None => raise RequestException
  | TransportError => raise RequestException
  | Truncated _ => raise RequestException
  end.

(** The [for attempt in ...] loop of [_api_call] over the attempts that are
    left.  When the loop runs out the function ends without [return]: the
    caller gets [None]. *)
Fixpoint api_call_loop (cfg : Ren3Config) (endpoint subject : string)
    (upload : list Path) (method : http_method) (attempts : list Z)
  : M (option response) :=
  match attempts with
  | [] => ret None
  | attempt :: rest =>
      try_catch is_request_exception
        (j <- attempt_request cfg endpoint subject upload method ;;
         ret (Some j))
        (fun e =>
           log (ApiCallFailed (attempt + 1) (max_retries cfg)) ;;;
           if attempt <? max_retries cfg - 1 then
             sleep (5 * (attempt + 1)) ;;;
             api_call_loop cfg endpoint subject upload method rest
           else raise e)
  end.

(** [_api_call]. *)
Definition _api_call (cfg : Ren3Config) (endpoint subject : string)
    (upload : list Path) (method : http_method) : M (option response) :=
  attempts <- of_result (Py.range 0 (max_retries cfg) 1) ;;
  api_call_loop cfg endpoint subject upload method attempts.

(** ** File discovery *)

(** [promo_folder.glob("*.json")]: the entries of the directory whose name
    ends in [.json], in scan order; nothing when there is no such
    directory. *)
Definition glob_json (promo_folder : Path) : M (list Path) :=
  fun w =>
    (Ret (match dirs w !! promo_folder with
          | Some names =>
              map (path_join promo_folder) (filter (fun n => Py.endswith ".json" n) names)
          | None => []
          end), w).

(** [get_json_files]. *)
Definition get_json_files (promo_folder : Path) : M (list Path) :=
  found <- glob_json promo_folder ;;
  let json_files :=
    filter (fun f => negb (Py.startswith "_" (path_name f))) found in
  ret (merge_sort path_le json_files).

(** ** The calls of the batch pipeline *)

(** [if response.get('success'): ... else: raise Exception(...)].  When
    [_api_call] ended without [return] the response is [None], which has no
    [get]. *)
Definition on_success {A : Type} (r : option response)
    (k : response -> M A) : M A :=
  match r with
  | None => raise AttributeError
  | Some j => if success j then k j else raise PlainException
  end.

(** [upload_files].  The file handles it opens and closes are not part of
    the model; the [except] clause closes them and raises again. *)
Definition upload_files (cfg : Ren3Config) (batch : list Path)
    (temp_folder_uuid : string) : M response :=
  response <- _api_call cfg "/upload_agenttmpfiles" temp_folder_uuid batch POST ;;
  on_success response (fun j => ret j).

(** [get_job_input_files]: the [returnObject] as it comes, [[]] when
    absent. *)
Definition get_job_input_files (cfg : Ren3Config) (temp_folder_uuid : string)
  : M ret_object :=
  response <- _api_call cfg "/agentdrive/get_jobinputfiles" temp_folder_uuid [] POST ;;
  on_success response (fun j =>
    ret (match returnObject j with
         | RAbsent => RFiles []
         | o => o
         end)).

(** [o['uuid']] on a [returnObject]. *)
Definition job_uuid_of (o : ret_object) : result string :=
  match o with
  | RJob u => Ok u
  | RAbsent | RDetails _ => Err KeyError
  | RFiles _ | RLogs _ | RDocs _ => Err TypeError
  end.

(** [run_agent]. *)
Definition run_agent (cfg : Ren3Config) (input_files : ret_object)
    (temp_folder_uuid : string) : M string :=
  response <- _api_call cfg "/agentdrive/run_agent" temp_folder_uuid [] POST ;;
  on_success response (fun j => of_result (job_uuid_of (returnObject j))).

(** [o['agentJob']['output_folder']] on a [returnObject]. *)
Definition output_folder_of (o : ret_object) : result string :=
  match o with
  | RDetails f => Ok f
  | RAbsent | RJob _ => Err KeyError
  | RFiles _ | RLogs _ | RDocs _ => Err TypeError
  end.

(** [get_job_details]. *)
Definition get_job_details (cfg : Ren3Config) (job_id : string) : M ret_object :=
  response <- _api_call cfg "/agentdrive/get_jobdetails" job_id [] POST ;;
  on_success response (fun j =>
    let job_details := returnObject j in
    _ <- of_result (output_folder_of job_details) ;;
    ret job_details).

(** [get_output_files]. *)
Definition get_output_files (cfg : Ren3Config) (output_folder : string)
  : M ret_object :=
  response <- _api_call cfg "/tensordrive/get_docs" output_folder [] POST ;;
  on_success response (fun j =>
    ret (match returnObject j with
         | RAbsent => RDocs []
         | o => o
         end)).

(** ** Polling *)

(** The entries that [for log in logs] visits.  A list of another shape
    has entries without [type] and [text]; iterating over an object gives
    its keys, strings, which have no [get]. *)
Definition logs_of (o : ret_object) : result (list log_entry) :=
  match o with
  | RLogs l => Ok l
  | RAbsent => Ok []
  | RFiles l => Ok (map (fun _ => {| log_type := None; log_text := None |}) l)
  | RDocs l => Ok (map (fun _ => {| log_type := None; log_text := None |}) l)
  | RJob _ | RDetails _ => Err AttributeError
  end.

(** [log.get('text', '').lower()]. *)
Definition lower_text (entry : log_entry) : string :=
  Py.lower (default "" (log_text entry)).

(** The test that ends the polling on an entry. *)
Definition is_completion (entry : log_entry) : bool :=
  bool_decide (log_type entry = Some 2)
  && Py.contains "completed" (lower_text entry).

(** The [for log in logs] loop of one poll: [true] when it returns [True]
    from the function, and the [last_progress] it leaves. *)
Fixpoint scan_logs (logs : list log_entry) (last_progress : option string)
  : M (bool * option string) :=
  match logs with
  | [] => ret (false, last_progress)
  | entry :: rest =>
      if is_completion entry then
        log AgentCompleted ;;; ret (true, last_progress)
      else if Py.contains "progress" (lower_text entry) then
        let progress := log_text entry in
        if decide (progress = last_progress) then scan_logs rest last_progress
        else log (Progress (default "" progress)) ;;; scan_logs rest progress
      else scan_logs rest last_progress
  end.

Inductive poll_step : Type :=
  | Completed
  | Again (last_progress : option string).

(** One turn of the [while True] of [poll_job_status].  Between the scan
    and the handler only [time.sleep] can raise, and then the handler's own
    [time.sleep] raises as well, so the handler never resumes with a
    [last_progress] changed by the scan. *)
Definition poll_once (cfg : Ren3Config) (job_id : string)
    (last_progress : option string) : M poll_step :=
  try_except
    (response <- _api_call cfg "/agentdrive/get_agentjoblogs" job_id [] POST ;;
     match response with
     | None => raise AttributeError
     | Some j =>
         if success j then
           logs <- of_result (logs_of (returnObject j)) ;;
           r <- scan_logs logs last_progress ;;
           if r.1 then ret Completed
           else sleep (poll_interval cfg) ;;; ret (Again r.2)
         else sleep (poll_interval cfg) ;;; ret (Again last_progress)
     end)
    (fun e =>
       log (PollingError e) ;;;
       sleep (poll_interval cfg) ;;;
       ret (Again last_progress)).

Fixpoint poll_loop (fuel : nat) (cfg : Ren3Config) (job_id : string)
    (last_progress : option string) : M bool :=
  match fuel with
  | O => diverge
  | S fuel' =>
      s <- poll_once cfg job_id last_progress ;;
      match s with
      | Completed => ret true
      | Again last_progress' => poll_loop fuel' cfg job_id last_progress'
      end
  end.

(** [poll_job_status], with at most [fuel] turns of its loop. *)
Definition poll_job_status (fuel : nat) (cfg : Ren3Config) (job_id : string)
  : M bool :=
  poll_loop fuel cfg job_id None.

(** ** Download *)

(** [p.parent]: the root and the empty path are their own parents. *)
Definition parent (p : Path) : Path :=
  if decide (p = ["/"]) then p else removelast p.

(** The listings once [p] is there: its name is an entry of its parent,
    after the others if it is new. *)
Definition add_entry (p : Path) (d : gmap Path (list string))
  : gmap Path (list string) :=
  match last p, d !! parent p with
  | Some name, Some names =>
      if decide (name ∈ names) then d else <[parent p := names ++ [name]]> d
  | _, _ => d
  end.

(** The disk once [f] is at [p]. *)
Definition written (p : Path) (f : file) (w : World) : World :=
  with_dirs (add_entry p (dirs w)) (with_files (<[p := f]> (files w)) w).

(** [open(path, 'wb')] and the writes that follow: the file is created or
    replaced.  Opening a file for writing is taken to succeed. *)
Definition write_file (p : Path) (f : file) : M unit :=
  fun w => (Ret tt, written p f (with_trace (trace w ++ [EvWrite p]) w)).

(** The request of [download_csv]: a JSON POST with [stream=True] and a
    timeout of 120 seconds. *)
Definition download_request (cfg : Ren3Config) (doc_uuid : string) : request :=
  {| url := api_url cfg +:+ "/tensordrive/get_filestream";
     kind := JsonStream; timeout := 120; subject := doc_uuid |}.

(** [download_csv]: one streamed request on the session, outside
    [_api_call].  The file is opened once the status is known to be good,
    and the body is written as it arrives: when the body breaks off, what
    has arrived is in the file. *)
Definition download_csv (cfg : Ren3Config) (doc_uuid : string)
    (output_path : Path) : M Path :=
  try_except
    (a <- send (download_request cfg doc_uuid) ;;
     match a with
     | TransportError => raise RequestException
     | Reply content _ =>
         write_file output_path (Bytes content) ;;; ret output_path
     | Truncated partial =>
         write_file output_path (Bytes partial) ;;; raise RequestException
     end)
    (fun e => log (DownloadFailed e) ;;; raise e).

(** ** Merger *)

(** [pd.DataFrame()]. *)
Definition empty_frame : DataFrame := {| columns := []; rows := [] |}.

(** [pd.concat([a, b], ignore_index=True)]: the columns of [a], then the
    new ones of [b]; the rows of [a], then those of [b]. *)
Definition pd_concat (a b : DataFrame) : DataFrame :=
  {| columns := columns a ++ filter (fun c => c ∉ columns a) (columns b);
     rows := rows a ++ rows b |}.

(** [pd.read_csv(path)]. *)
Definition pd_read_csv (p : Path) : M DataFrame :=
  fun w =>
    match files w !! p with
    | Some (Bytes content) => of_result (read_csv w content) w
    | Some (Workbook _) => (Raise ParserError, w)
    | None => (Raise FileNotFoundError, w)
    end.

(** The [for csv_file in csv_files] loop of [combine_csvs]. *)
Fixpoint combine_loop (csv_files : list Path) (combined_df : DataFrame)
  : M DataFrame :=
  match csv_files with
  | [] => ret combined_df
  | csv_file :: rest =>
      combined_df' <-
        try_except
          (df <- pd_read_csv csv_file ;;
           log (AddedRows (length (rows df)) csv_file) ;;;
           ret (pd_concat combined_df df))
          (fun e => log (ReadFailed csv_file e) ;;; ret combined_df) ;;
      combine_loop rest combined_df'
  end.

(** [combine_csvs]. *)
Definition combine_csvs (csv_files : list Path) (output_path : Path) : M Path :=
  combined_df <- combine_loop csv_files empty_frame ;;
  write_file output_path (Workbook combined_df) ;;;
  ret output_path.

(** ** Batcher *)

(** [create_batches]: one slice [json_files[i:i + batch_size]] for every [i]
    of [range(0, len(json_files), batch_size)]. *)
Definition create_batches {A : Type} (batch_size : Z) (json_files : list A)
  : result (list (list A)) :=
  match Py.range 0 (Z.of_nat (length json_files)) batch_size with
  | Err e => Err e
  | Ok starts =>
      Ok (map (fun i => Py.slice json_files i (i + batch_size)) starts)
  end.

(** ⌈n / b⌉ for a positive [b]. *)
Definition ceil_div (n b : Z) : Z := (n + b - 1) / b.

(** The k-th contiguous chunk of width [b] of a list. *)
Definition chunk {A : Type} (b : nat) (l : list A) (k : nat) : list A :=
  take b (drop (k * b) l).

(** ** The folder pipeline *)

(** [f"{n:03d}"] for a number that is not negative. *)
Definition fmt_03d (n : Z) : string :=
  let s := pretty (Z.to_N n) in
  String.string_of_list_ascii
    (replicate (3 - String.length s) "0"%char) +:+ s.

(** The document named [competitive_analysis_results.csv], if the listing
    has one.  Entries of another shape have no [doc_filename]; the keys of
    an object are strings and cannot be indexed by a name. *)
Definition find_csv (output_files : ret_object) : result (option doc) :=
  match output_files with
  | RDocs l =>
      Ok (List.find
            (fun d => bool_decide (doc_filename d = "competitive_analysis_results.csv"))
            l)
  | RAbsent | RFiles [] | RLogs [] => Ok None
  | RFiles (_ :: _) | RLogs (_ :: _) => Err KeyError
  | RJob _ | RDetails _ => Err TypeError
  end.

(** The body of the [try] of one batch: [None] when it leaves by [continue]
    because the listing has no CSV, the path of the download otherwise. *)
Definition process_batch (fuel : nat) (cfg : Ren3Config) (processed_dir : Path)
    (batch_num : Z) (batch : list Path) : M (option Path) :=
  temp_folder_uuid <- fresh_uuid ;;
  _ <- upload_files cfg batch temp_folder_uuid ;;
  sleep 5 ;;;
  input_files <- get_job_input_files cfg temp_folder_uuid ;;
  job_id <- run_agent cfg input_files temp_folder_uuid ;;
  _ <- poll_job_status fuel cfg job_id ;;
  job_details <- get_job_details cfg job_id ;;
  output_folder <- of_result (output_folder_of job_details) ;;
  output_files <- get_output_files cfg output_folder ;;
  csv_file <- of_result (find_csv output_files) ;;
  match csv_file with
  | None => log (CsvNotFound batch_num) ;;; ret None
  | Some d =>
      let csv_path :=
        path_join processed_dir ("batch_" +:+ fmt_03d batch_num +:+ ".csv") in
      _ <- download_csv cfg (doc_uuid d) csv_path ;;
      log (BatchCompleted batch_num) ;;;
      ret (Some csv_path)
  end.

(** The [for batch_num, batch in enumerate(batches, 1)] loop over the
    batches that are left; [total] is [len(batches)]. *)
Fixpoint batch_loop (fuel : nat) (cfg : Ren3Config) (processed_dir : Path)
    (total batch_num : Z) (batches : list (list Path)) (csv_files : list Path)
  : M (list Path) :=
  match batches with
  | [] => ret csv_files
  | batch :: rest =>
      log (BatchBanner batch_num total) ;;;
      r <- try_except
             (csv <- process_batch fuel cfg processed_dir batch_num batch ;;
              ret (inl csv))
             (fun e => log (BatchFailed batch_num e) ;;; ret (inr e)) ;;
      match r with
      | inl (Some csv_path) =>
          (if batch_num <? total then sleep 5 else ret tt) ;;;
          batch_loop fuel cfg processed_dir total (batch_num + 1) rest
            (csv_files ++ [csv_path])
      | inl None | inr _ =>
          batch_loop fuel cfg processed_dir total (batch_num + 1) rest csv_files
      end
  end.

(** [p.exists()]. *)
Definition path_exists (p : Path) : M bool :=
  fun w =>
    (Ret (bool_decide (is_Some (dirs w !! p))
          || bool_decide (is_Some (files w !! p))), w).

(** [p.is_dir()]; the working directory and the root are directories. *)
Definition is_dir (w : World) (p : Path) : bool :=
  bool_decide (p = []) || bool_decide (p = ["/"])
  || bool_decide (is_Some (dirs w !! p)).

(** [p.is_file()]. *)
Definition is_file (w : World) (p : Path) : bool :=
  negb (is_dir w p) && bool_decide (is_Some (files w !! p)).

(** [os.mkdir] on the path [above ++ rest], the directories of [above]
    being there: the first part of [rest] that is not a directory stops it,
    with [NotADirectoryError] when it is a file and [FileNotFoundError]
    when it is missing, unless it is the last part; the last part is
    created, with an empty listing, unless something has its name. *)
Fixpoint os_mkdir_from (w : World) (above : Path) (rest : list string)
  : result World :=
  match rest with
  | [] => Err FileExistsError
  | part :: rest' =>
      let q := above ++ [part] in
      match rest' with
      | [] =>
          if is_dir w q || bool_decide (is_Some (files w !! q))
          then Err FileExistsError
          else Ok (with_dirs (<[q := []]> (add_entry q (dirs w))) w)
      | _ :: _ =>
          if is_dir w q then os_mkdir_from w q rest'
          else if bool_decide (is_Some (files w !! q)) then Err NotADirectoryError
          else Err FileNotFoundError
      end
  end.

(** [os.mkdir(p)]. *)
Definition os_mkdir (p : Path) (w : World) : result World :=
  os_mkdir_from w [] p.

(** [p.mkdir(parents=False, exist_ok=True)]. *)
Definition mkdir_leaf (p : Path) : M unit :=
  fun w =>
    match os_mkdir p w with
    | Ok w' => (Ret tt, w')
    | Err FileNotFoundError => (Raise FileNotFoundError, w)
    | Err e => if is_dir w p then (Ret tt, w) else (Raise e, w)
    end.

(** [p.mkdir(parents=True, exist_ok=True)] as [pathlib] does it: it tries
    [os.mkdir]; when a parent is missing it makes the parent in the same
    way and tries once more; any other error is passed over when the path
    is a directory.  The recursion goes up the path, [depth] parts at
    most. *)
Fixpoint mkdir_parents (depth : nat) (p : Path) : M unit :=
  fun w =>
    match os_mkdir p w with
    | Ok w' => (Ret tt, w')
    | Err FileNotFoundError =>
        match depth with
        | O => (Raise FileNotFoundError, w)
        | S depth' =>
            if decide (parent p = p) then (Raise FileNotFoundError, w)
            else (mkdir_parents depth' (parent p) ;;; mkdir_leaf p) w
        end
    | Err e => if is_dir w p then (Ret tt, w) else (Raise e, w)
    end.

Definition mkdir (p : Path) : M unit := mkdir_parents (length p) p.

(** [datetime.now().strftime('%Y%m%d_%H%M%S')]. *)
Definition timestamp : M string := fun w => (Ret (strftime w), w).

(** [process_promo_folder]. *)
Definition process_promo_folder (fuel : nat) (cfg : Ren3Config)
    (promo_folder_path : string) : M (option Path) :=
  let promo_folder := Path_of_string promo_folder_path in
  present <- path_exists promo_folder ;;
  if negb present then log (FolderNotFound promo_folder) ;;; ret None
  else
    let processed_dir := path_join ["processed"] (path_name promo_folder) in
    mkdir processed_dir ;;;
    try_except
      (json_files <- get_json_files promo_folder ;;
       match json_files with
       | [] => log NoJsonFiles ;;; ret None
       | _ :: _ =>
           batches <- of_result (create_batches (batch_size cfg) json_files) ;;
           csv_files <- batch_loop fuel cfg processed_dir
                          (Z.of_nat (length batches)) 1 batches [] ;;
           match csv_files with
           | _ :: _ =>
               stamp <- timestamp ;;
               let final_excel :=
                 path_join processed_dir
                   ("final_analysis_" +:+ stamp +:+ ".xlsx") in
               _ <- combine_csvs csv_files final_excel ;;
               ret (Some final_excel)
           | [] => log NoBatchSucceeded ;;; ret None
           end
       end)
      (fun e => log (ProcessingFailed e) ;;; ret None).

(** [main], as the exit code it passes to [sys.exit].  [SystemExit] is not
    an [Exception]: the handler of [main] does not catch it. *)
Definition main (fuel : nat) (argv : list string) (env : environ) : M Z :=
  match argv with
  | _ :: promo_folder :: _ =>
      try_except
        (config <- of_result (Ren3Config_init env) ;;
         result <- process_promo_folder fuel config promo_folder ;;
         match result with
         | Some _ => ret 0
         | None => ret 1
         end)
        (fun e => log (FatalError e) ;;; ret 1)
  | _ => ret 1
  end.

(** An entry of a directory that discovery keeps: a [.json] name that does
    not start with the marker. *)
Definition eligible (n : string) : Prop :=
  Py.endswith ".json" n = true /\ Py.startswith "_" n = false.

(** ** The retry policy, as the specification words it *)

(** The world after [n] more requests and the events [evs]. *)
Definition advance (n : nat) (evs : list event) (w : World) : World :=
  with_sent (n + sent w) (with_trace (trace w ++ evs) w).

(** An answer on which [_api_call] tries again: a transport failure, or a
    body that breaks off or does not decode. *)
Definition is_failure (a : http_answer) : bool :=
  match a with
  | Reply _ (Some _) => false
  | Reply _ None | TransportError | Truncated _ => true
  end.

(** The k-th attempt (counted from one) when it fails and another follows:
    the request, the warning, the wait of [5 * k] seconds. *)
Definition failed_attempt (r : request) (max : Z) (k : nat) : list event :=
  [EvRequest r; EvLog (ApiCallFailed (Z.of_nat k) max); EvSleep (5 * Z.of_nat k)].

(** [K] failures, each followed by its wait, then one more request. *)
Definition retry_trace (r : request) (max : Z) (K : nat) : list event :=
  flat_map (failed_attempt r max) (seq 1 K) ++ [EvRequest r].

(** [n] requests that all fail: a wait after each but the last. *)
Definition exhausted_trace (r : request) (max : Z) (n : nat) : list event :=
  flat_map (failed_attempt r max) (seq 1 (n - 1))
  ++ [EvRequest r; EvLog (ApiCallFailed (Z.of_nat n) max)].

(** The requests among some events. *)
Definition requests_of (evs : list event) : list request :=
  omap (fun e => match e with EvRequest r => Some r | _ => None end) evs.

(** The waits among some events. *)
Definition sleeps_of (evs : list event) : list Z :=
  omap (fun e => match e with EvSleep n => Some n | _ => None end) evs.

(** ** What a computation may do to the world *)

(** The events of the stages of one batch: everything but the banner that
    opens a batch and the line that reports it completed. *)
Definition within_batch (e : event) : Prop :=
  match e with
  | EvLog (BatchBanner _ _) | EvLog (BatchCompleted _) => False
  | _ => True
  end.

(** [w'] comes after [w]: the same service and parser, no fewer requests
    sent, and a trace that extends that of [w] by events of the stages. *)
Definition steps (w w' : World) : Prop :=
  service w' = service w
  /\ read_csv w' = read_csv w
  /\ (sent w <= sent w')%nat
  /\ exists evs, trace w' = trace w ++ evs /\ Forall within_batch evs.

(** A computation that only steps the world, however it ends. *)
Definition safe {A : Type} (m : M A) : Prop :=
  forall w o w', m w = (o, w') -> steps w w'.

(** ** Completion, as the specification words it *)

(** [text] contains [word] when case is ignored: some part of [text] is
    [word] once lowered. *)
Definition contains_ignoring_case (word text : string) : Prop :=
  exists pre mid post, text = pre +:+ mid +:+ post /\ Py.lower mid = word.

(** An entry that signals completion: its type is 2 and its text contains
    the word "completed", case ignored. *)
Definition completion_entry (entry : log_entry) : Prop :=
  log_type entry = Some 2
  /\ exists text, log_text entry = Some text
                  /\ contains_ignoring_case "completed" text.

(** An answer of the service to a poll on which [poll_job_status] returns:
    a JSON document that reports success and whose log has an entry that
    passes the test. *)
Definition signals_completion (a : http_answer) : bool :=
  match a with
  | Reply _ (Some j) =>
      success j
      && match logs_of (returnObject j) with
         | Ok logs => existsb is_completion logs
         | Err _ => false
         end
  | Reply _ None | TransportError | Truncated _ => false
  end.

(** ** The merge, in terms of the rows of the files *)

(** The table that [pd.read_csv] makes of a path, when it makes one. *)
Definition readable (w : World) (csv : Path) : option DataFrame :=
  match files w !! csv with
  | Some (Bytes content) =>
      match read_csv w content with
      | Ok df => Some df
      | Err _ => None
      end
  | Some (Workbook _) | None => None
  end.

(** The rows of the files that can be read, in the order of the files. *)
Definition readable_rows (w : World) (csv_files : list Path)
  : list (list (string * string)) :=
  concat (map rows (omap (readable w) csv_files)).

(** ** The run, in terms of its trace *)

(** Some batch was completed: its pipeline reached the end and its CSV was
    kept. *)
Definition completed (evs : list event) : Prop :=
  exists k, EvLog (BatchCompleted k) ∈ evs.

(** The batches that were started, with the total shown, in order. *)
Definition banners_of (evs : list event) : list (Z * Z) :=
  omap (fun e => match e with
                 | EvLog (BatchBanner k total) => Some (k, total)
                 | _ => None
                 end) evs.

(** When a batch was started, all the batches were. *)
Definition all_started (evs : list event) : Prop :=
  forall k total,
    EvLog (BatchBanner k total) ∈ evs ->
    forall i, 1 <= i <= total -> EvLog (BatchBanner i total) ∈ evs.

(** What the body of one batch leaves in the trace: events of the stages,
    closed by the completion line exactly when it returns a path. *)
Definition ends_batch (batch_num : Z) (m : M (option Path)) : Prop :=
  forall w o w',
    m w = (o, w') ->
    exists evs,
      trace w' = trace w ++ evs
      /\ match o with
         | Ret (Some _) =>
             exists evs0, evs = evs0 ++ [EvLog (BatchCompleted batch_num)]
                          /\ Forall within_batch evs0
         | _ => Forall within_batch evs
         end.

(** What a run of the folder pipeline leaves behind, by the way it ends:
    with a result, some batch was completed and the workbook is on disk;
    without one, no batch was completed; an exception leaves before the
    batches. *)
Definition run_summary (w' : World) (o : outcome (option Path))
    (evs : list event) : Prop :=
  match o with
  | Ret (Some out) =>
      completed evs /\ all_started evs
      /\ exists table, EvWrite out ∈ evs
                       /\ files w' !! out = Some (Workbook table)
  | Ret None => ~ completed evs /\ all_started evs
  | Raise _ => Forall within_batch evs
  | Diverge => True
  end.

(** ** Scenarios *)

(** A 2xx answer whose JSON document reports success. *)
Definition ok_reply (o : ret_object) : http_answer :=
  Reply "{}" (Some {| success := true; returnObject := o |}).

(** A parser for the scenarios: an empty file has no columns to parse, any
    other file is one row with its text. *)
Definition one_cell_parser (content : string) : result DataFrame :=
  if decide (content = "") then Err ParserError
  else Ok {| columns := ["line"]; rows := [[("line", content)]] |}.

(** A world at the start of a run, with the given service, directories and
    files. *)
Definition world_of (script : nat -> http_answer)
    (d : gmap Path (list string)) (f : gmap Path file) : World :=
  {| service := script; sent := 0;
     uuid4 := fun n => "uuid-" +:+ pretty n; drawn := 0;
     strftime := "20251020_080000";
     read_csv := one_cell_parser;
     dirs := d; files := f; trace := [];
     clock := fun _ => 86400 |}.

(** A job that reports progress to the first [n] polls and completion to
    the next. *)
Definition completes_after (n : nat) (k : nat) : http_answer :=
  if (k <? n)%nat then
    ok_reply (RLogs [{| log_type := Some 1; log_text := Some "progress 10%" |}])
  else
    ok_reply (RLogs [{| log_type := Some 1; log_text := Some "progress 10%" |};
                     {| log_type := Some 2;
                        log_text := Some "Job completed successfully" |}]).

(** A job that only ever reports progress. *)
Definition never_completes (k : nat) : http_answer :=
  ok_reply (RLogs [{| log_type := Some 1; log_text := Some "progress 10%" |}]).

(** A service that is down. *)
Definition service_down (n : nat) : http_answer := TransportError.

(** A service that fails [K] requests and then gives the answers of
    [script], from its first one on. *)
Definition fails_then (K : nat) (script : nat -> http_answer) (n : nat)
  : http_answer :=
  if (n <? K)%nat then TransportError else script (n - K)%nat.

(** A service that fails the first [N] requests, [N] as large as one
    likes, and then gives the answer [a]. *)
Definition fails_long (N : Z) (a : http_answer) (n : nat) : http_answer :=
  if Z.of_nat n <? N then TransportError else a.

(** A configuration with the default tunables. *)
Definition config_of (bs pi mr : Z) : Ren3Config :=
  {| api_url := "https://backend.ren3.ai";
     user_id := Some "user"; workspace_id := Some "workspace";
     agent_uuid := Some "agent"; agent_folder := Some "folder";
     batch_size := bs; poll_interval := pi; max_retries := mr |}.

(** An environment with the four required settings. *)
Definition base_env : environ :=
  <["REN3_USER_ID" := "user"]>
    (<["REN3_WORKSPACE_ID" := "workspace"]>
       (<["REN3_AGENT_UUID" := "agent"]>
          (<["REN3_AGENT_FOLDER" := "folder"]> ∅))).

(** A run of two batches of one file: the listing of the first job has no
    CSV, the second job gives one. *)
Definition two_batch_script (n : nat) : http_answer :=
  match n with
  | 0 | 6 => ok_reply RAbsent
  | 1 => ok_reply (RFiles ["a.json"])
  | 7 => ok_reply (RFiles ["b.json"])
  | 2 => ok_reply (RJob "job-1")
  | 8 => ok_reply (RJob "job-2")
  | 3 | 9 =>
      ok_reply (RLogs [{| log_type := Some 2%Z;
                          log_text := Some "Job completed successfully" |}])
  | 4 => ok_reply (RDetails "out-1")
  | 10 => ok_reply (RDetails "out-2")
  | 5 => ok_reply (RDocs [{| doc_uuid := "d0"; doc_filename := "notes.txt" |}])
  | 11 =>
      ok_reply (RDocs [{| doc_uuid := "d1";
                          doc_filename := "competitive_analysis_results.csv" |}])
  | 12 => Reply "promo,bonus" None
  | _ => TransportError
  end%nat.

Definition two_batch_world : World :=
  world_of two_batch_script
    {[ ["output"; "promo_1"] := ["b.json"; "_meta.json"; "a.json"; "notes.txt"] ]}
    ∅.

Definition two_batch_env : environ := <["BATCH_SIZE" := "1"]> base_env.

(** The answers to one batch whose job gives a CSV. *)
Definition one_batch_script (n : nat) : http_answer :=
  two_batch_script (6 + n).

(** ** The driver, [run_processor.py] *)

(** [sep.join(parts)] with the separator of paths. *)
Fixpoint join_parts (parts : list string) : string :=
  match parts with
  | [] => ""
  | [a] => a
  | a :: rest => a +:+ "/" +:+ join_parts rest
  end.

(** [str(p)]: the parts joined by the separator, after the root when the
    path is absolute; the empty path is ["."]. *)
Definition path_to_string (p : Path) : string :=
  match p with
  | [] => "."
  | a :: rest => if decide (a = "/") then "/" +:+ join_parts rest
                 else join_parts p
  end.

(** A part that a path can hold: not empty, not ["."], without a
    separator. *)
Definition is_part (n : string) : Prop :=
  n <> "" /\ n <> "." /\ Py.contains "/" n = false.

(** A path whose parts are all such, after the root if it has one. *)
Definition well_formed (p : Path) : Prop :=
  Forall is_part
    (match p with
     | a :: rest => if decide (a = "/") then rest else p
     | [] => []
     end).

(** What is left of [s] after its first [n] characters. *)
Fixpoint drop_chars (n : nat) (s : string) : string :=
  match n, s with
  | O, _ => s
  | S n', String _ r => drop_chars n' r
  | S _, EmptyString => EmptyString
  end.

(** A name matches the pattern [prefix*suffix] when it starts with
    [prefix] and what follows the prefix ends with [suffix]. *)
Definition glob_star (prefix suffix name : string) : bool :=
  Py.startswith prefix name
  && Py.endswith suffix (drop_chars (String.length prefix) name).

Module RunProcessor.

(** [Path('/app/output')] and [Path('/app/processed')]. *)
Definition output_dir : Path := ["/"; "app"; "output"].
Definition processed_root : Path := ["/"; "app"; "processed"].

(** [dir.glob(prefix + '*' + suffix)]: the matching entries of the
    directory, in scan order; nothing when there is no such directory. *)
Definition glob_pattern (dir : Path) (prefix suffix : string) : M (list Path) :=
  fun w =>
    (Ret (match dirs w !! dir with
          | Some names =>
              map (path_join dir)
                (filter (fun n => glob_star prefix suffix n) names)
          | None => []
          end), w).

(** The keys of the sort: [x.stat().st_mtime] for every folder in turn,
    before anything is moved.  [st_mtime] is what [stat] answers; it raises
    for an entry that cannot be examined, a link to nothing for one, and
    the first error ends the sort. *)
Fixpoint sort_keys (st_mtime : Path -> result Z) (l : list Path)
  : result (list (Path * Z)) :=
  match l with
  | [] => Ok []
  | x :: rest =>
      match st_mtime x with
      | Err e => Err e
      | Ok t =>
          match sort_keys st_mtime rest with
          | Err e => Err e
          | Ok keyed => Ok ((x, t) :: keyed)
          end
      end
  end.

(** One step of a stable sort by modification time, newest first: [x],
    which came before the folders of [sorted], goes before the first of
    them that is not newer. *)
Fixpoint insert_newest (x : Path * Z) (sorted : list (Path * Z))
  : list (Path * Z) :=
  match sorted with
  | [] => [x]
  | y :: rest =>
      if y.2 <=? x.2 then x :: y :: rest
      else y :: insert_newest x rest
  end.

(** The sort of [l.sort(key=..., reverse=True)] on the folders with their
    keys: it is stable, also when reversed. *)
Definition sort_newest_first (l : list (Path * Z)) : list (Path * Z) :=
  foldr insert_newest [] l.

(** [get_latest_promo_folder]. *)
Definition get_latest_promo_folder (st_mtime : Path -> result Z)
  : M (option Path) :=
  promo_folders <- glob_pattern output_dir "promo_" "" ;;
  match promo_folders with
  | [] => ret None
  | _ :: _ =>
      keyed <- of_result (sort_keys st_mtime promo_folders) ;;
      ret (fst <$> head (sort_newest_first keyed))
  end.

(** [check_if_already_processed]. *)
Definition check_if_already_processed (promo_folder : Path) : M bool :=
  let processed_dir := path_join processed_root (path_name promo_folder) in
  present <- path_exists processed_dir ;;
  if present then
    excel_files <- glob_pattern processed_dir "final_analysis_" ".xlsx" ;;
    match excel_files with
    | _ :: _ => ret true
    | [] => ret false
    end
  else ret false.

(** [main] of the driver, as the exit code it passes to [sys.exit].  The
    search for the folder and the test for its output come before the
    [try]: what they raise leaves [main].  Of its own log lines the trace
    keeps the fatal error. *)
Definition main (fuel : nat) (st_mtime : Path -> result Z) (env : environ)
  : M Z :=
  latest <- get_latest_promo_folder st_mtime ;;
  match latest with
  | None => ret 1
  | Some promo_folder =>
      processed <- check_if_already_processed promo_folder ;;
      if processed then ret 0
      else
        try_except
          (config <- of_result (Ren3Config_init env) ;;
           result <- process_promo_folder fuel config
                       (path_to_string promo_folder) ;;
           match result with
           | Some _ => ret 0
           | None => ret 1
           end)
          (fun e => log (FatalError e) ;;; ret 1)
  end.

End RunProcessor.

(** ** Progress lines and batch numbers in a trace *)

(** The events of the gateway: requests, waits, and the warning of an
    attempt that failed. *)
Definition gateway_event (e : event) : Prop :=
  match e with
  | EvRequest _ | EvSleep _ | EvLog (ApiCallFailed _ _) => True
  | _ => False
  end.

(** The progress texts shown, in order. *)
Definition progress_of (evs : list event) : list string :=
  omap (fun e => match e with EvLog (Progress t) => Some t | _ => None end) evs.

(** No element is followed by an equal one. *)
Fixpoint no_repeat {A : Type} (l : list A) : Prop :=
  match l with
  | x :: rest =>
      match rest with
      | y :: _ => x <> y
      | [] => True
      end /\ no_repeat rest
  | [] => True
  end.

(** The numbers of the batches completed, in order. *)
Definition completed_of (evs : list event) : list Z :=
  omap (fun e => match e with EvLog (BatchCompleted k) => Some k | _ => None end)
       evs.

(** The file a batch downloads to. *)
Definition csv_path_of (processed_dir : Path) (batch_num : Z) : Path :=
  path_join processed_dir ("batch_" +:+ fmt_03d batch_num +:+ ".csv").

(** ** What a run does to the disk *)


(** A relation between worlds that the bookkeeping of a run does not
    break: it is a preorder, and counting requests and recording events
    keeps it. *)
Class Bookkeeping (R : relation World) : Prop := {
  bookkeeping_refl :: Reflexive R;
  bookkeeping_trans :: Transitive R;
  bookkeeping_advance : forall n evs w, R w (advance n evs w)
}.

(** [p] is an entry of the directory [dir]. *)
Definition inside (dir p : Path) : Prop :=
  exists name, name <> "" /\ p = dir ++ [name].

(** The listings of [d'] are those of [d], with more entries at the end
    of some and with some new ones. *)
Definition grows (d d' : gmap Path (list string)) : Prop :=
  forall q names, d !! q = Some names -> exists more, d' !! q = Some (names ++ more).

(** The listings of [d'] are those of [d], with more entries at the end
    of some, each of them on the way to [p]. *)
Definition grows_towards (p : Path) (d d' : gmap Path (list string)) : Prop :=
  forall q names,
    d !! q = Some names ->
    exists more, d' !! q = Some (names ++ more)
                 /\ forall n, n ∈ more -> (q ++ [n]) `prefix_of` p.

(** [w'] is [w] with more directories, all of them on the way to [p]. *)
Definition made (p : Path) (w w' : World) : Prop :=
  exists d, w' = with_dirs d w
            /\ grows_towards p (dirs w) d
            /\ forall q, ~ q `prefix_of` p -> d !! q = dirs w !! q.

(** [w'] has the files of [w] but for entries of [dir], and its listings
    but for that of [dir], which has grown if it was there. *)
Definition writes_inside (dir : Path) (w w' : World) : Prop :=
  (forall p, ~ inside dir p -> files w' !! p = files w !! p)
  /\ (forall q, q <> dir -> dirs w' !! q = dirs w !! q)
  /\ grows (dirs w) (dirs w').

(** * Proofs *)

(** * Strings: proofs *)

Section Strings.
Implicit Types (p s r needle hay : string).

Lemma append_cons a s r : String a s +:+ r = String a (s +:+ r).
Proof. reflexivity. Qed.

Lemma append_nil_r s : s +:+ "" = s.
Proof. induction s as [|a s IH]; [done|]. by rewrite append_cons, IH. Qed.

Lemma append_assoc s r t : (s +:+ r) +:+ t = s +:+ (r +:+ t).
Proof. induction s as [|a s IH]; [done|]. by rewrite !append_cons, IH. Qed.

Lemma startswith_spec p s :
  Py.startswith p s = true <-> exists r, s = p +:+ r.
Proof.
  revert s. induction p as [|a p IH]; intros s; simpl.
  - split; [intros _; by exists s | done].
  - destruct s as [|b s].
    + split; [done | intros [r Hr]; by rewrite append_cons in Hr].
    + destruct (decide (a = b)) as [->|Hne].
      * rewrite IH. split; intros [r Hr]; exists r.
        -- by rewrite append_cons, Hr.
        -- rewrite append_cons in Hr. by inversion Hr.
      * split; [done | intros [r Hr]].
        rewrite append_cons in Hr. by inversion Hr.
Qed.

Lemma endswith_spec p s :
  Py.endswith p s = true <-> exists pre, s = pre +:+ p.
Proof.
  induction s as [|a s IH]; simpl.
  - destruct (decide ("" = p)) as [<-|Hne].
    + split; [by exists "" | done].
    + split; [done | intros [pre Hpre]].
      destruct pre; [done | by rewrite append_cons in Hpre].
  - destruct (decide (String a s = p)) as [<-|Hne].
    + split; [by exists "" | done].
    + rewrite IH. split; intros [pre Hpre].
      * exists (String a pre). by rewrite append_cons, Hpre.
      * destruct pre as [|b pre]; [done|].
        rewrite append_cons in Hpre. inversion Hpre. by exists pre.
Qed.

Lemma contains_spec needle hay :
  Py.contains needle hay = true <->
  exists pre post, hay = pre +:+ needle +:+ post.
Proof.
  induction hay as [|a hay IH]; simpl.
  - destruct (Py.startswith needle "") eqn:Hs.
    + apply startswith_spec in Hs as [r Hr].
      split; [intros _; by exists "", r | done].
    + split; [done | intros (pre & post & H)].
      destruct pre; [|by rewrite append_cons in H].
      assert (Py.startswith needle "" = true); [|congruence].
      apply startswith_spec. by exists post.
  - destruct (Py.startswith needle (String a hay)) eqn:Hs.
    + apply startswith_spec in Hs as [r Hr].
      split; [intros _; by exists "", r | done].
    + rewrite IH. split; intros (pre & post & H).
      * exists (String a pre), post. by rewrite append_cons, H.
      * destruct pre as [|b pre].
        -- assert (Py.startswith needle (String a hay) = true); [|congruence].
           apply startswith_spec. by exists post.
        -- rewrite append_cons in H. inversion H. by exists pre, post.
Qed.

End Strings.

(** * Path order: proofs *)

Section PathOrder.

Lemma compare_refl (a : string) : String.compare a a = Eq.
Proof.
  induction a as [|c a IH]; simpl; [done|].
  unfold Ascii.compare. by rewrite N.compare_refl.
Qed.

Lemma compare_le (a b : string) :
  String.compare a b <> Gt <-> (a ≤ b)%string.
Proof.
  unfold String.le, String.leb.
  destruct (String.compare a b); simpl; split; try done.
Qed.

Lemma compare_lt_trans (a b c : string) :
  String.compare a b = Lt -> String.compare b c = Lt ->
  String.compare a c = Lt.
Proof.
  intros Hab Hbc.
  assert (Hle : (a ≤ c)%string).
  { transitivity b; apply compare_le; congruence. }
  apply compare_le in Hle.
  destruct (String.compare a c) eqn:Hac; [|done|done].
  apply String.compare_eq_iff in Hac as ->.
  rewrite String.compare_antisym, Hab in Hbc. done.
Qed.

#[global] Instance path_le_total : Total path_le.
Proof.
  intros p. unfold path_le. induction p as [|a p IH]; intros [|b q]; simpl; auto.
  rewrite (String.compare_antisym a b).
  destruct (String.compare b a); simpl; auto.
Qed.

#[global] Instance path_le_trans : Transitive path_le.
Proof.
  intros p. unfold path_le.
  induction p as [|a p IH]; intros [|b q] [|c r]; simpl; try done.
  destruct (String.compare a b) eqn:Hab; [| |done].
  - apply String.compare_eq_iff in Hab as ->.
    destruct (String.compare b c); [apply IH | done | done].
  - destruct (String.compare b c) eqn:Hbc; [| |done].
    + apply String.compare_eq_iff in Hbc as ->. by rewrite Hab.
    + by rewrite (compare_lt_trans a b c).
Qed.

Lemma path_le_siblings (p : Path) (a b : string) :
  path_le (p ++ [a]) (p ++ [b]) -> (a ≤ b)%string.
Proof.
  unfold path_le. induction p as [|x p IH]; simpl.
  - intros H. apply compare_le. by destruct (String.compare a b).
  - by rewrite compare_refl.
Qed.

Lemma StronglySorted_weaken {A : Type} (R R' : relation A) (l : list A) :
  (forall x y, x ∈ l -> y ∈ l -> R x y -> R' x y) ->
  StronglySorted R l -> StronglySorted R' l.
Proof.
  intros HR Hs. induction Hs as [|x l Hs IH Hall]; constructor.
  - apply IH. intros y z Hy Hz. apply HR; by right.
  - apply Forall_forall. intros y Hy.
    apply HR; [by left | by right |].
    by apply (proj1 (Forall_forall _ _) Hall).
Qed.

End PathOrder.

(** * File discovery: proofs *)

Section Discovery.

Lemma json_name_join (promo : Path) (n : string) :
  Py.endswith ".json" n = true ->
  path_join promo n = promo ++ [n] /\ path_name (promo ++ [n]) = n.
Proof.
  intros Hn. unfold path_join, path_name. rewrite last_snoc.
  destruct (decide (n = "")) as [->|_]; [done|].
  destruct (decide (n = "/")) as [->|_]; done.
Qed.

(** What [get_json_files] returns, and that it changes nothing. *)
Lemma get_json_files_eq (promo : Path) (w : World) :
  get_json_files promo w =
  (Ret (merge_sort path_le
          (filter (fun f => negb (Py.startswith "_" (path_name f)))
             (match dirs w !! promo with
              | Some names =>
                  map (path_join promo)
                    (filter (fun n => Py.endswith ".json" n) names)
              | None => []
              end))), w).
Proof. reflexivity. Qed.

Lemma get_json_files_elem (promo : Path) (w : World) (f : Path) :
  f ∈ merge_sort path_le
        (filter (fun f => negb (Py.startswith "_" (path_name f)))
           (match dirs w !! promo with
            | Some names =>
                map (path_join promo)
                  (filter (fun n => Py.endswith ".json" n) names)
            | None => []
            end))
  <-> exists names n,
        dirs w !! promo = Some names /\ n ∈ names /\ eligible n
        /\ f = promo ++ [n].
Proof.
  rewrite merge_sort_Permutation, list_elem_of_filter.
  destruct (dirs w !! promo) as [names|]; split.
  - intros [Hus Hin]. apply list_elem_of_fmap in Hin as (n & -> & Hn).
    apply list_elem_of_filter in Hn as [Hjson Hn].
    apply Is_true_true in Hjson.
    destruct (json_name_join promo n Hjson) as [Hj Hname].
    exists names, n. repeat split; try done.
    rewrite Hj, Hname in Hus. by destruct (Py.startswith "_" n).
  - intros (names' & n & [= <-] & Hn & [Hjson Hus] & ->).
    destruct (json_name_join promo n Hjson) as [Hj Hname].
    split.
    + by rewrite Hname, Hus.
    + apply list_elem_of_fmap. exists n. split; [done|].
      apply list_elem_of_filter. split; [by apply Is_true_true | done].
  - intros [_ Hin]. by apply elem_of_nil in Hin.
  - intros (names' & n & [=] & _).
Qed.

Lemma no_elem_nil {A : Type} (l : list A) : (forall x, x ∉ l) -> l = [].
Proof. destruct l as [|x l]; [done|]. intros H. destruct (H x). by left. Qed.

End Discovery.

(** C7.  Whatever the directory, file discovery returns, without touching
    the world, a list in which no name starts with the marker ['_'], every
    name ends in [.json], and the names ascend. *)
Theorem get_json_files_sorted_eligible :
  forall (promo_folder : Path) (w : World),
  exists json_files,
    get_json_files promo_folder w = (Ret json_files, w)
    /\ Forall (fun f => Py.startswith "_" (path_name f) = false
                        /\ exists stem, path_name f = stem +:+ ".json")
              json_files
    /\ StronglySorted (fun f g => (path_name f ≤ path_name g)%string) json_files.
Proof.
  intros promo w. eexists. split; [apply get_json_files_eq|]. split.
  - apply Forall_forall. intros f Hf.
    apply get_json_files_elem in Hf as (names & n & _ & _ & [Hjson Hus] & ->).
    destruct (json_name_join promo n Hjson) as [_ ->].
    split; [done | by apply endswith_spec].
  - eapply StronglySorted_weaken; [|apply StronglySorted_merge_sort; apply _].
    intros f g Hf Hg Hle.
    apply get_json_files_elem in Hf as (? & n & _ & _ & [Hn _] & ->).
    apply get_json_files_elem in Hg as (? & m & _ & _ & [Hm _] & ->).
    destruct (json_name_join promo n Hn) as [_ ->].
    destruct (json_name_join promo m Hm) as [_ ->].
    by apply path_le_siblings in Hle.
Qed.

(** C6, as the code has it.  Discovery never fails: it returns the empty
    list when the directory does not exist and when it has no eligible
    entry.  The missing folder is met by [process_promo_folder], which logs
    it and returns no result, without raising and without any request. *)
Theorem discovery_empty_not_error :
  forall (promo_folder : Path) (w : World),
    (dirs w !! promo_folder = None
     \/ exists names, dirs w !! promo_folder = Some names
                      /\ forall n, n ∈ names -> ~ eligible n) ->
    get_json_files promo_folder w = (Ret [], w)
    /\ forall fuel cfg path,
         Path_of_string path = promo_folder ->
         dirs w !! promo_folder = None -> files w !! promo_folder = None ->
         process_promo_folder fuel cfg path w
         = (Ret None,
            with_trace (trace w ++ [EvLog (FolderNotFound promo_folder)]) w).
Proof.
  intros promo w Hcase. split.
  - rewrite get_json_files_eq. do 2 f_equal. apply no_elem_nil.
    intros f Hf. apply get_json_files_elem in Hf as (names & n & Hd & Hn & He & _).
    destruct Hcase as [Hnone | (names' & Hd' & Hnot)]; [congruence|].
    rewrite Hd in Hd'. injection Hd' as <-. by apply (Hnot n).
  - intros fuel cfg path <- Hd Hf.
    unfold process_promo_folder, bind, path_exists. by rewrite Hd, Hf.
Qed.

Lemma discovery_empty_not_error_witness :
  get_json_files ["output"; "promo_0"] (world_of service_down ∅ ∅)
  = (Ret [], world_of service_down ∅ ∅)
  /\ process_promo_folder 1 (config_of 30 15 3) "output/promo_0"
       (world_of service_down ∅ ∅)
     = (Ret None,
        with_trace [EvLog (FolderNotFound ["output"; "promo_0"])]
          (world_of service_down ∅ ∅)).
Proof.
  destruct (discovery_empty_not_error ["output"; "promo_0"]
              (world_of service_down ∅ ∅)) as [Hfiles Hrun].
  - left. reflexivity.
  - split; [exact Hfiles|]. apply Hrun; reflexivity.
Defined.

(** C6 as stated fails: for a directory that does not exist, discovery
    returns the empty list and raises nothing. *)
Lemma discovery_missing_directory_no_error :
  dirs (world_of service_down ∅ ∅) !! ["output"; "promo_0"] = None
  /\ ~ exists e w',
         get_json_files ["output"; "promo_0"] (world_of service_down ∅ ∅)
         = (Raise e, w').
Proof.
  split; [reflexivity|]. intros (e & w' & H).
  rewrite get_json_files_eq in H. discriminate H.
Qed.

(** * Configuration: proofs *)

Lemma range_negative_step (n B : Z) : 0 <= n -> B < 0 -> Py.range 0 n B = Ok [].
Proof.
  intros Hn HB. unfold Py.range, Py.range_len.
  destruct (Z.eqb_spec B 0); [lia|].
  destruct (Z.ltb_spec 0 B); [lia|].
  destruct (Z.ltb_spec n 0); [lia|]. reflexivity.
Qed.

(** C10.  The loader takes any integer text for [BATCH_SIZE]: with the
    required settings present and the tunables readable, a batch size that
    is zero or negative is accepted as it is.  With it, [create_batches]
    raises when the size is zero and returns no batch at all when it is
    negative, whatever the files. *)
Theorem batch_size_unvalidated :
  forall (env : environ) (z p m : Z),
    z <= 0 ->
    Py.int (getenv env "BATCH_SIZE" "30") = Ok z ->
    Py.int (getenv env "POLL_INTERVAL" "15") = Ok p ->
    Py.int (getenv env "MAX_RETRIES" "3") = Ok m ->
    Py.truthy (env !! "REN3_USER_ID") = true ->
    Py.truthy (env !! "REN3_WORKSPACE_ID") = true ->
    Py.truthy (env !! "REN3_AGENT_UUID") = true ->
    Py.truthy (env !! "REN3_AGENT_FOLDER") = true ->
    exists cfg,
      Ren3Config_init env = Ok cfg
      /\ batch_size cfg = z
      /\ (z = 0 -> forall (A : Type) (json_files : list A),
            create_batches (batch_size cfg) json_files = Err ValueError)
      /\ (z < 0 -> forall (A : Type) (json_files : list A),
            create_batches (batch_size cfg) json_files = Ok []).
Proof.
  intros env z p m Hz Hbs Hpi Hmr Hu Hw Ha Hf.
  eexists. split.
  - unfold Ren3Config_init. rewrite Hbs, Hpi, Hmr.
    unfold missing. simpl. rewrite Hu, Hw, Ha, Hf. reflexivity.
  - simpl. split; [reflexivity|]. split.
    + intros -> A l. reflexivity.
    + intros Hneg A l. unfold create_batches.
      rewrite range_negative_step by lia. reflexivity.
Qed.

Lemma batch_size_unvalidated_witness :
  (exists cfg,
     Ren3Config_init (<["BATCH_SIZE" := "0"]> base_env) = Ok cfg
     /\ batch_size cfg = 0
     /\ create_batches (batch_size cfg) ["a.json"; "b.json"] = Err ValueError)
  /\ (exists cfg,
        Ren3Config_init (<["BATCH_SIZE" := "-5"]> base_env) = Ok cfg
        /\ batch_size cfg = -5
        /\ create_batches (batch_size cfg) ["a.json"; "b.json"] = Ok []).
Proof.
  split.
  - destruct (batch_size_unvalidated (<["BATCH_SIZE" := "0"]> base_env) 0 15 3)
      as (cfg & Hcfg & Hbs & Hzero & _); [lia | reflexivity ..|].
    exists cfg. repeat split; [exact Hcfg | exact Hbs | by apply Hzero].
  - destruct (batch_size_unvalidated (<["BATCH_SIZE" := "-5"]> base_env) (-5) 15 3)
      as (cfg & Hcfg & Hbs & _ & Hneg); [lia | reflexivity ..|].
    exists cfg. repeat split; [exact Hcfg | exact Hbs | apply Hneg; lia].
Defined.

(** * Computations: proofs *)

Section Worlds.
Implicit Types (w : World) (evs : list event) (n : nat).

Lemma advance_advance n1 n2 evs1 evs2 w :
  advance n2 evs2 (advance n1 evs1 w) = advance (n1 + n2) (evs1 ++ evs2) w.
Proof.
  unfold advance, with_sent, with_trace. simpl. f_equal; [lia|].
  by rewrite app_assoc.
Qed.

Lemma advance_more n evs1 evs2 w :
  advance 0 evs2 (advance n evs1 w) = advance n (evs1 ++ evs2) w.
Proof. by rewrite advance_advance, Nat.add_0_r. Qed.

Lemma advance_nil w : advance 0 [] w = w.
Proof.
  destruct w. unfold advance, with_sent, with_trace. simpl.
  by rewrite app_nil_r.
Qed.

Lemma send_eq r w : send r w = (Ret (service w (sent w)), advance 1 [EvRequest r] w).
Proof. reflexivity. Qed.

Lemma emit_eq e w : emit e w = (Ret tt, advance 0 [e] w).
Proof. reflexivity. Qed.

Lemma written_advance p f n evs w :
  written p f (advance n evs w) = advance n evs (written p f w).
Proof. done. Qed.

Lemma write_file_eq p f w :
  write_file p f w = (Ret tt, written p f (advance 0 [EvWrite p] w)).
Proof. done. Qed.

Lemma log_eq m w : log m w = (Ret tt, advance 0 [EvLog m] w).
Proof. reflexivity. Qed.

Lemma sleep_cases s w :
  sleep s w = match sleep_error w s with
              | Some e => (Raise e, w)
              | None => (Ret tt, advance 0 [EvSleep s] w)
              end.
Proof. reflexivity. Qed.

Lemma wait_limit_floor w : sleep_floor <= wait_limit w.
Proof. unfold wait_limit. lia. Qed.

(** A wait within the floor is taken, whatever the clock reads. *)
Lemma sleep_error_none s w : 0 <= s <= sleep_floor -> sleep_error w s = None.
Proof.
  intros Hs. unfold sleep_error. pose proof (wait_limit_floor w).
  destruct (Z.ltb_spec s 0); [lia|].
  destruct (Z.ltb_spec sleep_ceiling s); [unfold sleep_ceiling, sleep_floor in *; lia|].
  by destruct (Z.ltb_spec (wait_limit w) s); [lia|].
Qed.

Lemma sleep_eq s w :
  0 <= s <= sleep_floor -> sleep s w = (Ret tt, advance 0 [EvSleep s] w).
Proof. intros Hs. by rewrite sleep_cases, sleep_error_none. Qed.

Lemma sleep_negative s w : s < 0 -> sleep s w = (Raise ValueError, w).
Proof.
  intros Hs. rewrite sleep_cases. unfold sleep_error.
  by destruct (Z.ltb_spec s 0); [|lia].
Qed.

Lemma sleep_too_long s w : sleep_ceiling < s -> sleep s w = (Raise OverflowError, w).
Proof.
  intros Hs. rewrite sleep_cases. unfold sleep_error.
  destruct (Z.ltb_spec s 0); [unfold sleep_ceiling in *; lia|].
  by destruct (Z.ltb_spec sleep_ceiling s); [|lia].
Qed.

(** A wait beyond what a C timestamp holds is refused. *)
Lemma sleep_error_too_long s w :
  sleep_ceiling < s -> sleep_error w s = Some OverflowError.
Proof.
  intros Hs. unfold sleep_error.
  destruct (Z.ltb_spec s 0); [unfold sleep_ceiling in *; lia|].
  by destruct (Z.ltb_spec sleep_ceiling s); [|lia].
Qed.

(** What a refused wait raises. *)
Lemma sleep_error_kinds s w e :
  sleep_error w s = Some e ->
  e = ValueError \/ e = OverflowError \/ e = OSError.
Proof.
  unfold sleep_error. intros H.
  destruct (s <? 0); [injection H as <-; auto|].
  destruct (sleep_ceiling <? s); [injection H as <-; auto|].
  destruct (wait_limit w <? s); [injection H as <-; auto | done].
Qed.

(** A wait that is refused is a long one, when it is not negative. *)
Lemma sleep_error_some s w e :
  0 <= s -> sleep_error w s = Some e ->
  sleep_floor < s /\ (e = OverflowError \/ e = OSError).
Proof.
  intros Hs H. split.
  - destruct (Z.le_gt_cases s sleep_floor); [|lia].
    by rewrite sleep_error_none in H.
  - unfold sleep_error in H. destruct (Z.ltb_spec s 0); [lia|].
    destruct (sleep_ceiling <? s); [injection H as <-; auto|].
    destruct (wait_limit w <? s); [injection H as <-; auto | done].
Qed.

Lemma wait_then {A} s (a : A) w :
  (sleep s ;;; ret a) w
  = match sleep_error w s with
    | Some e => (Raise e, w)
    | None => (Ret a, advance 0 [EvSleep s] w)
    end.
Proof. unfold bind. rewrite sleep_cases. by destruct (sleep_error w s). Qed.

Lemma waits_app t1 t2 : waits (t1 ++ t2) = (waits t1 + waits t2)%nat.
Proof.
  induction t1 as [|e t1 IH]; [done|]. destruct e; cbn [app waits]; by rewrite IH.
Qed.

(** The clock is read anew only after a wait. *)
Lemma sleep_error_advance n evs w s :
  waits evs = 0%nat -> sleep_error (advance n evs w) s = sleep_error w s.
Proof.
  intros Hevs. unfold sleep_error, wait_limit.
  cbn [advance with_sent with_trace trace clock].
  by rewrite waits_app, Hevs, Nat.add_0_r.
Qed.

Lemma log_wait_then {A} m s (a : A) w :
  (log m ;;; sleep s ;;; ret a) w
  = match sleep_error w s with
    | Some e => (Raise e, advance 0 [EvLog m] w)
    | None => (Ret a, advance 0 [EvLog m; EvSleep s] w)
    end.
Proof.
  unfold bind at 1. rewrite log_eq, wait_then, sleep_error_advance by done.
  destruct (sleep_error w s); [done|]. by rewrite advance_advance.
Qed.

Lemma range_attempts (max : Z) :
  Py.range 0 max 1 = Ok (map Z.of_nat (seq 0 (Z.to_nat max))).
Proof.
  unfold Py.range, Py.range_len. simpl.
  destruct (Z.ltb_spec 0 max) as [Hpos|Hneg].
  - rewrite Z.div_1_r. replace (max - 0 - 1 + 1) with max by lia.
    f_equal. apply map_ext. intros k. lia.
  - replace (Z.to_nat max) with 0%nat by lia. reflexivity.
Qed.

End Worlds.

(** * Directories: proofs *)

Section Directories.
Implicit Types (w : World) (p q : Path) (d : gmap Path (list string)).

Lemma parent_prefix p : parent p `prefix_of` p.
Proof.
  unfold parent. destruct (decide (p = ["/"])); [done|].
  destruct p as [|a p _] using rev_ind; [done|].
  rewrite removelast_last. by apply prefix_app_r.
Qed.


Lemma grows_refl d : grows d d.
Proof. intros q names Hq. exists []. by rewrite app_nil_r. Qed.

Lemma grows_trans d1 d2 d3 : grows d1 d2 -> grows d2 d3 -> grows d1 d3.
Proof.
  intros H12 H23 q names Hq.
  destruct (H12 q names Hq) as (more1 & H2).
  destruct (H23 q _ H2) as (more2 & H3).
  exists (more1 ++ more2). by rewrite app_assoc.
Qed.

(** A new entry changes the listing of the parent, and only by adding to
    it. *)
Lemma add_entry_other p d q : q <> parent p -> add_entry p d !! q = d !! q.
Proof.
  intros Hq. unfold add_entry.
  destruct (last p) as [name|]; [|done].
  destruct (d !! parent p) as [names|]; [|done].
  destruct (decide (name ∈ names)); [done|]. by rewrite lookup_insert_ne.
Qed.



Lemma grows_towards_refl p d : grows_towards p d d.
Proof.
  intros q names Hq. exists []. rewrite app_nil_r. split; [done|].
  by intros n Hn%elem_of_nil.
Qed.

Lemma grows_towards_trans p q d1 d2 d3 :
  q `prefix_of` p ->
  grows_towards q d1 d2 -> grows_towards p d2 d3 -> grows_towards p d1 d3.
Proof.
  intros Hqp H12 H23 r names Hr.
  destruct (H12 r names Hr) as (more1 & H2 & Hw1).
  destruct (H23 r _ H2) as (more2 & H3 & Hw2).
  exists (more1 ++ more2). split; [by rewrite app_assoc|].
  intros n [Hn|Hn]%elem_of_app; [|by apply Hw2].
  etrans; [by apply Hw1 | done].
Qed.

Lemma parent_last p name :
  p <> ["/"] -> last p = Some name -> parent p ++ [name] = p.
Proof.
  intros Hr Hl. unfold parent. destruct (decide (p = ["/"])); [done|].
  destruct p as [|a p _] using rev_ind; [done|].
  rewrite last_snoc in Hl. injection Hl as ->. by rewrite removelast_last.
Qed.

Lemma add_entry_grows_towards p d :
  p <> ["/"] -> grows_towards p d (add_entry p d).
Proof.
  intros Hr q names Hq. unfold add_entry.
  destruct (last p) as [name|] eqn:Hl;
    [|by eapply grows_towards_refl].
  destruct (d !! parent p) as [names'|] eqn:Hp;
    [|by eapply grows_towards_refl].
  destruct (decide (name ∈ names')) as [Hin|Hin]; [by eapply grows_towards_refl|].
  destruct (decide (q = parent p)) as [->|Hne].
  - rewrite lookup_insert_eq. exists [name]. split; [congruence|].
    intros n ->%list_elem_of_singleton. by rewrite parent_last.
  - rewrite lookup_insert_ne by done. by eapply grows_towards_refl.
Qed.

Lemma made_refl p w : made p w w.
Proof.
  exists (dirs w). split; [by destruct w|].
  split; [apply grows_towards_refl | done].
Qed.

Lemma made_trans p q w1 w2 w3 :
  q `prefix_of` p -> made q w1 w2 -> made p w2 w3 -> made p w1 w3.
Proof.
  intros Hqp (d2 & -> & Hg2 & Ho2) (d3 & -> & Hg3 & Ho3).
  exists d3. split; [done|]. cbn [dirs with_dirs] in *. split.
  - by eapply grows_towards_trans.
  - intros r Hr. rewrite Ho3 by done. apply Ho2.
    intros Hrq. apply Hr. by etrans.
Qed.


(** What [os.mkdir] does when it succeeds. *)
Lemma os_mkdir_from_ok w : forall rest above w',
  os_mkdir_from w above rest = Ok w' ->
  w' = with_dirs (<[above ++ rest := []]> (add_entry (above ++ rest) (dirs w))) w
  /\ is_dir w (above ++ rest) = false
  /\ files w !! (above ++ rest) = None.
Proof.
  induction rest as [|part rest IH]; intros above w' H; [done|].
  cbn [os_mkdir_from] in H. destruct rest as [|part' rest].
  - destruct (is_dir w (above ++ [part])) eqn:Hd; [done|]. cbn [orb] in H.
    destruct (bool_decide (is_Some (files w !! (above ++ [part])))) eqn:Hf; [done|].
    injection H as <-. split; [done|]. split; [done|].
    apply bool_decide_eq_false in Hf. by apply eq_None_not_Some.
  - destruct (is_dir w (above ++ [part]));
      [|by destruct (bool_decide (is_Some (files w !! (above ++ [part]))))].
    apply IH in H. by rewrite <- app_assoc in H.
Qed.

Lemma os_mkdir_ok p w w' :
  os_mkdir p w = Ok w' ->
  w' = with_dirs (<[p := []]> (add_entry p (dirs w))) w
  /\ is_dir w p = false /\ files w !! p = None.
Proof. apply (os_mkdir_from_ok w p []). Qed.

Lemma is_dir_false w p :
  is_dir w p = false -> p <> [] /\ p <> ["/"] /\ dirs w !! p = None.
Proof.
  unfold is_dir. intros H.
  apply orb_false_iff in H as [H Hd]. apply orb_false_iff in H as [Hn Hr].
  apply bool_decide_eq_false in Hn, Hr, Hd.
  repeat split; [done | done |]. by apply eq_None_not_Some.
Qed.

Lemma os_mkdir_made p w w' : os_mkdir p w = Ok w' -> made p w w'.
Proof.
  intros H. apply os_mkdir_ok in H as (-> & Hd & _).
  apply is_dir_false in Hd as (Hn & Hr & Hd).
  eexists. split; [done|]. split.
  - intros q names Hq. destruct (decide (q = p)) as [->|Hne]; [congruence|].
    rewrite lookup_insert_ne by done. by apply add_entry_grows_towards.
  - intros q Hq. rewrite lookup_insert_ne by (by intros ->).
    apply add_entry_other. intros ->. apply Hq, parent_prefix.
Qed.

Lemma mkdir_leaf_made p w o w' : mkdir_leaf p w = (o, w') -> made p w w'.
Proof.
  unfold mkdir_leaf. destruct (os_mkdir p w) as [w1|e] eqn:Hos.
  - intros [= <- <-]. by apply os_mkdir_made.
  - destruct e, (is_dir w p); intros [= <- <-]; apply made_refl.
Qed.

Lemma mkdir_parents_made depth : forall p w o w',
  mkdir_parents depth p w = (o, w') -> made p w w'.
Proof.
  induction depth as [|depth IH]; intros p w o w' H; cbn [mkdir_parents] in H;
    destruct (os_mkdir p w) as [w1|e] eqn:Hos.
  - injection H as <- <-. by apply os_mkdir_made.
  - destruct e, (is_dir w p); injection H as <- <-; apply made_refl.
  - injection H as <- <-. by apply os_mkdir_made.
  - destruct e; try (destruct (is_dir w p); injection H as <- <-; apply made_refl).
    destruct (decide (parent p = p)); [injection H as <- <-; apply made_refl|].
    unfold bind in H.
    destruct (mkdir_parents depth (parent p) w) as [[[]|e|] w1] eqn:Hup;
      apply IH in Hup.
    + apply mkdir_leaf_made in H.
      eapply made_trans; [apply parent_prefix | exact Hup | exact H].
    + injection H as <- <-.
      eapply made_trans; [apply parent_prefix | exact Hup | apply made_refl].
    + injection H as <- <-.
      eapply made_trans; [apply parent_prefix | exact Hup | apply made_refl].
Qed.

Lemma mkdir_made p w o w' : mkdir p w = (o, w') -> made p w w'.
Proof. apply mkdir_parents_made. Qed.

Lemma mkdir_diverge p w w' : mkdir p w <> (Diverge, w').
Proof.
  unfold mkdir. generalize (length p). intros depth. revert p w w'.
  induction depth as [|depth IH]; intros p w w' H; cbn [mkdir_parents] in H;
    destruct (os_mkdir p w) as [w1|e] eqn:Hos; try done.
  - by destruct e, (is_dir w p).
  - destruct e; try by destruct (is_dir w p).
    destruct (decide (parent p = p)); [done|]. unfold bind in H.
    destruct (mkdir_parents depth (parent p) w) as [[[]|e|] w1] eqn:Hup;
      [|done|by apply IH in Hup].
    unfold mkdir_leaf in H. destruct (os_mkdir p w1) as [w2|e]; [done|].
    by destruct e, (is_dir w1 p).
Qed.



End Directories.

(** * What computations do to the world: proofs *)

Section Safe.

Lemma steps_refl w : steps w w.
Proof.
  repeat split; [lia|]. exists []. by rewrite app_nil_r.
Qed.

Lemma steps_trans w1 w2 w3 : steps w1 w2 -> steps w2 w3 -> steps w1 w3.
Proof.
  intros (Hs1 & Hr1 & Hn1 & evs1 & Ht1 & Hq1) (Hs2 & Hr2 & Hn2 & evs2 & Ht2 & Hq2).
  repeat split; [congruence | congruence | lia |].
  exists (evs1 ++ evs2). split; [|by apply Forall_app].
  by rewrite Ht2, Ht1, app_assoc.
Qed.

Lemma steps_advance n evs w : Forall within_batch evs -> steps w (advance n evs w).
Proof. intros H. repeat split; [simpl; lia|]. by exists evs. Qed.

Lemma safe_ret {A} (a : A) : safe (ret a).
Proof. intros w o w' [= <- <-]. apply steps_refl. Qed.

Lemma safe_raise {A} e : safe (@raise A e).
Proof. intros w o w' [= <- <-]. apply steps_refl. Qed.

Lemma safe_diverge {A} : safe (@diverge A).
Proof. intros w o w' [= <- <-]. apply steps_refl. Qed.

Lemma safe_of_result {A} (r : result A) : safe (of_result r).
Proof. destruct r; [apply safe_ret | apply safe_raise]. Qed.

Lemma safe_bind {A B} (m : M A) (k : A -> M B) :
  safe m -> (forall a, safe (k a)) -> safe (bind m k).
Proof.
  intros Hm Hk w o w' H. unfold bind in H.
  destruct (m w) as [[a|e|] w1] eqn:Hmw.
  - eapply steps_trans; [by eapply Hm | by eapply Hk].
  - injection H as <- <-. by eapply Hm.
  - injection H as <- <-. by eapply Hm.
Qed.

Lemma safe_try_catch {A} catches (m : M A) handler :
  safe m -> (forall e, safe (handler e)) -> safe (try_catch catches m handler).
Proof.
  intros Hm Hh w o w' H. unfold try_catch in H.
  destruct (m w) as [[a|e|] w1] eqn:Hmw.
  - injection H as <- <-. by eapply Hm.
  - destruct (catches e).
    + eapply steps_trans; [by eapply Hm | by eapply Hh].
    + injection H as <- <-. by eapply Hm.
  - injection H as <- <-. by eapply Hm.
Qed.

Lemma safe_try_except {A} (m : M A) handler :
  safe m -> (forall e, safe (handler e)) -> safe (try_except m handler).
Proof. apply safe_try_catch. Qed.

Lemma safe_emit e : within_batch e -> safe (emit e).
Proof.
  intros He w o w' [= <- <-]. apply (steps_advance 0). by constructor.
Qed.

Lemma safe_log m : within_batch (EvLog m) -> safe (log m).
Proof. apply safe_emit. Qed.

Lemma safe_sleep s : safe (sleep s).
Proof.
  intros w o w' H. rewrite sleep_cases in H.
  destruct (sleep_error w s); injection H as <- <-;
    [apply steps_refl | apply (steps_advance 0); by constructor].
Qed.

Lemma safe_send r : safe (send r).
Proof.
  intros w o w' [= <- <-]. apply (steps_advance 1). by repeat constructor.
Qed.

Lemma safe_fresh_uuid : safe fresh_uuid.
Proof.
  intros w o w' [= <- <-]. repeat split; [simpl; lia|].
  exists []. simpl. by rewrite app_nil_r.
Qed.

Lemma safe_write_file p f : safe (write_file p f).
Proof.
  intros w o w' [= <- <-]. repeat split; [simpl; lia|].
  exists [EvWrite p]. by repeat constructor.
Qed.

Lemma safe_pd_read_csv p : safe (pd_read_csv p).
Proof.
  intros w o w' H. unfold pd_read_csv in H.
  destruct (files w !! p) as [[content|t]|].
  - by apply safe_of_result in H.
  - injection H as <- <-. apply steps_refl.
  - injection H as <- <-. apply steps_refl.
Qed.

Lemma safe_glob_json p : safe (glob_json p).
Proof. intros w o w' [= <- <-]. apply steps_refl. Qed.

Lemma safe_path_exists p : safe (path_exists p).
Proof. intros w o w' [= <- <-]. apply steps_refl. Qed.

Lemma safe_timestamp : safe timestamp.
Proof. intros w o w' [= <- <-]. apply steps_refl. Qed.

Lemma safe_mkdir p : safe (mkdir p).
Proof.
  intros w o w' H. apply mkdir_made in H as (d & -> & _).
  repeat split; [simpl; lia|]. exists []. simpl. by rewrite app_nil_r.
Qed.

Lemma safe_on_success {A} (o : option response) (k : response -> M A) :
  (forall j, safe (k j)) -> safe (on_success o k).
Proof.
  intros Hk. unfold on_success. destruct o as [j|]; [|apply safe_raise].
  destruct (success j); [apply Hk | apply safe_raise].
Qed.

End Safe.

Create HintDb safe.
#[global] Hint Resolve safe_ret safe_raise safe_diverge safe_of_result
  safe_sleep safe_send safe_fresh_uuid safe_write_file safe_pd_read_csv
  safe_glob_json safe_path_exists safe_timestamp safe_mkdir : safe.

(** Breaks a computation into its binds and handlers; what is left are the
    calls and the log lines. *)
Ltac safe_steps :=
  repeat match goal with
    | |- safe (bind _ _) => apply safe_bind; [|intros ?]
    | |- safe (try_except _ _) => apply safe_try_except; [|intros ?]
    | |- safe (try_catch _ _ _) => apply safe_try_catch; [|intros ?]
    | |- safe (on_success _ _) => apply safe_on_success; intros ?
    | |- safe (log _) => apply safe_log; exact I
    | |- safe _ => assumption
    | |- safe _ => solve [auto with safe]
    | |- safe (match ?x with _ => _ end) => destruct x
    end.

(** * Remote call gateway: proofs *)

Section Gateway.
Context (cfg : Ren3Config) (endpoint subject : string)
        (upload : list Path) (method : http_method).

Local Abbreviation r := (api_request cfg endpoint subject upload method).
Local Abbreviation loop := (api_call_loop cfg endpoint subject upload method).

Lemma attempt_request_ok w c j :
  service w (sent w) = Reply c (Some j) ->
  attempt_request cfg endpoint subject upload method w
  = (Ret j, advance 1 [EvRequest r] w).
Proof. intros H. unfold attempt_request, bind. by rewrite send_eq, H. Qed.

Lemma attempt_request_fail w :
  is_failure (service w (sent w)) = true ->
  attempt_request cfg endpoint subject upload method w
  = (Raise RequestException, advance 1 [EvRequest r] w).
Proof.
  intros H. unfold attempt_request, bind. rewrite send_eq.
  by destruct (service w (sent w)) as [c [j|]| |partial].
Qed.

(** The loop from attempt [a] on, when the next [K] answers fail and the
    one after them is good. *)
Lemma api_call_loop_success K : forall a n w c j,
  Z.of_nat (a + n) = max_retries cfg ->
  (K < n)%nat ->
  5 * Z.of_nat (a + K) <= sleep_floor ->
  (forall k, (k < K)%nat -> is_failure (service w (sent w + k)) = true) ->
  service w (sent w + K) = Reply c (Some j) ->
  loop (map Z.of_nat (seq a n)) w
  = (Ret (Some j),
     advance (S K)
       (flat_map (failed_attempt r (max_retries cfg)) (seq (S a) K)
        ++ [EvRequest r]) w).
Proof.
  induction K as [|K IH]; intros a n w c j Hmax HK Hwait Hfail Hok;
    (destruct n as [|n]; [lia|]); cbn [seq map]; cbn [api_call_loop];
    unfold try_catch, bind at 1.
  - rewrite Nat.add_0_r in Hok. by rewrite (attempt_request_ok w c j Hok).
  - rewrite attempt_request_fail
      by (rewrite <- (Nat.add_0_r (sent w)); apply Hfail; lia).
    cbn [is_request_exception]. unfold bind at 1. rewrite log_eq.
    destruct (Z.ltb_spec (Z.of_nat a) (max_retries cfg - 1)); [|lia].
    unfold bind at 1. rewrite sleep_eq by lia.
    rewrite !advance_advance.
    rewrite (IH (S a) n _ c j); [| lia | lia | lia | |].
    + rewrite advance_advance. do 2 f_equal.
      cbn [seq flat_map]. unfold failed_attempt.
      rewrite <- !app_assoc. cbn [app].
      replace (Z.of_nat (S a)) with (Z.of_nat a + 1) by lia. reflexivity.
    + intros k Hk. cbn [advance with_sent with_trace service sent].
      match goal with
      | |- context [service w ?x] =>
          replace x with (sent w + S k)%nat by lia
      end.
      apply Hfail. lia.
    + cbn [advance with_sent with_trace service sent].
      match goal with
      | |- context [service w ?x] =>
          replace x with (sent w + S K)%nat by lia
      end.
      exact Hok.
Qed.

(** One failed attempt: the loop goes on after the wait, or raises when
    it was the last one, or when the wait is refused. *)
Lemma api_call_loop_fail attempt rest w :
  is_failure (service w (sent w)) = true ->
  loop (attempt :: rest) w
  = if attempt <? max_retries cfg - 1 then
      match sleep_error w (5 * (attempt + 1)) with
      | Some e =>
          (Raise e,
           advance 1 [EvRequest r;
                      EvLog (ApiCallFailed (attempt + 1) (max_retries cfg))] w)
      | None =>
          loop rest
            (advance 1 [EvRequest r;
                        EvLog (ApiCallFailed (attempt + 1) (max_retries cfg));
                        EvSleep (5 * (attempt + 1))] w)
      end
    else
      (Raise RequestException,
       advance 1 [EvRequest r;
                  EvLog (ApiCallFailed (attempt + 1) (max_retries cfg))] w).
Proof.
  intros Hfail. cbn [api_call_loop].
  unfold try_catch, bind at 1. rewrite attempt_request_fail by done.
  cbn [is_request_exception]. unfold bind at 1. rewrite log_eq.
  rewrite advance_advance.
  destruct (attempt <? max_retries cfg - 1); [|done].
  unfold bind. rewrite sleep_cases, sleep_error_advance by done.
  destruct (sleep_error w (5 * (attempt + 1))); [done|].
  by rewrite advance_advance.
Qed.

(** The loop from attempt [a] on, when it is the last [S n] attempts and
    all of them fail. *)
Lemma api_call_loop_exhausted n : forall a w,
  Z.of_nat (a + S n) = max_retries cfg ->
  5 * Z.of_nat (a + n) <= sleep_floor ->
  (forall k, (k <= n)%nat -> is_failure (service w (sent w + k)) = true) ->
  loop (map Z.of_nat (seq a (S n))) w
  = (Raise RequestException,
     advance (S n)
       (flat_map (failed_attempt r (max_retries cfg)) (seq (S a) n)
        ++ [EvRequest r;
            EvLog (ApiCallFailed (Z.of_nat (a + S n)) (max_retries cfg))]) w).
Proof.
  induction n as [|n IH]; intros a w Hmax Hwait Hfail;
    change (seq a (S ?m)) with (a :: seq (S a) m); cbn [map];
    (rewrite api_call_loop_fail
       by (rewrite <- (Nat.add_0_r (sent w)); apply Hfail; lia)).
  - destruct (Z.ltb_spec (Z.of_nat a) (max_retries cfg - 1)); [lia|].
    cbn [seq flat_map app].
    by replace (Z.of_nat (a + 1)) with (Z.of_nat a + 1) by lia.
  - destruct (Z.ltb_spec (Z.of_nat a) (max_retries cfg - 1)); [|lia].
    rewrite sleep_error_none by lia.
    rewrite (IH (S a)); [| lia | lia |].
    + rewrite advance_advance. do 2 f_equal.
      cbn [seq flat_map]. unfold failed_attempt.
      rewrite <- !app_assoc. cbn [app].
      replace (Z.of_nat (S a)) with (Z.of_nat a + 1) by lia.
      replace (S a + S n)%nat with (a + S (S n))%nat by lia. reflexivity.
    + intros k Hk. cbn [advance with_sent with_trace service sent].
      match goal with
      | |- context [service w ?x] =>
          replace x with (sent w + S k)%nat by lia
      end.
      apply Hfail. lia.
Qed.

(** The loop from attempt [a] on, when the next [S n] answers fail and
    attempts are left after them, and the wait after the last of these
    failures is beyond what [time.sleep] takes: that wait or an earlier one
    is refused, and its error leaves the loop. *)
Lemma api_call_loop_refused n : forall a m w,
  (S n < m)%nat ->
  Z.of_nat (a + m) = max_retries cfg ->
  sleep_ceiling < 5 * Z.of_nat (a + S n) ->
  (forall k, (k <= n)%nat -> is_failure (service w (sent w + k)) = true) ->
  exists e w',
    loop (map Z.of_nat (seq a m)) w = (Raise e, w')
    /\ (e = ValueError \/ e = OverflowError \/ e = OSError)
    /\ (sent w' <= sent w + S n)%nat.
Proof.
  induction n as [|n IH]; intros a m w Hm Hmax Hlong Hfail;
    (destruct m as [|m]; [lia|]); cbn [seq map];
    (rewrite api_call_loop_fail
       by (rewrite <- (Nat.add_0_r (sent w)); apply Hfail; lia));
    (destruct (Z.ltb_spec (Z.of_nat a) (max_retries cfg - 1)); [|lia]).
  - rewrite sleep_error_too_long by lia.
    eexists _, _. split; [reflexivity|]. split; [auto | simpl; lia].
  - destruct (sleep_error w (5 * (Z.of_nat a + 1))) as [e|] eqn:Hwait.
    + apply sleep_error_kinds in Hwait.
      eexists _, _. split; [reflexivity|]. split; [auto | simpl; lia].
    + match goal with
      | |- context [loop _ ?W] =>
          destruct (IH (S a) m W) as (e & w' & Hloop & He & Hsent);
            [lia | lia | lia | |]
      end.
      * intros k Hk. cbn [advance with_sent with_trace service sent].
        match goal with
        | |- context [service w ?x] =>
            replace x with (sent w + S k)%nat by lia
        end.
        apply Hfail. lia.
      * exists e, w'. split; [exact Hloop|]. split; [exact He|].
        cbn [advance with_sent with_trace sent] in Hsent. lia.
Qed.

End Gateway.

(** [_api_call] when the service fails [N] times, attempts are left after
    that, and [5 * N] seconds is more than [time.sleep] takes: the error of
    a refused wait leaves the call, not the one of the last attempt. *)
Lemma api_call_wait_refused cfg endpoint subject upload method w (N : Z) :
  0 < N < max_retries cfg ->
  sleep_ceiling < 5 * N ->
  (forall k, (k < Z.to_nat N)%nat -> is_failure (service w (sent w + k)) = true) ->
  exists e w',
    _api_call cfg endpoint subject upload method w = (Raise e, w')
    /\ (e = ValueError \/ e = OverflowError \/ e = OSError)
    /\ (sent w' <= sent w + Z.to_nat N)%nat.
Proof.
  intros HN Hlong Hfail. unfold _api_call, bind. rewrite range_attempts.
  cbn [of_result ret].
  destruct (api_call_loop_refused cfg endpoint subject upload method
              (Z.to_nat N - 1) 0 (Z.to_nat (max_retries cfg)) w)
    as (e & w' & Hloop & He & Hsent); [lia | lia | lia | |].
  - intros k Hk. apply Hfail. lia.
  - exists e, w'. split; [exact Hloop|]. split; [exact He | lia].
Qed.

Lemma requests_of_retry_trace r max K :
  requests_of (retry_trace r max K) = replicate (S K) r.
Proof.
  unfold retry_trace, requests_of. rewrite omap_app. simpl.
  generalize 1%nat. induction K as [|K IH]; intros a; [done|].
  cbn [seq flat_map]. rewrite omap_app. cbn [failed_attempt omap app].
  simpl. f_equal. apply IH.
Qed.

Lemma sleeps_of_retry_trace r max K :
  sleeps_of (retry_trace r max K) = map (fun k => 5 * Z.of_nat k) (seq 1 K).
Proof.
  unfold retry_trace, sleeps_of. rewrite omap_app. simpl. rewrite app_nil_r.
  generalize 1%nat. induction K as [|K IH]; intros a; [done|].
  cbn [seq flat_map map]. rewrite omap_app. simpl. f_equal. apply IH.
Qed.

Lemma requests_of_exhausted_trace r max n :
  (1 <= n)%nat -> requests_of (exhausted_trace r max n) = replicate n r.
Proof.
  intros Hn. pose proof (requests_of_retry_trace r max (n - 1)) as H.
  unfold retry_trace, exhausted_trace, requests_of in *.
  rewrite omap_app in *. simpl in *. rewrite H.
  destruct n as [|n]; [lia|]. simpl. by rewrite Nat.sub_0_r.
Qed.

(** [K] failures and then a good answer, with [K] below the maximum. *)
Lemma api_call_retries cfg endpoint subject upload method w (K : nat) c j :
  Z.of_nat K < max_retries cfg ->
  5 * Z.of_nat K <= sleep_floor ->
  (forall k, (k < K)%nat -> is_failure (service w (sent w + k)) = true) ->
  service w (sent w + K) = Reply c (Some j) ->
  _api_call cfg endpoint subject upload method w
  = (Ret (Some j),
     advance (S K)
       (retry_trace (api_request cfg endpoint subject upload method)
          (max_retries cfg) K) w).
Proof.
  intros HK Hwait Hfail Hok. unfold _api_call, bind. rewrite range_attempts.
  cbn [of_result ret].
  apply (api_call_loop_success cfg endpoint subject upload method K 0
           (Z.to_nat (max_retries cfg)) w c j); try done; lia.
Qed.

(** C2, as the code has it.  With [max_retries = M], and waits of
    [5 * k] seconds that [time.sleep] takes (any wait up to [sleep_floor]
    is one): when the first [K] answers fail ([K < M]) and the next one is
    good, [_api_call] returns that answer after exactly [K + 1] requests,
    the k-th failure being followed by a wait of [5 * k] seconds; and when
    [M >= 1] and all [M] answers fail it raises after exactly [M]
    requests. *)
Theorem api_call_retry_policy :
  forall (cfg : Ren3Config) (endpoint subject : string) (upload : list Path)
         (method : http_method) (w : World),
    let r := api_request cfg endpoint subject upload method in
    let max := max_retries cfg in
    (forall (K : nat) c j,
        Z.of_nat K < max ->
        5 * Z.of_nat K <= sleep_floor ->
        (forall k, (k < K)%nat -> is_failure (service w (sent w + k)) = true) ->
        service w (sent w + K) = Reply c (Some j) ->
        _api_call cfg endpoint subject upload method w
        = (Ret (Some j), advance (S K) (retry_trace r max K) w)
        /\ requests_of (retry_trace r max K) = replicate (S K) r
        /\ sleeps_of (retry_trace r max K)
           = map (fun k => 5 * Z.of_nat k) (seq 1 K))
    /\ (1 <= max ->
        5 * (max - 1) <= sleep_floor ->
        (forall k, (k < Z.to_nat max)%nat ->
                   is_failure (service w (sent w + k)) = true) ->
        _api_call cfg endpoint subject upload method w
        = (Raise RequestException,
           advance (Z.to_nat max) (exhausted_trace r max (Z.to_nat max)) w)
        /\ requests_of (exhausted_trace r max (Z.to_nat max))
           = replicate (Z.to_nat max) r).
Proof.
  intros cfg endpoint subject upload method w r max. split.
  - intros K c j HK Hwait Hfail Hok. split; [|split].
    + by apply (api_call_retries cfg endpoint subject upload method w K c j).
    + apply requests_of_retry_trace.
    + apply sleeps_of_retry_trace.
  - intros Hmax Hwait Hfail. split.
    + unfold _api_call, bind. rewrite range_attempts. cbn [of_result ret].
      fold max. destruct (Z.to_nat max) as [|n] eqn:Hn; [lia|].
      rewrite (api_call_loop_exhausted cfg endpoint subject upload method n 0 w);
        [| unfold max in *; lia | unfold max in *; lia
         | intros k Hk; apply Hfail; lia].
      unfold exhausted_trace. cbn [Nat.add Nat.sub]. by rewrite Nat.sub_0_r.
    + apply requests_of_exhausted_trace. lia.
Qed.

Lemma api_call_retry_policy_witness :
  (_api_call (config_of 30 15 3) "/agentdrive/run_agent" "uuid-0" [] POST
     (world_of (fails_then 2 (fun _ => ok_reply (RJob "job-1"))) ∅ ∅)
   = (Ret (Some {| success := true; returnObject := RJob "job-1" |}),
      advance 3
        (retry_trace
           (api_request (config_of 30 15 3) "/agentdrive/run_agent" "uuid-0" [] POST)
           3 2)
        (world_of (fails_then 2 (fun _ => ok_reply (RJob "job-1"))) ∅ ∅))
   /\ sleeps_of
        (retry_trace
           (api_request (config_of 30 15 3) "/agentdrive/run_agent" "uuid-0" [] POST)
           3 2)
      = [5; 10])
  /\ _api_call (config_of 30 15 3) "/agentdrive/run_agent" "uuid-0" [] POST
       (world_of service_down ∅ ∅)
     = (Raise RequestException,
        advance 3
          (exhausted_trace
             (api_request (config_of 30 15 3) "/agentdrive/run_agent" "uuid-0" [] POST)
             3 3)
          (world_of service_down ∅ ∅)).
Proof.
  split.
  - destruct (api_call_retry_policy (config_of 30 15 3) "/agentdrive/run_agent"
                "uuid-0" [] POST
                (world_of (fails_then 2 (fun _ => ok_reply (RJob "job-1"))) ∅ ∅))
      as [Hretry _].
    destruct (Hretry 2%nat "{}" {| success := true; returnObject := RJob "job-1" |})
      as (Hcall & _ & Hsleeps).
    + simpl. lia.
    + unfold sleep_floor. lia.
    + intros [|[|k]] Hk; [reflexivity | reflexivity | lia].
    + reflexivity.
    + split; [exact Hcall | exact Hsleeps].
  - destruct (api_call_retry_policy (config_of 30 15 3) "/agentdrive/run_agent"
                "uuid-0" [] POST (world_of service_down ∅ ∅))
      as [_ Hexhaust].
    destruct Hexhaust as [Hcall _];
      [simpl; lia | unfold sleep_floor; simpl; lia | reflexivity |].
    exact Hcall.
Defined.

(** C2 as stated fails for [max_retries = 0]: every attempt fails, since
    none is made, and the call does not raise; it returns [None].  It fails
    as well for a maximum so large that the waits outgrow what [time.sleep]
    takes: with [max_retries = 2000000000] and a service that is down, the
    error of a refused wait leaves the call before the attempts are used
    up. *)
Lemma api_call_zero_retries_returns :
  max_retries (config_of 30 15 0) = 0
  /\ (forall n, is_failure (service (world_of service_down ∅ ∅) n) = true)
  /\ _api_call (config_of 30 15 0) "/agentdrive/run_agent" "uuid-0" [] POST
       (world_of service_down ∅ ∅)
     = (Ret None, world_of service_down ∅ ∅)
  /\ exists e w',
       _api_call (config_of 30 15 2000000000) "/agentdrive/run_agent" "uuid-0"
         [] POST (world_of service_down ∅ ∅) = (Raise e, w')
       /\ e <> RequestException.
Proof.
  split; [done|]. split; [done|]. split; [done|].
  destruct (api_call_wait_refused (config_of 30 15 2000000000)
              "/agentdrive/run_agent" "uuid-0" [] POST
              (world_of service_down ∅ ∅) 1900000000)
    as (e & w' & Hcall & He & _).
  - cbn [max_retries config_of]. lia.
  - unfold sleep_ceiling. lia.
  - done.
  - exists e, w'. split; [exact Hcall|]. by destruct He as [->|[->| ->]].
Qed.

(** * The calls of the pipeline step the world *)

Section SafeCalls.
Context (cfg : Ren3Config).

Lemma safe_attempt_request endpoint subject upload method :
  safe (attempt_request cfg endpoint subject upload method).
Proof. unfold attempt_request. safe_steps. Qed.

Lemma safe_api_call_loop endpoint subject upload method attempts :
  safe (api_call_loop cfg endpoint subject upload method attempts).
Proof.
  induction attempts as [|attempt rest IH]; cbn [api_call_loop]; [safe_steps|].
  pose proof (safe_attempt_request endpoint subject upload method).
  safe_steps; done.
Qed.

Lemma safe_api_call endpoint subject upload method :
  safe (_api_call cfg endpoint subject upload method).
Proof.
  unfold _api_call. apply safe_bind; [auto with safe|].
  intros attempts. apply safe_api_call_loop.
Qed.

Hint Resolve safe_api_call : safe.

Lemma safe_upload_files batch temp : safe (upload_files cfg batch temp).
Proof. unfold upload_files. safe_steps. Qed.

Lemma safe_get_job_input_files temp : safe (get_job_input_files cfg temp).
Proof. unfold get_job_input_files. safe_steps. Qed.

Lemma safe_run_agent input_files temp : safe (run_agent cfg input_files temp).
Proof. unfold run_agent. safe_steps. Qed.

Lemma safe_get_job_details job_id : safe (get_job_details cfg job_id).
Proof. unfold get_job_details. safe_steps. Qed.

Lemma safe_get_output_files folder : safe (get_output_files cfg folder).
Proof. unfold get_output_files. safe_steps. Qed.

Lemma safe_scan_logs logs : forall last, safe (scan_logs logs last).
Proof.
  induction logs as [|entry rest IH]; intros last; cbn [scan_logs];
    safe_steps; try apply IH.
Qed.

Lemma safe_poll_once job_id last : safe (poll_once cfg job_id last).
Proof.
  unfold poll_once. safe_steps; try apply safe_scan_logs.
Qed.

Lemma safe_poll_loop fuel job_id : forall last, safe (poll_loop fuel cfg job_id last).
Proof.
  induction fuel as [|fuel IH]; intros last; cbn [poll_loop]; [safe_steps|].
  pose proof (safe_poll_once job_id last). safe_steps; try apply IH.
Qed.

Lemma safe_poll_job_status fuel job_id : safe (poll_job_status fuel cfg job_id).
Proof. apply safe_poll_loop. Qed.

Lemma safe_download_csv doc_uuid output_path :
  safe (download_csv cfg doc_uuid output_path).
Proof. unfold download_csv. safe_steps. Qed.

End SafeCalls.

Lemma safe_combine_loop csv_files : forall combined, safe (combine_loop csv_files combined).
Proof.
  induction csv_files as [|csv rest IH]; intros combined; cbn [combine_loop];
    safe_steps; try apply IH.
Qed.

Lemma safe_combine_csvs csv_files output_path :
  safe (combine_csvs csv_files output_path).
Proof. unfold combine_csvs. safe_steps; try apply safe_combine_loop. Qed.

Lemma safe_get_json_files promo_folder : safe (get_json_files promo_folder).
Proof. unfold get_json_files. safe_steps. Qed.

#[global] Hint Resolve safe_api_call safe_upload_files safe_get_job_input_files
  safe_run_agent safe_get_job_details safe_get_output_files safe_poll_job_status
  safe_download_csv safe_combine_csvs safe_get_json_files : safe.

(** * Completion detection: proofs *)

Section Completion.

Lemma lower_app (a b : string) : Py.lower (a +:+ b) = Py.lower a +:+ Py.lower b.
Proof.
  induction a as [|c a IH]; [done|].
  rewrite append_cons. simpl. by rewrite IH.
Qed.

Lemma lower_split (s a b : string) :
  Py.lower s = a +:+ b ->
  exists s1 s2, s = s1 +:+ s2 /\ Py.lower s1 = a /\ Py.lower s2 = b.
Proof.
  revert s. induction a as [|c a IH]; intros s H.
  - by exists "", s.
  - destruct s as [|d s]; [done|].
    rewrite append_cons in H. simpl in H. injection H as Hc Hs.
    destruct (IH s Hs) as (s1 & s2 & -> & H1 & H2).
    exists (String d s1), s2. rewrite append_cons. simpl.
    by rewrite Hc, H1.
Qed.

Lemma contains_lower_spec (word text : string) :
  Py.contains word (Py.lower text) = true <-> contains_ignoring_case word text.
Proof.
  rewrite contains_spec. unfold contains_ignoring_case. split.
  - intros (pre & post & H).
    apply lower_split in H as (s1 & s23 & -> & H1 & H23).
    apply lower_split in H23 as (s2 & s3 & -> & H2 & H3).
    by exists s1, s2, s3.
  - intros (pre & mid & post & -> & Hmid).
    exists (Py.lower pre), (Py.lower post).
    by rewrite !lower_app, Hmid.
Qed.

Lemma is_completion_spec (entry : log_entry) :
  is_completion entry = true <-> completion_entry entry.
Proof.
  unfold is_completion, completion_entry, lower_text.
  rewrite andb_true_iff, bool_decide_eq_true, contains_lower_spec.
  split; intros [Htype Htext]; (split; [done|]).
  - destruct (log_text entry) as [text|]; [by exists text|].
    destruct Htext as (pre & mid & post & Hsplit & Hmid). simpl in Hsplit.
    destruct pre; [|done]. destruct mid; [done | done].
  - by destruct Htext as (text & -> & Htext).
Qed.

(** The scan always returns; it returns [True] exactly when some entry
    passes the test; all it does to the world is log. *)
Lemma scan_logs_verdict logs : forall last w,
  exists last' evs,
    scan_logs logs last w
    = (Ret (existsb is_completion logs, last'), advance 0 evs w)
    /\ requests_of evs = [] /\ sleeps_of evs = [].
Proof.
  induction logs as [|entry rest IH]; intros last w; cbn [scan_logs existsb].
  - exists last, []. by rewrite advance_nil.
  - destruct (is_completion entry).
    + exists last, [EvLog AgentCompleted]. done.
    + cbn [orb]. destruct (Py.contains "progress" (lower_text entry)).
      * destruct (decide (log_text entry = last)); [apply IH|].
        unfold bind. rewrite log_eq.
        destruct (IH (log_text entry)
                    (advance 0 [EvLog (Progress (default "" (log_text entry)))] w))
          as (last' & evs & -> & Hr & Hs).
        eexists last', (_ :: evs). rewrite advance_advance. done.
      * apply IH.
Qed.

End Completion.

(** * Polling: proofs *)

Section Polling.
Context (cfg : Ren3Config) (job_id : string).

Local Abbreviation r :=
  (api_request cfg "/agentdrive/get_agentjoblogs" job_id [] POST).
Local Abbreviation fetch :=
  (_api_call cfg "/agentdrive/get_agentjoblogs" job_id [] POST).

(** A good first answer is returned after one request. *)
Lemma api_call_first_ok endpoint subject upload method w c j :
  0 < max_retries cfg ->
  service w (sent w) = Reply c (Some j) ->
  _api_call cfg endpoint subject upload method w
  = (Ret (Some j),
     advance 1 [EvRequest (api_request cfg endpoint subject upload method)] w).
Proof.
  intros Hmax Hok. unfold _api_call, bind. rewrite range_attempts.
  cbn [of_result ret].
  rewrite (api_call_loop_success cfg endpoint subject upload method 0 0
             (Z.to_nat (max_retries cfg)) w c j); try done; try lia.
  by rewrite Nat.add_0_r.
Qed.

(** When the loop returns a document, it is the answer to the last
    request it sent. *)
Lemma api_call_loop_returns endpoint subject upload method attempts :
  forall w j w1,
    api_call_loop cfg endpoint subject upload method attempts w = (Ret (Some j), w1) ->
    exists c, (sent w < sent w1)%nat
              /\ service w (sent w1 - 1) = Reply c (Some j).
Proof.
  induction attempts as [|attempt rest IH]; intros w j w1 H; [done|].
  destruct (is_failure (service w (sent w))) eqn:Hfail.
  - rewrite api_call_loop_fail in H by done.
    destruct (attempt <? max_retries cfg - 1); [|done].
    destruct (sleep_error w (5 * (attempt + 1))); [done|].
    apply IH in H as (c & Hlt & Hc). simpl in Hlt, Hc.
    exists c. split; [lia | done].
  - destruct (service w (sent w)) as [c [j0|]| |partial] eqn:Hans; try done.
    cbn [api_call_loop] in H. unfold try_catch, bind at 1 in H.
    rewrite (attempt_request_ok _ _ _ _ _ _ c j0 Hans) in H.
    injection H as <- <-. exists c. simpl. rewrite Nat.sub_0_r.
    split; [lia | done].
Qed.

Lemma api_call_returns endpoint subject upload method w j w1 :
  _api_call cfg endpoint subject upload method w = (Ret (Some j), w1) ->
  exists c, (sent w < sent w1)%nat
            /\ service w (sent w1 - 1) = Reply c (Some j).
Proof.
  unfold _api_call, bind. rewrite range_attempts. cbn [of_result ret].
  apply api_call_loop_returns.
Qed.

(** With a poll interval that is not negative, a turn of the loop never
    raises. *)
Lemma poll_once_no_raise last w e w' :
  0 <= poll_interval cfg <= sleep_floor -> poll_once cfg job_id last w <> (Raise e, w').
Proof.
  intros Hpi. unfold poll_once, try_except, try_catch.
  match goal with |- context [match ?body w with _ => _ end] =>
    destruct (body w) as [[s|e0|] w1] end; try done.
  unfold bind. rewrite log_eq, sleep_eq by done. done.
Qed.

(** A turn of the loop that ends the polling has just read an answer that
    signals completion. *)
Lemma poll_once_completed last w w' :
  poll_once cfg job_id last w = (Ret Completed, w') ->
  exists n, (sent w <= n < sent w')%nat
            /\ signals_completion (service w n) = true.
Proof.
  unfold poll_once, try_except, try_catch, bind at 1.
  destruct (fetch w) as [[[j|]|e|] w1] eqn:Hfetch.
  - apply api_call_returns in Hfetch as (c & Hlt & Hc).
    destruct (success j) eqn:Hsucc.
    + unfold bind at 1. destruct (logs_of (returnObject j)) as [logs|e] eqn:Hlogs.
      * cbn [of_result ret]. unfold bind at 1.
        destruct (scan_logs_verdict logs last w1) as (last' & evs & -> & _).
        cbn [fst snd]. destruct (existsb is_completion logs) eqn:Hex.
        -- intros [= <-]. exists (sent w1 - 1)%nat. split; [simpl; lia|].
           by rewrite Hc; simpl; rewrite Hsucc, Hlogs.
        -- rewrite wait_then. destruct (sleep_error _ _); [|done].
           rewrite log_wait_then. by destruct (sleep_error _ _).
      * cbn [of_result raise]. rewrite log_wait_then.
        by destruct (sleep_error _ _).
    + rewrite wait_then. destruct (sleep_error _ _); [|done].
      rewrite log_wait_then. by destruct (sleep_error _ _).
  - cbn [raise]. rewrite log_wait_then. by destruct (sleep_error _ _).
  - rewrite log_wait_then. by destruct (sleep_error _ _).
  - done.
Qed.

Lemma sleeps_of_app evs1 evs2 :
  sleeps_of (evs1 ++ evs2) = sleeps_of evs1 ++ sleeps_of evs2.
Proof. apply omap_app. Qed.

Lemma requests_of_app evs1 evs2 :
  requests_of (evs1 ++ evs2) = requests_of evs1 ++ requests_of evs2.
Proof. apply omap_app. Qed.

(** A first answer that signals completion ends the polling after one
    request and no wait. *)
Lemma poll_once_complete last w :
  0 < max_retries cfg ->
  signals_completion (service w (sent w)) = true ->
  exists evs,
    poll_once cfg job_id last w = (Ret Completed, advance 1 evs w)
    /\ requests_of evs = [r] /\ sleeps_of evs = [].
Proof.
  intros Hmax Hsig.
  destruct (service w (sent w)) as [c [j|]| |partial] eqn:Hans; try done.
  simpl in Hsig. apply andb_true_iff in Hsig as [Hsucc Hlogs].
  destruct (logs_of (returnObject j)) as [logs|] eqn:Hl; [|done].
  unfold poll_once, try_except, try_catch, bind at 1.
  rewrite (api_call_first_ok _ _ _ _ w c j Hmax Hans). rewrite Hsucc, Hl.
  cbv [bind of_result ret raise].
  match goal with |- context [scan_logs logs last ?W] =>
    destruct (scan_logs_verdict logs last W) as (last' & evs & -> & Hreq & Hsl)
  end.
  cbn [fst]. rewrite Hlogs. rewrite advance_advance.
  eexists. split; [reflexivity|].
  rewrite requests_of_app, sleeps_of_app, Hreq, Hsl. done.
Qed.

(** A first answer that is a document without the signal makes the loop
    wait once, for the poll interval, and go on. *)
Lemma poll_once_again last w :
  0 < max_retries cfg -> 0 <= poll_interval cfg <= sleep_floor ->
  is_failure (service w (sent w)) = false ->
  signals_completion (service w (sent w)) = false ->
  exists last' evs,
    poll_once cfg job_id last w = (Ret (Again last'), advance 1 evs w)
    /\ requests_of evs = [r] /\ sleeps_of evs = [poll_interval cfg].
Proof.
  intros Hmax Hpi Hfail Hsig.
  destruct (service w (sent w)) as [c [j|]| |partial] eqn:Hans; try done.
  simpl in Hsig.
  unfold poll_once, try_except, try_catch, bind at 1.
  rewrite (api_call_first_ok _ _ _ _ w c j Hmax Hans).
  destruct (success j).
  - destruct (logs_of (returnObject j)) as [logs|e] eqn:Hl.
    + cbv [bind of_result ret raise].
      match goal with |- context [scan_logs logs last ?W] =>
        destruct (scan_logs_verdict logs last W) as (last' & evs & -> & Hreq & Hsl)
      end.
      cbn [fst snd]. simpl in Hsig. rewrite Hsig.
      rewrite sleep_eq by done.
      rewrite !advance_advance. eexists _, _. split; [reflexivity|].
      rewrite !requests_of_app, !sleeps_of_app, Hreq, Hsl. done.
    + cbv [bind of_result ret raise].
      rewrite log_eq, sleep_eq by done.
      rewrite !advance_advance. eexists _, _. split; [reflexivity|]. done.
  - cbv [bind of_result ret raise]. rewrite sleep_eq by done.
    rewrite !advance_advance. eexists _, _. split; [reflexivity|]. done.
Qed.

(** An exception of the fetch is caught: the loop logs it, waits for the
    poll interval and takes its next turn. *)
Lemma poll_loop_fetch_raises fuel last w e w1 :
  0 <= poll_interval cfg <= sleep_floor ->
  fetch w = (Raise e, w1) ->
  poll_loop (S fuel) cfg job_id last w
  = poll_loop fuel cfg job_id last
      (advance 0 [EvLog (PollingError e); EvSleep (poll_interval cfg)] w1).
Proof.
  intros Hpi Hfetch. cbn [poll_loop].
  unfold bind at 1, poll_once, try_except, try_catch, bind at 1.
  rewrite Hfetch. cbv [bind ret raise].
  rewrite log_eq, sleep_eq by done. by rewrite advance_advance.
Qed.

Lemma poll_loop_no_raise fuel : forall last w e w',
  0 <= poll_interval cfg <= sleep_floor ->
  poll_loop fuel cfg job_id last w <> (Raise e, w').
Proof.
  induction fuel as [|fuel IH]; intros last w e w' Hpi; [done|].
  cbn [poll_loop]. unfold bind.
  destruct (poll_once cfg job_id last w) as [[[|last']|e0|] w1] eqn:Honce;
    try done.
  - by apply IH.
  - by apply poll_once_no_raise in Honce.
Qed.

Lemma poll_loop_returns fuel : forall last w b w',
  poll_loop fuel cfg job_id last w = (Ret b, w') ->
  b = true
  /\ exists n, (sent w <= n < sent w')%nat
               /\ signals_completion (service w n) = true.
Proof.
  induction fuel as [|fuel IH]; intros last w b w' H; [done|].
  cbn [poll_loop] in H. unfold bind in H.
  destruct (poll_once cfg job_id last w) as [[[|last']|e0|] w1] eqn:Honce;
    try done.
  - injection H as <- <-. split; [done|]. by apply (poll_once_completed last).
  - apply safe_poll_once in Honce as (Hsvc & _ & Hsent & _).
    apply IH in H as (-> & n & Hn & Hsig). split; [done|].
    exists n. split; [lia|]. by rewrite <- Hsvc.
Qed.

Lemma poll_loop_diverges fuel : forall last w,
  0 <= poll_interval cfg <= sleep_floor ->
  (forall n, (sent w <= n)%nat -> signals_completion (service w n) = false) ->
  (poll_loop fuel cfg job_id last w).1 = Diverge.
Proof.
  induction fuel as [|fuel IH]; intros last w Hpi Hnever; [done|].
  cbn [poll_loop]. unfold bind.
  destruct (poll_once cfg job_id last w) as [[[|last']|e0|] w1] eqn:Honce.
  - apply poll_once_completed in Honce as (n & Hn & Hsig).
    rewrite Hnever in Hsig by lia. done.
  - apply safe_poll_once in Honce as (Hsvc & _ & Hsent & _).
    apply IH; [done|]. intros n Hn. rewrite Hsvc. apply Hnever. lia.
  - by apply poll_once_no_raise in Honce.
  - done.
Qed.

(** Completion that comes with the answer to the (n+1)-th poll is met
    after n waits, whatever n. *)
Lemma poll_loop_late n : forall fuel last w,
  0 < max_retries cfg -> 0 <= poll_interval cfg <= sleep_floor ->
  (forall k, (k < n)%nat ->
     is_failure (service w (sent w + k)) = false
     /\ signals_completion (service w (sent w + k)) = false) ->
  signals_completion (service w (sent w + n)) = true ->
  exists evs,
    poll_loop (S n + fuel) cfg job_id last w = (Ret true, advance (S n) evs w)
    /\ requests_of evs = replicate (S n) r
    /\ sleeps_of evs = replicate n (poll_interval cfg).
Proof.
  induction n as [|n IH]; intros fuel last w Hmax Hpi Hbefore Hsig.
  - rewrite Nat.add_0_r in Hsig.
    destruct (poll_once_complete last w Hmax Hsig) as (evs & Honce & Hreq & Hsl).
    exists evs. cbn [Nat.add poll_loop]. unfold bind. by rewrite Honce.
  - destruct (Hbefore 0%nat ltac:(lia)) as [Hfail Hnot].
    rewrite Nat.add_0_r in Hfail, Hnot.
    destruct (poll_once_again last w Hmax Hpi Hfail Hnot)
      as (last' & evs & Honce & Hreq & Hsl).
    destruct (IH fuel last' (advance 1 evs w) Hmax Hpi) as (evs' & Hloop & Hreq' & Hsl').
    + intros k Hk. simpl.
      replace (S (sent w + k)) with (sent w + S k)%nat by lia.
      apply Hbefore. lia.
    + simpl. by replace (S (sent w + n)) with (sent w + S n)%nat by lia.
    + exists (evs ++ evs').
      change (S (S n) + fuel)%nat with (S (S n + fuel)).
      cbn [poll_loop]. unfold bind at 1. rewrite Honce, Hloop.
      rewrite advance_advance, requests_of_app, sleeps_of_app.
      rewrite Hreq, Hreq', Hsl, Hsl'. done.
Qed.

End Polling.

Lemma existsb_completion (logs : list log_entry) :
  existsb is_completion logs = true
  <-> exists entry, entry ∈ logs /\ completion_entry entry.
Proof.
  rewrite existsb_exists. split; intros (entry & Hin & Hc); exists entry.
  - split; [by apply list_elem_of_In | by apply is_completion_spec].
  - split; [by apply list_elem_of_In | by apply is_completion_spec].
Qed.

(** C4.  The scan of a log list returns [True] from [poll_job_status] if and
    only if the list has an entry whose type is 2 and whose text contains
    "completed", case ignored; and [poll_job_status] returns on the first
    poll exactly when the log list of that answer has such an entry.  The
    entry [{type: 2, text: "Job completed successfully"}] signals
    completion, also in capitals; a list with only [{type: 1, text:
    "progress 10%"}] does not. *)
Theorem completion_detection :
  forall (logs : list log_entry) (last : option string) (w : World),
    (exists verdict last' w',
        scan_logs logs last w = (Ret (verdict, last'), w')
        /\ (verdict = true <-> exists entry, entry ∈ logs /\ completion_entry entry))
    /\ (forall cfg job_id fuel c,
          0 < max_retries cfg ->
          service w (sent w)
          = Reply c (Some {| success := true; returnObject := RLogs logs |}) ->
          (exists w', poll_job_status (S fuel) cfg job_id w = (Ret true, w')
                      /\ sent w' = S (sent w))
          <-> exists entry, entry ∈ logs /\ completion_entry entry)
    /\ (scan_logs [{| log_type := Some 2;
                      log_text := Some "Job completed successfully" |}] last w).1
       = Ret (true, last)
    /\ (scan_logs [{| log_type := Some 2;
                      log_text := Some "JOB COMPLETED" |}] last w).1
       = Ret (true, last)
    /\ (scan_logs [{| log_type := Some 1;
                      log_text := Some "progress 10%" |}] None w).1
       = Ret (false, Some "progress 10%").
Proof.
  intros logs last w. split; [|split; [|done]].
  - destruct (scan_logs_verdict logs last w) as (last' & evs & Hscan & _).
    exists (existsb is_completion logs), last', (advance 0 evs w).
    split; [exact Hscan | apply existsb_completion].
  - intros cfg job_id fuel c Hmax Hans. rewrite <- existsb_completion. split.
    + intros (w' & Hpoll & Hsent).
      apply poll_loop_returns in Hpoll as (_ & n & Hn & Hsig).
      replace n with (sent w) in Hsig by lia.
      by rewrite Hans in Hsig.
    + intros Hex.
      destruct (poll_once_complete cfg job_id None w Hmax) as (evs & Honce & _).
      { by rewrite Hans; simpl. }
      exists (advance 1 evs w). unfold poll_job_status. cbn [poll_loop].
      unfold bind. by rewrite Honce.
Qed.

Lemma completion_detection_witness :
  (exists w',
      poll_job_status 1 (config_of 30 15 3) "job-1"
        (world_of (completes_after 0) ∅ ∅) = (Ret true, w')
      /\ sent w' = 1%nat)
  <-> exists entry,
        entry ∈ [{| log_type := Some 1; log_text := Some "progress 10%" |};
                 {| log_type := Some 2;
                    log_text := Some "Job completed successfully" |}]
        /\ completion_entry entry.
Proof.
  destruct (completion_detection
              [{| log_type := Some 1; log_text := Some "progress 10%" |};
               {| log_type := Some 2;
                  log_text := Some "Job completed successfully" |}]
              None (world_of (completes_after 0) ∅ ∅)) as (_ & Hpoll & _).
  apply (Hpoll (config_of 30 15 3) "job-1" 0%nat "{}"); [simpl; lia | reflexivity].
Defined.

(** C5, as the code has it.  With a poll interval that [time.sleep] takes
    (from 0 to [sleep_floor] seconds), [poll_job_status] never raises; it returns only [True], and only after
    an answer that signals completion; an exception of the fetch is caught,
    logged and followed by a wait of the poll interval and another turn;
    when no answer ever signals completion it does not return, whatever the
    fuel; and completion that comes with the (n+1)-th poll is met after n
    waits of the poll interval, for every n. *)
Theorem poll_job_status_returns_on_completion_only :
  forall (cfg : Ren3Config) (job_id : string) (fuel : nat) (w : World),
    0 <= poll_interval cfg <= sleep_floor ->
    (forall e w', poll_job_status fuel cfg job_id w <> (Raise e, w'))
    /\ (forall b w',
          poll_job_status fuel cfg job_id w = (Ret b, w') ->
          b = true
          /\ exists n, (sent w <= n < sent w')%nat
                       /\ signals_completion (service w n) = true)
    /\ ((forall n, (sent w <= n)%nat -> signals_completion (service w n) = false) ->
        (poll_job_status fuel cfg job_id w).1 = Diverge)
    /\ (forall last e w1,
          _api_call cfg "/agentdrive/get_agentjoblogs" job_id [] POST w
          = (Raise e, w1) ->
          poll_loop (S fuel) cfg job_id last w
          = poll_loop fuel cfg job_id last
              (advance 0 [EvLog (PollingError e); EvSleep (poll_interval cfg)] w1))
    /\ (forall n,
          0 < max_retries cfg ->
          (forall k, (k < n)%nat ->
             is_failure (service w (sent w + k)) = false
             /\ signals_completion (service w (sent w + k)) = false) ->
          signals_completion (service w (sent w + n)) = true ->
          exists evs,
            poll_job_status (S n + fuel) cfg job_id w
            = (Ret true, advance (S n) evs w)
            /\ requests_of evs
               = replicate (S n)
                   (api_request cfg "/agentdrive/get_agentjoblogs" job_id [] POST)
            /\ sleeps_of evs = replicate n (poll_interval cfg)).
Proof.
  intros cfg job_id fuel w Hpi. repeat split.
  - intros e w'. by apply poll_loop_no_raise.
  - by apply poll_loop_returns in H as [-> _].
  - by apply poll_loop_returns in H as [_ H'].
  - intros Hnever. by apply poll_loop_diverges.
  - intros last e w1 Hfetch. by apply poll_loop_fetch_raises.
  - intros n Hmax Hbefore Hsig. by apply poll_loop_late.
Qed.

Lemma poll_job_status_returns_on_completion_only_witness :
  (poll_job_status 7 (config_of 30 15 3) "job-1"
     (world_of never_completes ∅ ∅)).1 = Diverge
  /\ exists evs,
       poll_job_status (3 + 4) (config_of 30 15 3) "job-1"
         (world_of (completes_after 2) ∅ ∅)
       = (Ret true, advance 3 evs (world_of (completes_after 2) ∅ ∅))
       /\ requests_of evs
          = replicate 3
              (api_request (config_of 30 15 3) "/agentdrive/get_agentjoblogs"
                 "job-1" [] POST)
       /\ sleeps_of evs = replicate 2 15.
Proof.
  split.
  - destruct (poll_job_status_returns_on_completion_only (config_of 30 15 3)
                "job-1" 7 (world_of never_completes ∅ ∅))
      as (_ & _ & Hnever & _); [unfold sleep_floor; simpl; lia|].
    apply Hnever. reflexivity.
  - destruct (poll_job_status_returns_on_completion_only (config_of 30 15 3)
                "job-1" 4 (world_of (completes_after 2) ∅ ∅))
      as (_ & _ & _ & _ & Hlate); [unfold sleep_floor; simpl; lia|].
    apply (Hlate 2%nat); [simpl; lia | | reflexivity].
    intros [|[|k]] Hk; [split; reflexivity | split; reflexivity | lia].
Defined.

(** C5 as stated fails for a poll interval that [time.sleep] refuses, a
    negative one or one beyond what a C timestamp holds: the wait after a
    poll without completion raises, the handler's own wait raises again, and
    the error leaves [poll_job_status]. *)
Lemma poll_job_status_raises_on_negative_interval :
  poll_interval (config_of 30 (-1) 3) = -1
  /\ (poll_job_status 2 (config_of 30 (-1) 3) "job-1"
        (world_of never_completes ∅ ∅)).1 = Raise ValueError
  /\ (poll_job_status 2 (config_of 30 (10 ^ 30) 3) "job-1"
        (world_of never_completes ∅ ∅)).1 = Raise OverflowError.
Proof. repeat split; reflexivity. Qed.

(** * Download: proofs *)

Section Download.
Context (cfg : Ren3Config) (doc_uuid : string) (output_path : Path).

Lemma download_csv_fail w :
  service w (sent w) = TransportError ->
  download_csv cfg doc_uuid output_path w
  = (Raise RequestException,
     advance 1 [EvRequest (download_request cfg doc_uuid);
                EvLog (DownloadFailed RequestException)] w).
Proof.
  intros H. unfold download_csv, try_except, try_catch, bind at 1.
  rewrite send_eq, H. unfold raise at 1, bind. rewrite log_eq.
  unfold raise. by rewrite advance_advance.
Qed.

Lemma download_csv_ok w content json :
  service w (sent w) = Reply content json ->
  download_csv cfg doc_uuid output_path w
  = (Ret output_path,
     written output_path (Bytes content)
       (advance 1 [EvRequest (download_request cfg doc_uuid);
                   EvWrite output_path] w)).
Proof.
  intros H. unfold download_csv, try_except, try_catch, bind at 1.
  rewrite send_eq, H. unfold bind. rewrite write_file_eq.
  unfold ret. by rewrite advance_advance.
Qed.

Lemma download_csv_truncated w partial :
  service w (sent w) = Truncated partial ->
  download_csv cfg doc_uuid output_path w
  = (Raise RequestException,
     written output_path (Bytes partial)
       (advance 1 [EvRequest (download_request cfg doc_uuid);
                   EvWrite output_path;
                   EvLog (DownloadFailed RequestException)] w)).
Proof.
  intros H. unfold download_csv, try_except, try_catch, bind at 1.
  rewrite send_eq, H. unfold bind at 1. rewrite write_file_eq.
  unfold raise at 1, bind. rewrite log_eq. unfold raise.
  by rewrite <- !written_advance, !advance_advance.
Qed.

End Download.

(** * Which calls go through the gateway: proofs *)

Section CallSites.
Context (cfg : Ren3Config) (w : World) (K : nat) (c : string) (j : response).
Hypothesis HK : Z.of_nat K < max_retries cfg.
Hypothesis Hwait : 5 * Z.of_nat K <= sleep_floor.
Hypothesis Hfail :
  forall k, (k < K)%nat -> is_failure (service w (sent w + k)) = true.
Hypothesis Hok : service w (sent w + K) = Reply c (Some j).

Lemma on_success_world {A} (k : response -> M A) w1 :
  (forall w2, (k j w2).2 = w2) -> (on_success (Some j) k w1).2 = w1.
Proof.
  intros Hk. unfold on_success. destruct (success j); [apply Hk | done].
Qed.

Lemma of_result_world {A} (x : result A) w1 : (of_result x w1).2 = w1.
Proof. by destruct x. Qed.

Lemma upload_files_retries batch temp :
  (upload_files cfg batch temp w).2
  = advance (S K)
      (retry_trace (api_request cfg "/upload_agenttmpfiles" temp batch POST)
         (max_retries cfg) K) w.
Proof.
  unfold upload_files, bind.
  rewrite (api_call_retries _ _ _ _ _ _ K c j HK Hwait Hfail Hok).
  by apply on_success_world.
Qed.

Lemma get_job_input_files_retries temp :
  (get_job_input_files cfg temp w).2
  = advance (S K)
      (retry_trace (api_request cfg "/agentdrive/get_jobinputfiles" temp [] POST)
         (max_retries cfg) K) w.
Proof.
  unfold get_job_input_files, bind.
  rewrite (api_call_retries _ _ _ _ _ _ K c j HK Hwait Hfail Hok).
  by apply on_success_world.
Qed.

Lemma run_agent_retries input_files temp :
  (run_agent cfg input_files temp w).2
  = advance (S K)
      (retry_trace (api_request cfg "/agentdrive/run_agent" temp [] POST)
         (max_retries cfg) K) w.
Proof.
  unfold run_agent, bind.
  rewrite (api_call_retries _ _ _ _ _ _ K c j HK Hwait Hfail Hok).
  apply on_success_world. intros w2. apply of_result_world.
Qed.

Lemma get_job_details_retries job_id :
  (get_job_details cfg job_id w).2
  = advance (S K)
      (retry_trace (api_request cfg "/agentdrive/get_jobdetails" job_id [] POST)
         (max_retries cfg) K) w.
Proof.
  unfold get_job_details, bind.
  rewrite (api_call_retries _ _ _ _ _ _ K c j HK Hwait Hfail Hok).
  apply on_success_world. intros w2.
  by destruct (output_folder_of (returnObject j)).
Qed.

Lemma get_output_files_retries folder :
  (get_output_files cfg folder w).2
  = advance (S K)
      (retry_trace (api_request cfg "/tensordrive/get_docs" folder [] POST)
         (max_retries cfg) K) w.
Proof.
  unfold get_output_files, bind.
  rewrite (api_call_retries _ _ _ _ _ _ K c j HK Hwait Hfail Hok).
  by apply on_success_world.
Qed.

Lemma poll_once_retries job_id last :
  exists evs,
    (poll_once cfg job_id last w).2
    = advance (S K)
        (retry_trace (api_request cfg "/agentdrive/get_agentjoblogs" job_id [] POST)
           (max_retries cfg) K ++ evs) w
    /\ requests_of evs = [].
Proof.
  unfold poll_once, try_except, try_catch, bind at 1.
  rewrite (api_call_retries _ _ _ _ _ _ K c j HK Hwait Hfail Hok).
  destruct (success j).
  - unfold bind at 1. destruct (logs_of (returnObject j)) as [logs|e].
    + cbn [of_result ret]. unfold bind at 1.
      match goal with |- context [scan_logs logs last ?W] =>
        destruct (scan_logs_verdict logs last W) as (last' & evs & -> & Hreq & _)
      end.
      cbn [fst snd]. destruct (existsb is_completion logs).
      * exists evs. by rewrite advance_more.
      * rewrite wait_then. destruct (sleep_error _ _).
        -- rewrite log_wait_then. destruct (sleep_error _ _);
             cbn [snd]; rewrite !advance_more, <- ?app_assoc;
             (eexists; split; [reflexivity|]);
             by rewrite requests_of_app, Hreq.
        -- cbn [snd]. rewrite !advance_more, <- ?app_assoc.
           eexists. split; [reflexivity|].
           by rewrite requests_of_app, Hreq.
    + cbn [of_result raise]. rewrite log_wait_then.
      destruct (sleep_error _ _); cbn [snd]; rewrite !advance_more; by eexists.
  - rewrite wait_then. destruct (sleep_error _ _).
    + rewrite log_wait_then.
      destruct (sleep_error _ _); cbn [snd]; rewrite !advance_more; by eexists.
    + cbn [snd]. rewrite !advance_more. by eexists.
Qed.

End CallSites.

(** C3, as the code has it.  The download is one request sent on the
    session outside [_api_call]: a timeout of 120 seconds, no wait and no
    second attempt whatever [max_retries] is, and a transport failure raises
    at once.  Every other call of the pipeline (upload, input files, run,
    logs, details, documents) goes through [_api_call] and follows its
    retry policy (with waits that [time.sleep] takes, as any wait up to
    [sleep_floor] is), a multipart upload with a timeout of 300 seconds and
    a JSON call with one of 60. *)
Theorem download_outside_retry_gateway :
  forall (cfg : Ren3Config) (w : World),
    (forall doc_uuid output_path,
        exists o evs w',
          download_csv cfg doc_uuid output_path w = (o, w')
          /\ sent w' = S (sent w)
          /\ trace w' = trace w ++ evs
          /\ requests_of evs = [download_request cfg doc_uuid]
          /\ timeout (download_request cfg doc_uuid) = 120
          /\ sleeps_of evs = []
          /\ (service w (sent w) = TransportError -> o = Raise RequestException))
    /\ (forall (K : nat) c j,
          Z.of_nat K < max_retries cfg ->
          5 * Z.of_nat K <= sleep_floor ->
          (forall k, (k < K)%nat -> is_failure (service w (sent w + k)) = true) ->
          service w (sent w + K) = Reply c (Some j) ->
          let done_by endpoint subject upload :=
            advance (S K)
              (retry_trace (api_request cfg endpoint subject upload POST)
                 (max_retries cfg) K) w in
          (forall batch temp,
              (upload_files cfg batch temp w).2
              = done_by "/upload_agenttmpfiles" temp batch)
          /\ (forall temp,
                (get_job_input_files cfg temp w).2
                = done_by "/agentdrive/get_jobinputfiles" temp [])
          /\ (forall input_files temp,
                (run_agent cfg input_files temp w).2
                = done_by "/agentdrive/run_agent" temp [])
          /\ (forall job_id,
                (get_job_details cfg job_id w).2
                = done_by "/agentdrive/get_jobdetails" job_id [])
          /\ (forall folder,
                (get_output_files cfg folder w).2
                = done_by "/tensordrive/get_docs" folder [])
          /\ (forall job_id last,
                exists evs,
                  (poll_once cfg job_id last w).2
                  = advance (S K)
                      (retry_trace
                         (api_request cfg "/agentdrive/get_agentjoblogs" job_id [] POST)
                         (max_retries cfg) K ++ evs) w
                  /\ requests_of evs = []))
    /\ (forall endpoint subject f fs method,
          timeout (api_request cfg endpoint subject (f :: fs) method) = 300)
    /\ (forall endpoint subject method,
          timeout (api_request cfg endpoint subject [] method) = 60).
Proof.
  intros cfg w. split; [|split; [|split; [done | by intros ? ? []]]].
  - intros doc_uuid output_path.
    destruct (service w (sent w)) as [content json| |partial] eqn:Hans.
    + eexists _, [EvRequest (download_request cfg doc_uuid); EvWrite output_path], _.
      split; [by apply (download_csv_ok cfg doc_uuid output_path w content json)|].
      done.
    + eexists _, [EvRequest (download_request cfg doc_uuid);
                  EvLog (DownloadFailed RequestException)], _.
      split; [by apply download_csv_fail|]. done.
    + eexists _, [EvRequest (download_request cfg doc_uuid); EvWrite output_path;
                  EvLog (DownloadFailed RequestException)], _.
      split; [by apply download_csv_truncated|]. done.
  - intros K c j HK Hwait Hfail Hok done_by. repeat split; intros.
    + by apply (upload_files_retries cfg w K c j).
    + by apply (get_job_input_files_retries cfg w K c j).
    + by apply (run_agent_retries cfg w K c j).
    + by apply (get_job_details_retries cfg w K c j).
    + by apply (get_output_files_retries cfg w K c j).
    + by apply (poll_once_retries cfg w K c j).
Qed.

Lemma download_outside_retry_gateway_witness :
  (run_agent (config_of 30 15 3) (RFiles []) "uuid-0"
     (world_of (fails_then 1 (fun _ => ok_reply (RJob "job-1"))) ∅ ∅)).2
  = advance 2
      (retry_trace
         (api_request (config_of 30 15 3) "/agentdrive/run_agent" "uuid-0" [] POST)
         3 1)
      (world_of (fails_then 1 (fun _ => ok_reply (RJob "job-1"))) ∅ ∅).
Proof.
  destruct (download_outside_retry_gateway (config_of 30 15 3)
              (world_of (fails_then 1 (fun _ => ok_reply (RJob "job-1"))) ∅ ∅))
    as (_ & Hcalls & _).
  destruct (Hcalls 1%nat "{}" {| success := true; returnObject := RJob "job-1" |})
    as (_ & _ & Hrun & _).
  - simpl. lia.
  - unfold sleep_floor. lia.
  - intros [|k] Hk; [reflexivity | lia].
  - reflexivity.
  - apply Hrun.
Defined.

(** [run_agent] does not get past a wait that is refused. *)
Lemma run_agent_stops_at_refused_wait cfg input_files temp w (N : Z) evs :
  0 < N < max_retries cfg ->
  sleep_ceiling < 5 * N ->
  (forall k, (k < Z.to_nat N)%nat -> is_failure (service w (sent w + k)) = true) ->
  (run_agent cfg input_files temp w).2 <> advance (S (Z.to_nat N)) evs w.
Proof.
  intros HN Hlong Hfail Heq.
  destruct (api_call_wait_refused cfg "/agentdrive/run_agent" temp [] POST w N)
    as (e & w' & Hcall & _ & Hsent); [done | done | done |].
  unfold run_agent in Heq. unfold bind at 1 in Heq. rewrite Hcall in Heq.
  cbn [snd] in Heq. rewrite Heq in Hsent.
  cbn [sent advance with_sent with_trace] in Hsent. lia.
Qed.

(** C3 as stated fails: with [max_retries = 3], a download whose first
    request meets a transport failure raises after that single request,
    although the next answer of the service would have been good.  And the
    other calls follow the retry policy only as far as [time.sleep] takes
    the waits: with [max_retries = 2000000000] and a service that is down
    for 1900000000 requests and good from then on, [run_agent] does not get
    to the good answer. *)
Lemma download_not_retried :
  max_retries (config_of 30 15 3) = 3
  /\ service (world_of (fails_then 1 (fun _ => Reply "a,b" None)) ∅ ∅) 0
     = TransportError
  /\ service (world_of (fails_then 1 (fun _ => Reply "a,b" None)) ∅ ∅) 1
     = Reply "a,b" None
  /\ download_csv (config_of 30 15 3) "doc-1" ["processed"; "promo_1"; "batch_001.csv"]
       (world_of (fails_then 1 (fun _ => Reply "a,b" None)) ∅ ∅)
     = (Raise RequestException,
        advance 1
          [EvRequest (download_request (config_of 30 15 3) "doc-1");
           EvLog (DownloadFailed RequestException)]
          (world_of (fails_then 1 (fun _ => Reply "a,b" None)) ∅ ∅))
  /\ (let K := Z.to_nat 1900000000 in
      let cfg := config_of 30 15 2000000000 in
      let w := world_of (fails_long 1900000000 (ok_reply (RJob "job-1"))) ∅ ∅ in
      Z.of_nat K < max_retries cfg
      /\ (forall k, (k < K)%nat -> is_failure (service w (sent w + k)) = true)
      /\ service w (sent w + K) = ok_reply (RJob "job-1")
      /\ (run_agent cfg (RFiles []) "uuid-0" w).2
         <> advance (S K)
              (retry_trace (api_request cfg "/agentdrive/run_agent" "uuid-0" [] POST)
                 (max_retries cfg) K) w).
Proof.
  do 3 (split; [reflexivity|]). split; [reflexivity|].
  intros K cfg w.
  assert (Hfail : forall k, (k < K)%nat ->
                            is_failure (service w (sent w + k)) = true).
  { intros k Hk. subst w. cbn [service sent world_of Nat.add]. unfold fails_long.
    destruct (Z.ltb_spec (Z.of_nat k) 1900000000); [done|]. subst K. lia. }
  split; [subst K cfg; cbn [max_retries config_of]; lia|].
  split; [exact Hfail|]. split.
  - subst w. cbn [service sent world_of Nat.add]. unfold fails_long.
    destruct (Z.ltb_spec (Z.of_nat K) 1900000000); [subst K; lia | done].
  - apply (run_agent_stops_at_refused_wait cfg (RFiles []) "uuid-0" w 1900000000).
    + subst cfg. cbn [max_retries config_of]. lia.
    + unfold sleep_ceiling. lia.
    + exact Hfail.
Qed.

(** * Merger: proofs *)

Section Merger.

Lemma rows_fold_concat (dfs : list DataFrame) : forall combined,
  rows (fold_left pd_concat dfs combined)
  = rows combined ++ concat (map rows dfs).
Proof.
  induction dfs as [|df dfs IH]; intros combined; simpl.
  - by rewrite app_nil_r.
  - rewrite IH. simpl. by rewrite <- app_assoc.
Qed.

Lemma readable_advance n evs w csv : readable (advance n evs w) csv = readable w csv.
Proof. reflexivity. Qed.

Lemma omap_all_none {A B} (f : A -> option B) (l : list A) :
  (forall x, x ∈ l -> f x = None) -> omap f l = [].
Proof.
  induction l as [|x l IH]; intros H; [done|].
  change (omap f (x :: l))
    with (match f x with Some y => y :: omap f l | None => omap f l end).
  rewrite H by (by left). apply IH. intros y Hy. apply H. by right.
Qed.

Lemma pd_read_csv_spec csv w :
  (exists df, readable w csv = Some df /\ pd_read_csv csv w = (Ret df, w))
  \/ (readable w csv = None /\ exists e, pd_read_csv csv w = (Raise e, w)).
Proof.
  unfold readable, pd_read_csv.
  destruct (files w !! csv) as [[content|table]|].
  - destruct (read_csv w content) as [df|e]; [left | right]; eauto.
  - right. eauto.
  - right. eauto.
Qed.

(** The loop of the merger: it always returns, with the tables of the
    readable files added in order; a file that cannot be read leaves a
    line in the log and nothing else. *)
Lemma combine_loop_spec (csv_files : list Path) : forall combined w,
  exists evs,
    combine_loop csv_files combined w
    = (Ret (fold_left pd_concat (omap (readable w) csv_files) combined),
       advance 0 evs w)
    /\ requests_of evs = []
    /\ forall csv, csv ∈ csv_files -> readable w csv = None ->
                   exists e, EvLog (ReadFailed csv e) ∈ evs.
Proof.
  induction csv_files as [|csv rest IH]; intros combined w.
  - exists []. rewrite advance_nil. repeat split. intros csv Hin.
    by apply elem_of_nil in Hin.
  - change (omap (readable w) (csv :: rest))
      with (match readable w csv with
            | Some df => df :: omap (readable w) rest
            | None => omap (readable w) rest
            end).
    cbn [combine_loop]. unfold bind at 1, try_except, try_catch, bind at 1.
    destruct (pd_read_csv_spec csv w) as [(df & Hdf & ->) | (Hnone & e & ->)].
    + rewrite Hdf. cbv [ret bind]. rewrite log_eq.
      destruct (IH (pd_concat combined df)
                  (advance 0 [EvLog (AddedRows (length (rows df)) csv)] w))
        as (evs & -> & Hreq & Hlogged).
      eexists (_ :: evs). rewrite advance_more. split; [reflexivity|].
      split; [done|]. intros csv' Hin Hnone.
      apply elem_of_cons in Hin as [->|Hin]; [congruence|].
      destruct (Hlogged csv' Hin Hnone) as [e He]. exists e. by right.
    + rewrite Hnone. cbv [ret bind]. rewrite log_eq.
      destruct (IH combined (advance 0 [EvLog (ReadFailed csv e)] w))
        as (evs & -> & Hreq & Hlogged).
      eexists (_ :: evs). rewrite advance_more. split; [reflexivity|].
      split; [done|]. intros csv' Hin Hnone'.
      apply elem_of_cons in Hin as [->|Hin].
      * exists e. by left.
      * destruct (Hlogged csv' Hin Hnone') as [e' He]. exists e'. by right.
Qed.

(** [combine_csvs], in full. *)
Lemma combine_csvs_spec csv_files output_path w :
  exists evs,
    combine_csvs csv_files output_path w
    = (Ret output_path,
       written output_path
         (Workbook (fold_left pd_concat (omap (readable w) csv_files)
                      empty_frame))
         (advance 0 (evs ++ [EvWrite output_path]) w))
    /\ Forall within_batch evs
    /\ forall csv, csv ∈ csv_files -> readable w csv = None ->
                   exists e, EvLog (ReadFailed csv e) ∈ evs.
Proof.
  destruct (combine_loop_spec csv_files empty_frame w) as (evs & Hloop & _ & Hlogged).
  exists evs. split; [|split; [|done]].
  - unfold combine_csvs, bind. rewrite Hloop, write_file_eq.
    unfold ret. by rewrite advance_more.
  - apply safe_combine_loop in Hloop as (_ & _ & _ & evs' & Ht & Hq).
    simpl in Ht. by apply app_inv_head in Ht as ->.
Qed.

End Merger.

(** C9.  [combine_csvs] never raises.  Whatever the files, it writes the
    workbook and returns its path; the rows of the workbook are the rows of
    the files that can be read, in the order of the files; a file that
    cannot be read is logged and skipped; when no file can be read the
    workbook is the empty table. *)
Theorem combine_csvs_skips_unreadable :
  forall (csv_files : list Path) (output_path : Path) (w : World),
  exists table evs,
    combine_csvs csv_files output_path w
    = (Ret output_path,
       written output_path (Workbook table)
         (advance 0 (evs ++ [EvWrite output_path]) w))
    /\ rows table = readable_rows w csv_files
    /\ (forall csv, csv ∈ csv_files -> readable w csv = None ->
                    exists e, EvLog (ReadFailed csv e) ∈ evs)
    /\ ((forall csv, csv ∈ csv_files -> readable w csv = None) ->
        table = empty_frame).
Proof.
  intros csv_files output_path w.
  destruct (combine_csvs_spec csv_files output_path w) as (evs & Hrun & _ & Hlogged).
  exists (fold_left pd_concat (omap (readable w) csv_files) empty_frame), evs.
  split; [|split; [|split]].
  - exact Hrun.
  - by rewrite rows_fold_concat.
  - exact Hlogged.
  - intros Hnone. by rewrite omap_all_none.
Qed.

Lemma combine_csvs_skips_unreadable_witness :
  exists table,
    (combine_csvs [["processed"; "promo_1"; "batch_001.csv"];
                   ["processed"; "promo_1"; "batch_002.csv"]]
       ["processed"; "promo_1"; "final.xlsx"]
       (world_of service_down ∅
          {[ ["processed"; "promo_1"; "batch_001.csv"] := Bytes "" ]})).1
    = Ret ["processed"; "promo_1"; "final.xlsx"]
    /\ table = empty_frame.
Proof.
  destruct (combine_csvs_skips_unreadable
              [["processed"; "promo_1"; "batch_001.csv"];
               ["processed"; "promo_1"; "batch_002.csv"]]
              ["processed"; "promo_1"; "final.xlsx"]
              (world_of service_down ∅
                 {[ ["processed"; "promo_1"; "batch_001.csv"] := Bytes "" ]}))
    as (table & evs & Hrun & _ & _ & Hempty).
  exists table. split; [by rewrite Hrun|].
  apply Hempty. intros csv Hin.
  apply elem_of_cons in Hin as [->|Hin]; [reflexivity|].
  apply list_elem_of_singleton in Hin as ->. reflexivity.
Defined.

(** * The batches of a run: proofs *)

Section Batches_of_run.

Lemma not_completed_quiet evs : Forall within_batch evs -> ~ completed evs.
Proof.
  intros Hq [k Hk]. by apply (proj1 (Forall_forall _ _) Hq) in Hk.
Qed.

Lemma banners_of_quiet evs : Forall within_batch evs -> banners_of evs = [].
Proof.
  induction 1 as [|e evs He _ IH]; [done|].
  destruct e as [| |[]|]; done.
Qed.

Lemma banners_of_app evs1 evs2 :
  banners_of (evs1 ++ evs2) = banners_of evs1 ++ banners_of evs2.
Proof. apply omap_app. Qed.

Lemma completed_app evs1 evs2 :
  completed (evs1 ++ evs2) <-> completed evs1 \/ completed evs2.
Proof.
  unfold completed. split.
  - intros [k Hk]. apply elem_of_app in Hk as [Hk|Hk]; [left | right]; by exists k.
  - intros [[k Hk]|[k Hk]]; exists k; apply elem_of_app; [by left | by right].
Qed.

Lemma banner_elem k total evs :
  EvLog (BatchBanner k total) ∈ evs <-> (k, total) ∈ banners_of evs.
Proof.
  unfold banners_of. rewrite list_elem_of_omap. split.
  - intros H. by exists (EvLog (BatchBanner k total)).
  - intros (e & He & Hk). destruct e as [| |[]|]; try done.
    by injection Hk as -> ->.
Qed.

Lemma safe_trace {A} (m : M A) w o w' :
  safe m -> m w = (o, w') ->
  exists evs, trace w' = trace w ++ evs /\ Forall within_batch evs.
Proof. intros Hm H. by apply Hm in H as (_ & _ & _ & Hevs). Qed.

(** The pause between two batches is a wait that [time.sleep] takes. *)
Lemma pause_between_batches (n total : Z) w :
  exists sl,
    (if n <? total then sleep 5 else ret tt) w = (Ret tt, advance 0 sl w)
    /\ Forall within_batch sl.
Proof.
  destruct (n <? total).
  - exists [EvSleep 5].
    split; [apply sleep_eq; unfold sleep_floor; lia | by repeat constructor].
  - exists []. by rewrite advance_nil.
Qed.

Lemma ends_batch_bind {A} n (m : M A) (k : A -> M (option Path)) :
  safe m -> (forall a, ends_batch n (k a)) -> ends_batch n (bind m k).
Proof.
  intros Hm Hk w o w' H. unfold bind in H.
  destruct (m w) as [[a|e|] w1] eqn:Hmw.
  - destruct (safe_trace m w _ w1 Hm Hmw) as (evs1 & Ht1 & Hq1).
    destruct (Hk a w1 o w' H) as (evs2 & Ht2 & Hend).
    exists (evs1 ++ evs2). split; [by rewrite Ht2, Ht1, app_assoc|].
    destruct o as [[p|]|e|]; try by apply Forall_app.
    destruct Hend as (evs0 & -> & Hq0).
    exists (evs1 ++ evs0). split; [by rewrite app_assoc | by apply Forall_app].
  - injection H as <- <-. by eapply safe_trace.
  - injection H as <- <-. by eapply safe_trace.
Qed.

Lemma ends_batch_completed n p :
  ends_batch n (bind (log (BatchCompleted n)) (fun _ => ret (Some p))).
Proof.
  intros w o w' [= <- <-]. exists [EvLog (BatchCompleted n)].
  split; [done|]. by exists [].
Qed.

Lemma ends_batch_none n (m : M unit) :
  safe m -> ends_batch n (bind m (fun _ => ret None)).
Proof.
  intros Hm w o w' H. unfold bind in H.
  destruct (m w) as [[a|e|] w1] eqn:Hmw; injection H as <- <-;
    by eapply safe_trace.
Qed.

Lemma ends_batch_process_batch fuel cfg processed_dir n batch :
  ends_batch n (process_batch fuel cfg processed_dir n batch).
Proof.
  unfold process_batch.
  repeat (apply ends_batch_bind; [solve [auto with safe] | intros ?]).
  match goal with |- ends_batch _ (match ?x with _ => _ end) => destruct x end.
  - apply ends_batch_bind; [auto with safe | intros _].
    apply ends_batch_completed.
  - apply ends_batch_none. apply safe_log. exact I.
Qed.

Lemma banners_shift (n total : Z) (len : nat) :
  (n, total) :: map (fun i : nat => (n + 1 + Z.of_nat i, total)) (seq 0 len)
  = map (fun i : nat => (n + Z.of_nat i, total)) (seq 0 (S len)).
Proof.
  cbn [seq map]. rewrite Z.add_0_r. f_equal.
  rewrite <- seq_shift, map_map. apply map_ext. intros i. f_equal. lia.
Qed.

(** The loop over the batches never raises; when it returns, it has
    started every batch in order, and it has added a path exactly when
    some batch was completed. *)
Lemma batch_loop_spec fuel cfg processed_dir total batches :
  forall n csv_files w o w',
    batch_loop fuel cfg processed_dir total n batches csv_files w = (o, w') ->
    exists evs,
      trace w' = trace w ++ evs
      /\ (forall e, o <> Raise e)
      /\ forall csv_files',
           o = Ret csv_files' ->
           exists added,
             csv_files' = csv_files ++ added
             /\ (added <> [] <-> completed evs)
             /\ banners_of evs
                = map (fun i : nat => (n + Z.of_nat i, total))
                      (seq 0 (length batches)).
Proof.
  induction batches as [|batch rest IH]; intros n csvs w o w' H.
  - injection H as <- <-. exists []. rewrite app_nil_r.
    split; [done|]. split; [done|]. intros ? [= <-]. exists [].
    rewrite app_nil_r. repeat split; try done. by intros [k Hk%elem_of_nil].
  - cbn [batch_loop] in H. unfold bind at 1 in H. rewrite log_eq in H.
    unfold bind at 1, try_except, try_catch, bind at 1 in H.
    destruct (process_batch fuel cfg processed_dir n batch
                (advance 0 [EvLog (BatchBanner n total)] w))
      as [[[p|]|e|] w1] eqn:Hpb;
      apply ends_batch_process_batch in Hpb as (evs1 & Ht1 & Hend);
      cbn [advance with_sent with_trace trace] in Ht1.
    + destruct Hend as (evs0 & -> & Hq0). cbn [ret] in H.
      unfold bind at 1 in H.
      destruct (pause_between_batches n total w1) as (sl & Hsl & Hqs).
      rewrite Hsl in H.
      apply IH in H as (evs2 & Ht3 & Hnr & Hret).
      cbn [advance with_sent with_trace trace] in Ht3.
      exists ([EvLog (BatchBanner n total)]
              ++ (evs0 ++ [EvLog (BatchCompleted n)]) ++ sl ++ evs2).
      split; [by rewrite Ht3, Ht1, <- !app_assoc|].
      split; [done|]. intros csvs' ->.
      destruct (Hret _ eq_refl) as (added & -> & _ & Hb).
      exists (p :: added). split; [by rewrite <- app_assoc|]. split.
      * split; [intros _ | done]. exists n.
        rewrite !elem_of_app, !list_elem_of_singleton. right. left. right. done.
      * rewrite !banners_of_app, (banners_of_quiet evs0), (banners_of_quiet sl), Hb
          by done.
        apply banners_shift.
    + cbn [ret] in H.
      apply IH in H as (evs2 & Ht3 & Hnr & Hret).
      exists ([EvLog (BatchBanner n total)] ++ evs1 ++ evs2).
      split; [by rewrite Ht3, Ht1, <- !app_assoc|].
      split; [done|]. intros csvs' ->.
      destruct (Hret _ eq_refl) as (added & -> & Hc & Hb).
      exists added. split; [done|]. split.
      * rewrite Hc, !completed_app. split; [auto|].
        intros [[k Hk]|[Hc1|Hc2]]; [| by apply not_completed_quiet in Hc1 | done].
        by apply list_elem_of_singleton in Hk.
      * rewrite !banners_of_app, (banners_of_quiet evs1), Hb by done.
        apply banners_shift.
    + cbv [bind ret] in H. rewrite log_eq in H.
      apply IH in H as (evs2 & Ht3 & Hnr & Hret).
      cbn [advance with_sent with_trace trace] in Ht3.
      exists ([EvLog (BatchBanner n total)] ++ evs1
              ++ [EvLog (BatchFailed n e)] ++ evs2).
      split; [by rewrite Ht3, Ht1, <- !app_assoc|].
      split; [done|]. intros csvs' ->.
      destruct (Hret _ eq_refl) as (added & -> & Hc & Hb).
      exists added. split; [done|]. split.
      * rewrite Hc, !completed_app. split; [auto|].
        intros [[k Hk]|[Hc1|[[k Hk]|Hc2]]];
          [| by apply not_completed_quiet in Hc1 | | done].
        -- by apply list_elem_of_singleton in Hk.
        -- by apply list_elem_of_singleton in Hk.
      * rewrite !banners_of_app, (banners_of_quiet evs1), Hb by done.
        apply banners_shift.
    + injection H as <- <-.
      exists ([EvLog (BatchBanner n total)] ++ evs1).
      split; [by rewrite Ht1, <- !app_assoc|]. split; done.
Qed.

End Batches_of_run.

(** * The run: proofs *)

Section Run.

Lemma all_started_quiet evs : Forall within_batch evs -> all_started evs.
Proof.
  intros Hq k total Hk. by apply (proj1 (Forall_forall _ _) Hq) in Hk.
Qed.

Lemma all_started_of_banners evs (len : nat) :
  banners_of evs
  = map (fun i : nat => (1 + Z.of_nat i, Z.of_nat len)) (seq 0 len) ->
  all_started evs.
Proof.
  intros Hb k total Hk i Hi. apply banner_elem in Hk. apply banner_elem.
  rewrite Hb in *. apply list_elem_of_fmap in Hk as (x & [= -> ->] & _).
  apply list_elem_of_fmap. exists (Z.to_nat (i - 1)). split.
  - f_equal. lia.
  - apply elem_of_seq. lia.
Qed.

Lemma folder_body_spec fuel cfg promo_folder processed_dir w o w' :
  (json_files <- get_json_files promo_folder ;;
   match json_files with
   | [] => log NoJsonFiles ;;; ret None
   | _ :: _ =>
       batches <- of_result (create_batches (batch_size cfg) json_files) ;;
       csv_files <- batch_loop fuel cfg processed_dir
                      (Z.of_nat (length batches)) 1 batches [] ;;
       match csv_files with
       | _ :: _ =>
           stamp <- timestamp ;;
           let final_excel :=
             path_join processed_dir
               ("final_analysis_" +:+ stamp +:+ ".xlsx") in
           _ <- combine_csvs csv_files final_excel ;;
           ret (Some final_excel)
       | [] => log NoBatchSucceeded ;;; ret None
       end
   end) w = (o, w') ->
  exists evs, trace w' = trace w ++ evs /\ run_summary w' o evs.
Proof.
  unfold bind at 1. rewrite get_json_files_eq.
  destruct (merge_sort path_le _) as [|f fs].
  - intros [= <- <-]. exists [EvLog NoJsonFiles]. split; [done|].
    split; [apply not_completed_quiet | apply all_started_quiet];
      by repeat constructor.
  - unfold bind at 1.
    destruct (create_batches (batch_size cfg) (f :: fs)) as [batches|e].
    + cbn [of_result ret]. unfold bind at 1.
      destruct (batch_loop fuel cfg processed_dir (Z.of_nat (length batches)) 1
                  batches [] w) as [[csvs|e|] w1] eqn:Hloop;
        apply batch_loop_spec in Hloop as (evs1 & Ht1 & Hnr & Hret).
      * destruct (Hret _ eq_refl) as (added & -> & Hc & Hb).
        apply all_started_of_banners in Hb. cbn [app].
        destruct added as [|csv added].
        -- intros [= <- <-]. exists (evs1 ++ [EvLog NoBatchSucceeded]).
           split; [by cbn [advance written with_dirs with_sent with_trace with_files trace]; rewrite Ht1, app_assoc|]. split.
           ++ rewrite completed_app. intros [Hc1 | [k Hk]].
              ** by apply Hc in Hc1.
              ** by apply list_elem_of_singleton in Hk.
           ++ intros k total Hk i Hi. apply elem_of_app. left.
              apply elem_of_app in Hk as [Hk|Hk];
                [by eapply Hb | by apply list_elem_of_singleton in Hk].
        -- cbv [bind timestamp].
           match goal with |- context [combine_csvs ?l ?out w1] =>
             destruct (combine_csvs_spec l out w1) as (evs2 & -> & Hq2 & _)
           end.
           intros [= <- <-]. eexists (evs1 ++ evs2 ++ [EvWrite _]).
           split; [by cbn [advance written with_dirs with_sent with_trace with_files trace]; rewrite Ht1, <- app_assoc|].
           split; [|split].
           ++ apply completed_app. left. by apply Hc.
           ++ intros k total Hk i Hi. apply elem_of_app. left.
              apply elem_of_app in Hk as [Hk|Hk]; [by eapply Hb|].
              apply elem_of_app in Hk as [Hk|Hk];
                [by apply (proj1 (Forall_forall _ _) Hq2) in Hk
                | by apply list_elem_of_singleton in Hk].
           ++ eexists. split; [|cbn [files written with_dirs with_files]; apply lookup_insert_eq].
              rewrite !elem_of_app, list_elem_of_singleton. auto.
      * by destruct (Hnr e).
      * intros [= <- <-]. exists evs1. split; done.
    + intros [= <- <-]. exists []. rewrite app_nil_r. split; [done | constructor].
Qed.

Lemma run_summary_app w' o evs0 evs :
  Forall within_batch evs0 -> run_summary w' o evs -> run_summary w' o (evs0 ++ evs).
Proof.
  intros Hq. destruct o as [[out|]|e|]; cbn [run_summary]; [| | |done].
  - intros (Hc & Ha & table & Hw & Hf). split; [|split].
    + apply completed_app. by right.
    + intros k total Hk i Hi. apply elem_of_app. right.
      apply elem_of_app in Hk as [Hk|Hk]; [|by eapply Ha].
      by apply (proj1 (Forall_forall _ _) Hq) in Hk.
    + exists table. split; [|done]. apply elem_of_app. by right.
  - intros (Hc & Ha). split.
    + rewrite completed_app. intros [Hc0|Hc1]; [|done].
      by apply not_completed_quiet in Hc0.
    + intros k total Hk i Hi. apply elem_of_app. right.
      apply elem_of_app in Hk as [Hk|Hk]; [|by eapply Ha].
      by apply (proj1 (Forall_forall _ _) Hq) in Hk.
  - intros Hq1. by apply Forall_app.
Qed.

Lemma process_promo_folder_spec fuel cfg path w o w' :
  process_promo_folder fuel cfg path w = (o, w') ->
  exists evs, trace w' = trace w ++ evs /\ run_summary w' o evs.
Proof.
  unfold process_promo_folder, bind at 1, path_exists.
  destruct (bool_decide _ || bool_decide _); cbn [negb].
  - unfold bind at 1.
    destruct (mkdir _ w) as [[[]|e|] w0] eqn:Hmk;
      apply safe_mkdir in Hmk as (_ & _ & _ & evs0 & Ht0 & Hq0).
    + unfold try_except, try_catch.
      match goal with |- context [match ?body w0 with _ => _ end] =>
        destruct (body w0) as [[r|e|] w1] eqn:Hbody
      end; apply folder_body_spec in Hbody as (evs1 & Ht1 & Hsum).
      * intros [= <- <-]. exists (evs0 ++ evs1).
        split; [by rewrite Ht1, Ht0, app_assoc | by apply run_summary_app].
      * intros [= <- <-]. exists (evs0 ++ evs1 ++ [EvLog (ProcessingFailed e)]).
        split; [by cbn [advance written with_dirs with_sent with_trace with_files trace]; rewrite Ht1, Ht0, <- !app_assoc|].
        assert (Forall within_batch (evs0 ++ evs1 ++ [EvLog (ProcessingFailed e)])).
        { apply Forall_app. split; [done|]. apply Forall_app. split; [|by repeat constructor].
          exact Hsum. }
        split; [by apply not_completed_quiet | by apply all_started_quiet].
      * intros [= <- <-]. exists (evs0 ++ evs1).
        split; [by rewrite Ht1, Ht0, app_assoc | done].
    + intros [= <- <-]. by exists evs0.
    + intros [= <- <-]. by exists evs0.
  - intros [= <- <-]. eexists [_]. split; [done|].
    split; [apply not_completed_quiet | apply all_started_quiet];
      by repeat constructor.
Qed.

Lemma get_json_files_none promo_folder names w :
  dirs w !! promo_folder = Some names ->
  (forall n, n ∈ names -> ~ eligible n) ->
  get_json_files promo_folder w = (Ret [], w).
Proof.
  intros Hd Hnone. rewrite get_json_files_eq. do 2 f_equal. apply no_elem_nil.
  intros f Hf. apply get_json_files_elem in Hf as (names' & n & Hd' & Hn & He & _).
  rewrite Hd in Hd'. injection Hd' as <-. by apply (Hnone n).
Qed.

(** The only entry that making the results directory of a folder can add
    to the listing of that folder is [processed]. *)
Lemma processed_entry (p : Path) (n : string) :
  (p ++ [n]) `prefix_of` path_join ["processed"] (path_name p) -> n = "processed".
Proof.
  unfold path_join. intros [k Hk].
  destruct (decide (path_name p = "")) as [Hname|Hname].
  - destruct p as [|a [|b p]]; by simplify_eq/=.
  - destruct p as [|a [|b p]]; simplify_eq/=; [done|].
    by destruct p; simplify_eq/=.
Qed.

(** A folder without an eligible file gives no result. *)
Lemma process_promo_folder_no_files fuel cfg path names w o w' :
  dirs w !! Path_of_string path = Some names ->
  (forall n, n ∈ names -> ~ eligible n) ->
  process_promo_folder fuel cfg path w = (o, w') ->
  o = Ret None \/ exists e, o = Raise e.
Proof.
  intros Hd Hnone. unfold process_promo_folder, bind at 1, path_exists.
  rewrite Hd. rewrite bool_decide_eq_true_2 by eauto. cbn [orb negb].
  unfold bind at 1.
  destruct (mkdir _ w) as [[[]|e|] w0] eqn:Hmk.
  - apply mkdir_made in Hmk as (d & -> & Hg & _).
    destruct (Hg _ _ Hd) as (more & Hd' & Hway).
    unfold try_except, try_catch, bind at 1.
    rewrite (get_json_files_none _ (names ++ more)); [| exact Hd' |].
    + intros [= <- <-]. by left.
    + intros n [Hn|Hn]%elem_of_app; [by apply Hnone|].
      apply Hway, processed_entry in Hn as ->. by intros [? _].
  - intros [= <- <-]. right. eauto.
  - by apply mkdir_diverge in Hmk.
Qed.

(** How [main] can end. *)
Lemma main_cases fuel argv env w o w' :
  main fuel argv env w = (o, w') ->
  exists evs,
    trace w' = trace w ++ evs
    /\ ((o = Ret 1 /\ ~ completed evs /\ all_started evs)
        \/ (o = Ret 0 /\ completed evs /\ all_started evs
            /\ exists out table,
                 EvWrite out ∈ evs /\ files w' !! out = Some (Workbook table))
        \/ o = Diverge).
Proof.
  intros H. unfold main in H.
  destruct argv as [|prog [|path rest]].
  - injection H as <- <-. exists []. rewrite app_nil_r. split; [done|]. left.
    split; [done|]. split; [apply not_completed_quiet | apply all_started_quiet];
      constructor.
  - injection H as <- <-. exists []. rewrite app_nil_r. split; [done|]. left.
    split; [done|]. split; [apply not_completed_quiet | apply all_started_quiet];
      constructor.
  - unfold try_except, try_catch, bind at 1 in H.
    destruct (Ren3Config_init env) as [cfg|e0]; cbn [of_result ret raise] in H.
    + unfold bind at 1 in H.
      destruct (process_promo_folder fuel cfg path w) as [[[out|]|e|] w1] eqn:Hrun;
        apply process_promo_folder_spec in Hrun as (evs & Ht & Hsum);
        cbn [run_summary] in Hsum.
      * injection H as <- <-. destruct Hsum as (Hc & Ha & table & Hw & Hf).
        exists evs. split; [done|]. right. left. eauto 10.
      * injection H as <- <-. destruct Hsum as (Hc & Ha).
        exists evs. split; [done|]. by left.
      * cbv [bind ret] in H. rewrite log_eq in H. injection H as <- <-.
        exists (evs ++ [EvLog (FatalError e)]).
        assert (Forall within_batch (evs ++ [EvLog (FatalError e)])).
        { apply Forall_app. split; [done | by repeat constructor]. }
        split; [by cbn [advance with_sent with_trace trace]; rewrite Ht, app_assoc|].
        left. split; [done|].
        split; [by apply not_completed_quiet | by apply all_started_quiet].
      * injection H as <- <-. exists evs. split; [done|]. by right; right.
    + cbv [bind ret] in H. rewrite log_eq in H. injection H as <- <-.
      exists [EvLog (FatalError e0)]. split; [done|]. left. split; [done|].
      split; [apply not_completed_quiet | apply all_started_quiet];
        by repeat constructor.
Qed.

(** The runs that end with code 1 before any batch. *)
Lemma main_refuses fuel argv env w o w' :
  main fuel argv env w = (o, w') ->
  ((length argv < 2)%nat -> o = Ret 1)
  /\ (forall e, Ren3Config_init env = Err e -> o = Ret 1)
  /\ (forall path,
        argv !! 1%nat = Some path ->
        dirs w !! Path_of_string path = None ->
        files w !! Path_of_string path = None ->
        o = Ret 1)
  /\ (forall path names,
        argv !! 1%nat = Some path ->
        dirs w !! Path_of_string path = Some names ->
        (forall n, n ∈ names -> ~ eligible n) ->
        o = Ret 1).
Proof.
  intros H. unfold main in H.
  destruct argv as [|prog [|path rest]];
    [injection H as <- <-; repeat split; done ..|].
  unfold try_except, try_catch, bind at 1 in H.
  destruct (Ren3Config_init env) as [cfg|e0]; cbn [of_result ret raise] in H.
  - unfold bind at 1 in H.
    destruct (process_promo_folder fuel cfg path w) as [[r|e|] w1] eqn:Hrun.
    + split; [simpl; lia|]. split; [done|]. split.
      * intros path' [= <-] Hd Hf.
        unfold process_promo_folder, bind at 1, path_exists in Hrun.
        rewrite Hd, Hf in Hrun. injection Hrun as <- <-.
        by injection H as <- <-.
      * intros path' names [= <-] Hd Hnone.
        destruct (process_promo_folder_no_files _ _ _ _ _ _ _ Hd Hnone Hrun)
          as [[= ->]|[? [=]]].
        by injection H as <- <-.
    + cbv [bind ret] in H. rewrite log_eq in H. injection H as <- <-.
      repeat split; try done; simpl; lia.
    + split; [simpl; lia|]. split; [done|]. split.
      * intros path' [= <-] Hd Hf.
        unfold process_promo_folder, bind at 1, path_exists in Hrun.
        by rewrite Hd, Hf in Hrun.
      * intros path' names [= <-] Hd Hnone.
        by destruct (process_promo_folder_no_files _ _ _ _ _ _ _ Hd Hnone Hrun)
          as [?|[? ?]].
  - cbv [bind ret] in H. rewrite log_eq in H. injection H as <- <-.
    repeat split; done.
Qed.

End Run.

(** C8.  [main] never lets an exception escape.  When it exits, the code is
    0 or 1; it is 0 exactly when some batch was completed, and then the
    combined workbook has been written; when the run ends, every batch has
    been started, whatever became of the batches before it.  The code is 1
    when the argument is missing, when the configuration is refused, when
    the folder does not exist and when the folder has no eligible file. *)
Theorem main_exit_code :
  forall (fuel : nat) (argv : list string) (env : environ) (w : World)
         (o : outcome Z) (w' : World),
    main fuel argv env w = (o, w') ->
    exists evs,
      trace w' = trace w ++ evs
      /\ (forall e, o <> Raise e)
      /\ (forall c, o = Ret c ->
            (c = 0 \/ c = 1)
            /\ (c = 0 <-> completed evs)
            /\ (c = 0 -> exists out table,
                  EvWrite out ∈ evs /\ files w' !! out = Some (Workbook table)))
      /\ (o <> Diverge -> all_started evs)
      /\ ((length argv < 2)%nat -> o = Ret 1)
      /\ (forall e, Ren3Config_init env = Err e -> o = Ret 1)
      /\ (forall path,
            argv !! 1%nat = Some path ->
            dirs w !! Path_of_string path = None ->
            files w !! Path_of_string path = None ->
            o = Ret 1)
      /\ (forall path names,
            argv !! 1%nat = Some path ->
            dirs w !! Path_of_string path = Some names ->
            (forall n, n ∈ names -> ~ eligible n) ->
            o = Ret 1).
Proof.
  intros fuel argv env w o w' H.
  destruct (main_refuses _ _ _ _ _ _ H) as (Hargs & Hcfg & Hmissing & Hnofiles).
  destruct (main_cases _ _ _ _ _ _ H) as (evs & Ht & Hcases).
  exists evs. split; [exact Ht|].
  split; [|split; [|split; [|done]]].
  - intros e ->. by destruct Hcases as [[[=] _]|[[[=] _]|[=]]].
  - intros c ->.
    destruct Hcases as [([= ->] & Hnc & _) | [([= ->] & Hc & _ & Hfile) | [=]]].
    + split; [by right|]. split; [split; [done | intros Hc; by destruct Hnc] | done].
    + split; [by left|]. split; done.
  - intros Hterm.
    by destruct Hcases as [(_ & _ & Ha) | [(_ & _ & Ha & _) | ->]].
Qed.

Lemma main_exit_code_witness :
  (main 3 ["ren3_processor.py"; "output/promo_1"] two_batch_env two_batch_world).1
  = Ret 0
  /\ exists evs,
       trace (main 3 ["ren3_processor.py"; "output/promo_1"] two_batch_env
                two_batch_world).2
       = trace two_batch_world ++ evs
       /\ completed evs
       /\ EvLog (CsvNotFound 1) ∈ evs
       /\ EvLog (BatchBanner 2 2) ∈ evs.
Proof.
  split; [vm_compute; reflexivity|].
  destruct (main_exit_code 3 ["ren3_processor.py"; "output/promo_1"]
              two_batch_env two_batch_world _ _ (surjective_pairing _))
    as (evs & Ht & _ & Hret & _).
  exists evs. split; [exact Ht|].
  destruct (Hret 0) as (_ & Hiff & _); [vm_compute; reflexivity|].
  split; [by apply Hiff|].
  assert (Hevs : evs = drop 0 (trace (main 3 ["ren3_processor.py"; "output/promo_1"]
                                         two_batch_env two_batch_world).2)).
  { by rewrite Ht. }
  vm_compute in Hevs. subst evs. split.
  - do 9 right. left.
  - do 10 right. left.
Defined.

(** * Batcher: proofs *)

Section Batches.
Context {A : Type}.
Implicit Types (l : list A) (b c k : nat).

Lemma chunk_succ b l k : chunk b l (S k) = chunk b (drop b l) k.
Proof.
  unfold chunk. rewrite drop_drop. do 2 f_equal; lia.
Qed.

Lemma concat_chunks b c l :
  (length l <= c * b)%nat ->
  concat (map (chunk b l) (seq 0 c)) = l.
Proof.
  revert l. induction c as [|c IH]; intros l Hlen.
  - simpl in *. destruct l; simpl in *; [done | lia].
  - cbn [seq map concat]. rewrite <- seq_shift, map_map.
    rewrite (map_ext _ (chunk b (drop b l))) by (intros; apply chunk_succ).
    rewrite IH by (rewrite length_drop; lia).
    unfold chunk. simpl. apply take_drop.
Qed.

Lemma slice_chunk (B : Z) l k :
  0 < B ->
  Py.slice l (0 + Z.of_nat k * B) (0 + Z.of_nat k * B + B)
  = chunk (Z.to_nat B) l k.
Proof.
  intros HB. unfold Py.slice, Py.clip, chunk.
  set (n := Z.of_nat (length l)).
  rewrite Z.add_0_l. set (s := Z.of_nat k * B).
  assert (Hn : 0 <= n) by lia.
  assert (Hs : 0 <= s) by (unfold s; nia).
  destruct (Z.ltb_spec s 0); [lia|].
  destruct (Z.ltb_spec (s + B) 0); [lia|].
  replace (k * Z.to_nat B)%nat with (Z.to_nat s) by (unfold s; nia).
  destruct (Z.le_gt_cases s n) as [Hle | Hgt].
  - rewrite (Z.min_l s n) by lia.
    destruct (Z.le_gt_cases (s + B) n).
    + rewrite Z.min_l by lia. f_equal. lia.
    + rewrite Z.min_r by lia.
      rewrite !take_ge; [done | | ]; rewrite length_drop; lia.
  - rewrite !Z.min_r by lia.
    rewrite (drop_ge l (Z.to_nat n)) by lia.
    rewrite (drop_ge l (Z.to_nat s)) by lia.
    by rewrite !take_nil.
Qed.

Lemma range_len_ceil (n B : Z) :
  0 <= n -> 0 < B -> Py.range_len 0 n B = ceil_div n B.
Proof.
  intros Hn HB. unfold Py.range_len, ceil_div.
  destruct (Z.ltb_spec 0 B); [|lia].
  destruct (Z.ltb_spec 0 n).
  - replace (n - 0 - 1) with (n - 1) by lia.
    replace (n + B - 1) with (n - 1 + 1 * B) by lia.
    rewrite Z.div_add by lia. lia.
  - assert (n = 0) by lia. subst n.
    symmetry. apply Z.div_small. lia.
Qed.

Lemma ceil_div_bounds (n B : Z) :
  0 <= n -> 0 < B -> (ceil_div n B - 1) * B < n <= ceil_div n B * B.
Proof.
  intros Hn HB. unfold ceil_div.
  pose proof (Z.div_mod (n + B - 1) B ltac:(lia)).
  pose proof (Z.mod_pos_bound (n + B - 1) B HB).
  nia.
Qed.

End Batches.

(** C1.  For a positive batch size, [create_batches] returns ⌈N/B⌉ batches
    (the least number of batches of [B] files that hold [N] files), none
    longer than [B], the k-th being the k-th contiguous chunk of the input,
    and their concatenation in order is the input list. *)
Theorem create_batches_partition :
  forall (A : Type) (B : Z) (json_files : list A),
    0 < B ->
    exists batches,
      create_batches B json_files = Ok batches
      /\ Z.of_nat (length batches) = ceil_div (Z.of_nat (length json_files)) B
      /\ (Z.of_nat (length batches) - 1) * B
         < Z.of_nat (length json_files) <= Z.of_nat (length batches) * B
      /\ Forall (fun batch => Z.of_nat (length batch) <= B) batches
      /\ (forall k batch, batches !! k = Some batch ->
            batch = take (Z.to_nat B) (drop (k * Z.to_nat B) json_files))
      /\ concat batches = json_files.
Proof.
  intros A B l HB.
  set (n := Z.of_nat (length l)).
  set (c := Z.to_nat (Py.range_len 0 n B)).
  assert (Hc : Z.of_nat c = ceil_div n B).
  { unfold c. rewrite range_len_ceil by lia.
    pose proof (ceil_div_bounds n B ltac:(lia) HB). apply Z2Nat.id. nia. }
  assert (Hmap : create_batches B l = Ok (map (chunk (Z.to_nat B) l) (seq 0 c))).
  { unfold create_batches, Py.range. fold n.
    destruct (Z.eqb_spec B 0); [lia|]. fold c.
    rewrite map_map. f_equal. apply map_ext. intros k.
    by apply slice_chunk. }
  exists (map (chunk (Z.to_nat B) l) (seq 0 c)).
  split; [exact Hmap|]. split; [|split; [|split; [|split]]].
  - by rewrite length_map, length_seq.
  - rewrite length_map, length_seq, Hc. apply ceil_div_bounds; lia.
  - apply Forall_forall. intros b Hb.
    apply list_elem_of_fmap in Hb as (k & -> & _).
    unfold chunk. rewrite length_take. lia.
  - intros k b Hk. rewrite list_lookup_fmap in Hk.
    destruct (seq 0 c !! k) as [k'|] eqn:Hs; [|done].
    apply lookup_seq in Hs as [-> _]. simpl in Hk. by inversion Hk.
  - apply concat_chunks.
    pose proof (ceil_div_bounds n B ltac:(lia) HB). nia.
Qed.

Lemma create_batches_partition_witness :
  0 < 30 /\
  exists batches,
    create_batches 30 (seq 0 65) = Ok batches
    /\ Z.of_nat (length batches) = ceil_div (Z.of_nat (length (seq 0 65))) 30
    /\ (Z.of_nat (length batches) - 1) * 30
       < Z.of_nat (length (seq 0 65)) <= Z.of_nat (length batches) * 30
    /\ Forall (fun batch => Z.of_nat (length batch) <= 30) batches
    /\ (forall k batch, batches !! k = Some batch ->
          batch = take (Z.to_nat 30) (drop (k * Z.to_nat 30) (seq 0 65)))
    /\ concat batches = seq 0 65.
Proof.
  split; [lia | apply (create_batches_partition nat 30 (seq 0 65)); lia].
Defined.

(** * Remote call gateway: every way a call can end *)

Section Bounds.
Context (cfg : Ren3Config) (endpoint subject : string)
        (upload : list Path) (method : http_method).

Local Abbreviation r := (api_request cfg endpoint subject upload method).
Local Abbreviation loop := (api_call_loop cfg endpoint subject upload method).

(** How the loop ends from attempt [a] on with [n] attempts left, whatever
    the service answers. *)
Lemma api_call_loop_total n : forall a w,
  Z.of_nat (a + n) = max_retries cfg ->
  exists o k evs,
    loop (map Z.of_nat (seq a n)) w = (o, advance k evs w)
    /\ (k <= n)%nat
    /\ requests_of evs = replicate k r
    /\ sleeps_of evs = map (fun i => 5 * Z.of_nat i) (seq (S a) (k - 1))
    /\ Forall gateway_event evs
    /\ (forall i, (i + 1 < k)%nat -> is_failure (service w (sent w + i)) = true)
    /\ match o with
       | Ret (Some j) =>
           (1 <= k)%nat
           /\ exists c, service w (sent w + (k - 1)) = Reply c (Some j)
       | Ret None => n = 0%nat /\ k = 0%nat
       | Raise e =>
           is_failure (service w (sent w + (k - 1))) = true
           /\ (1 <= k)%nat
           /\ ((e = RequestException /\ k = n)
               \/ ((e = OverflowError \/ e = OSError)
                   /\ (k < n)%nat /\ sleep_floor < 5 * Z.of_nat (a + k)))
       | Diverge => False
       end.
Proof.
  induction n as [|n IH]; intros a w Hmax.
  { exists (Ret None), 0%nat, []. cbn [seq map api_call_loop].
    rewrite advance_nil. repeat split; try done. intros i Hi. lia. }
  change (seq a (S n)) with (a :: seq (S a) n). cbn [map].
  destruct (is_failure (service w (sent w))) eqn:Hf.
  - rewrite api_call_loop_fail by done.
    destruct (Z.ltb_spec (Z.of_nat a) (max_retries cfg - 1)) as [Hlt|Hge].
    + destruct (sleep_error w (5 * (Z.of_nat a + 1))) as [e|] eqn:Hwait.
      { apply sleep_error_some in Hwait as [Hlong He]; [|lia].
        eexists (Raise e), 1%nat, _. split; [done|].
        split; [lia|]. do 2 (split; [done|]). split; [by repeat constructor|].
        split; [intros i Hi; lia|].
        split; [by rewrite Nat.add_0_r|]. split; [lia|]. right.
        split; [done|]. split; lia. }
      match goal with
      | |- context [loop _ ?W] =>
          destruct (IH (S a) W)
            as (o & k & evs & Heq & Hk & Hreq & Hsl & Hev & Hfail & Ho);
            [lia|]
      end.
      rewrite Heq, advance_advance.
      assert (Hk1 : (1 <= k)%nat).
      { destruct o as [[j|]|e|]; [tauto | lia | tauto | done]. }
      eexists o, (1 + k)%nat, _. split; [done|].
      split; [lia|]. split.
      { rewrite requests_of_app, Hreq. reflexivity. }
      split.
      { rewrite sleeps_of_app, Hsl.
        replace (1 + k - 1)%nat with (S (k - 1)) by lia.
        cbn [seq map]. cbn.
        by replace (Z.of_nat a + 1) with (Z.of_nat (S a)) by lia. }
      split; [by repeat constructor|].
      split.
      { intros [|i] Hi; [by rewrite Nat.add_0_r|].
        specialize (Hfail i ltac:(lia)).
        cbn [advance with_sent with_trace service sent] in Hfail.
        by replace (sent w + S i)%nat with (1 + sent w + i)%nat by lia. }
      cbn [advance with_sent with_trace service sent] in Ho.
      replace (sent w + (1 + k - 1))%nat with (1 + sent w + (k - 1))%nat by lia.
      destruct o as [[j|]|e|]; [|lia| |done].
      * split; [lia|]. apply Ho.
      * destruct Ho as (Hlast & _ & Hend). split; [done|]. split; [lia|].
        destruct Hend as [[-> ->]|(He & Hkn & Hlong)]; [by left | right].
        split; [done|]. split; lia.
    + assert (n = 0%nat) as -> by lia.
      eexists (Raise RequestException), 1%nat, _. split; [done|].
      split; [lia|]. do 2 (split; [done|]). split; [by repeat constructor|].
      split; [intros i Hi; lia|].
      split; [by rewrite Nat.add_0_r|]. split; [lia|]. by left.
  - destruct (service w (sent w)) as [c [j|]| |partial] eqn:Hs; try done.
    cbn [api_call_loop]. unfold try_catch, bind at 1.
    rewrite (attempt_request_ok _ _ _ _ _ w c j Hs). unfold bind, ret.
    eexists (Ret (Some j)), 1%nat, _. split; [done|].
    split; [lia|]. do 2 (split; [done|]). split; [by repeat constructor|].
    repeat split; try done; try lia.
    exists c. by rewrite Nat.add_0_r.
Qed.

End Bounds.

(** Every way [_api_call] can end. *)
Lemma api_call_outcome :
  forall (cfg : Ren3Config) (endpoint subject : string) (upload : list Path)
         (method : http_method) (w : World),
  exists o n evs,
    _api_call cfg endpoint subject upload method w = (o, advance n evs w)
    /\ (n <= Z.to_nat (max_retries cfg))%nat
    /\ requests_of evs
       = replicate n (api_request cfg endpoint subject upload method)
    /\ sleeps_of evs = map (fun i => 5 * Z.of_nat i) (seq 1 (n - 1))
    /\ Forall gateway_event evs
    /\ (forall i, (i + 1 < n)%nat -> is_failure (service w (sent w + i)) = true)
    /\ match o with
       | Ret (Some j) =>
           (1 <= n)%nat
           /\ exists c, service w (sent w + (n - 1)) = Reply c (Some j)
       | Ret None => max_retries cfg <= 0 /\ n = 0%nat
       | Raise e =>
           is_failure (service w (sent w + (n - 1))) = true
           /\ (1 <= n)%nat
           /\ ((e = RequestException /\ n = Z.to_nat (max_retries cfg))
               \/ ((e = OverflowError \/ e = OSError)
                   /\ (n < Z.to_nat (max_retries cfg))%nat
                   /\ sleep_floor < 5 * Z.of_nat n))
       | Diverge => False
       end.
Proof.
  intros cfg endpoint subject upload method w.
  unfold _api_call. rewrite range_attempts. unfold bind at 1. cbn [of_result ret].
  destruct (Z.le_gt_cases (max_retries cfg) 0) as [Hle|Hgt].
  - replace (Z.to_nat (max_retries cfg)) with 0%nat by lia.
    exists (Ret None), 0%nat, []. cbn [seq map api_call_loop].
    rewrite advance_nil. repeat split; try done. intros i Hi. lia.
  - destruct (api_call_loop_total cfg endpoint subject upload method
                (Z.to_nat (max_retries cfg)) 0 w)
      as (o & k & evs & Heq & Hk & Hreq & Hsl & Hev & Hfail & Ho); [lia|].
    exists o, k, evs. split; [done|]. split; [done|].
    do 4 (split; [done|]).
    destruct o as [[j|]|e|]; [done | lia | done | done].
Qed.


(** * The calls of the batch pipeline: answers that are not a success *)

Section Answers.
Context (cfg : Ren3Config) (w : World) (c : string) (j : response).
Hypothesis Hmax : 0 < max_retries cfg.
Hypothesis Hanswer : service w (sent w) = Reply c (Some j).

Local Abbreviation after endpoint subject upload :=
  (advance 1 [EvRequest (api_request cfg endpoint subject upload POST)] w).

Lemma upload_files_answer batch temp :
  upload_files cfg batch temp w
  = on_success (Some j) (fun j => ret j) (after "/upload_agenttmpfiles" temp batch).
Proof.
  unfold upload_files, bind. by rewrite (api_call_first_ok cfg _ _ _ _ w c j).
Qed.

Lemma get_job_input_files_answer temp :
  get_job_input_files cfg temp w
  = on_success (Some j)
      (fun j => ret (match returnObject j with
                     | RAbsent => RFiles []
                     | o => o
                     end))
      (after "/agentdrive/get_jobinputfiles" temp []).
Proof.
  unfold get_job_input_files, bind. by rewrite (api_call_first_ok cfg _ _ _ _ w c j).
Qed.

Lemma run_agent_answer input_files temp :
  run_agent cfg input_files temp w
  = on_success (Some j) (fun j => of_result (job_uuid_of (returnObject j)))
      (after "/agentdrive/run_agent" temp []).
Proof.
  unfold run_agent, bind at 1. by rewrite (api_call_first_ok cfg _ _ _ _ w c j).
Qed.

Lemma get_job_details_answer job_id :
  get_job_details cfg job_id w
  = on_success (Some j)
      (fun j => _ <- of_result (output_folder_of (returnObject j)) ;;
                ret (returnObject j))
      (after "/agentdrive/get_jobdetails" job_id []).
Proof.
  unfold get_job_details, bind at 1. by rewrite (api_call_first_ok cfg _ _ _ _ w c j).
Qed.

Lemma get_output_files_answer folder :
  get_output_files cfg folder w
  = on_success (Some j)
      (fun j => ret (match returnObject j with
                     | RAbsent => RDocs []
                     | o => o
                     end))
      (after "/tensordrive/get_docs" folder []).
Proof.
  unfold get_output_files, bind. by rewrite (api_call_first_ok cfg _ _ _ _ w c j).
Qed.

End Answers.

(** X3.  An answer that arrives but does not report success is not tried
    again: each of the five calls of the pipeline raises a plain
    [Exception] after that one request, without a wait. *)
Theorem unsuccessful_answer_not_retried :
  forall (cfg : Ren3Config) (w : World) (c : string) (j : response),
    0 < max_retries cfg ->
    service w (sent w) = Reply c (Some j) ->
    success j = false ->
    let after endpoint subject upload :=
      advance 1 [EvRequest (api_request cfg endpoint subject upload POST)] w in
    (forall batch temp,
        upload_files cfg batch temp w
        = (Raise PlainException, after "/upload_agenttmpfiles" temp batch))
    /\ (forall temp,
          get_job_input_files cfg temp w
          = (Raise PlainException, after "/agentdrive/get_jobinputfiles" temp []))
    /\ (forall input_files temp,
          run_agent cfg input_files temp w
          = (Raise PlainException, after "/agentdrive/run_agent" temp []))
    /\ (forall job_id,
          get_job_details cfg job_id w
          = (Raise PlainException, after "/agentdrive/get_jobdetails" job_id []))
    /\ (forall folder,
          get_output_files cfg folder w
          = (Raise PlainException, after "/tensordrive/get_docs" folder [])).
Proof.
  intros cfg w c j Hmax Hanswer Hfalse after. subst after. cbv beta.
  split; [|split; [|split; [|split]]]; intros.
  - rewrite (upload_files_answer cfg w c j) by done.
    unfold on_success. by rewrite Hfalse.
  - rewrite (get_job_input_files_answer cfg w c j) by done.
    unfold on_success. by rewrite Hfalse.
  - rewrite (run_agent_answer cfg w c j) by done.
    unfold on_success. by rewrite Hfalse.
  - rewrite (get_job_details_answer cfg w c j) by done.
    unfold on_success. by rewrite Hfalse.
  - rewrite (get_output_files_answer cfg w c j) by done.
    unfold on_success. by rewrite Hfalse.
Qed.

Lemma unsuccessful_answer_not_retried_witness :
  run_agent (config_of 30 15 3) (RFiles []) "uuid-0"
    (world_of (fun _ => Reply "{}" (Some {| success := false;
                                            returnObject := RAbsent |})) ∅ ∅)
  = (Raise PlainException,
     advance 1
       [EvRequest (api_request (config_of 30 15 3) "/agentdrive/run_agent"
                     "uuid-0" [] POST)]
       (world_of (fun _ => Reply "{}" (Some {| success := false;
                                               returnObject := RAbsent |})) ∅ ∅)).
Proof.
  eapply (unsuccessful_answer_not_retried (config_of 30 15 3) _ "{}"
            {| success := false; returnObject := RAbsent |}).
  - simpl. lia.
  - reflexivity.
  - reflexivity.
Defined.

(** X4.  The polling loop takes the same answer as "not yet": with a
    polling interval that [time.sleep] takes (from 0 to [sleep_floor]
    seconds), it logs nothing, waits the polling interval and polls again
    with the progress it had. *)
Theorem poll_unsuccessful_answer_polls_again :
  forall (cfg : Ren3Config) (job_id : string) (last : option string)
         (fuel : nat) (w : World) (c : string) (j : response),
    0 < max_retries cfg ->
    0 <= poll_interval cfg <= sleep_floor ->
    service w (sent w) = Reply c (Some j) ->
    success j = false ->
    poll_loop (S fuel) cfg job_id last w
    = poll_loop fuel cfg job_id last
        (advance 1
           [EvRequest (api_request cfg "/agentdrive/get_agentjoblogs" job_id [] POST);
            EvSleep (poll_interval cfg)] w).
Proof.
  intros cfg job_id last fuel w c j Hmax Hpi Hanswer Hfalse.
  cbn [poll_loop]. unfold bind at 1, poll_once, try_except, try_catch, bind at 1.
  rewrite (api_call_first_ok cfg _ _ _ _ w c j) by done.
  rewrite Hfalse. unfold bind at 1. rewrite sleep_eq by done.
  by rewrite advance_advance.
Qed.

Lemma poll_unsuccessful_answer_polls_again_witness :
  poll_loop 2 (config_of 30 15 3) "job-1" None
    (world_of (fun _ => Reply "{}" (Some {| success := false;
                                            returnObject := RAbsent |})) ∅ ∅)
  = poll_loop 1 (config_of 30 15 3) "job-1" None
      (advance 1
         [EvRequest (api_request (config_of 30 15 3)
                       "/agentdrive/get_agentjoblogs" "job-1" [] POST);
          EvSleep 15]
         (world_of (fun _ => Reply "{}" (Some {| success := false;
                                                 returnObject := RAbsent |})) ∅ ∅)).
Proof.
  eapply (poll_unsuccessful_answer_polls_again (config_of 30 15 3) "job-1" None 1
            _ "{}" {| success := false; returnObject := RAbsent |}).
  - simpl. lia.
  - unfold sleep_floor. simpl. lia.
  - reflexivity.
  - reflexivity.
Defined.

(** X5.  A successful answer without [returnObject]: the two listings take
    it as an empty list, so that the batch ends without a CSV; starting the
    agent and reading the job details raise [KeyError]. *)
Theorem absent_return_object :
  forall (cfg : Ren3Config) (w : World) (c : string),
    0 < max_retries cfg ->
    service w (sent w)
    = Reply c (Some {| success := true; returnObject := RAbsent |}) ->
    (forall temp, (get_job_input_files cfg temp w).1 = Ret (RFiles []))
    /\ (forall folder,
          exists output_files,
            (get_output_files cfg folder w).1 = Ret output_files
            /\ find_csv output_files = Ok None)
    /\ (forall input_files temp,
          (run_agent cfg input_files temp w).1 = Raise KeyError)
    /\ (forall job_id, (get_job_details cfg job_id w).1 = Raise KeyError).
Proof.
  intros cfg w c Hmax Hanswer.
  split; [|split; [|split]]; intros.
  - by rewrite (get_job_input_files_answer cfg w c _ Hmax Hanswer).
  - exists (RDocs []).
    by rewrite (get_output_files_answer cfg w c _ Hmax Hanswer).
  - by rewrite (run_agent_answer cfg w c _ Hmax Hanswer).
  - by rewrite (get_job_details_answer cfg w c _ Hmax Hanswer).
Qed.

Lemma absent_return_object_witness :
  (get_job_details (config_of 30 15 3) "job-1"
     (world_of (fun _ => ok_reply RAbsent) ∅ ∅)).1 = Raise KeyError.
Proof.
  eapply (absent_return_object (config_of 30 15 3) _ "{}").
  - simpl. lia.
  - reflexivity.
Defined.

(** * Batcher: the size of the batches *)

Section Batch_sizes.
Context {A : Type}.

(** For a positive batch size the batches are the chunks of the input. *)
Lemma create_batches_chunks (B : Z) (json_files : list A) :
  0 < B ->
  create_batches B json_files
  = Ok (map (chunk (Z.to_nat B) json_files)
          (seq 0 (Z.to_nat (ceil_div (Z.of_nat (length json_files)) B)))).
Proof.
  intros HB. unfold create_batches, Py.range.
  destruct (Z.eqb_spec B 0); [lia|].
  rewrite range_len_ceil by lia.
  rewrite map_map. f_equal. apply map_ext. intros k.
  by apply slice_chunk.
Qed.

Lemma length_chunk (b : nat) (l : list A) (k : nat) :
  length (chunk b l k) = (b `min` (length l - k * b))%nat.
Proof. unfold chunk. by rewrite length_take, length_drop. Qed.

End Batch_sizes.

(** X6.  For a positive batch size no batch is empty, every batch but the
    last holds exactly [B] files, and the last holds the files that are
    left; an empty list gives no batch. *)
Theorem create_batches_full :
  forall (A : Type) (B : Z) (json_files : list A),
    0 < B ->
    exists batches,
      create_batches B json_files = Ok batches
      /\ Forall (fun batch => batch <> []) batches
      /\ (forall k batch,
            batches !! k = Some batch -> (S k < length batches)%nat ->
            Z.of_nat (length batch) = B)
      /\ (forall batch,
            last batches = Some batch ->
            Z.of_nat (length batch)
            = Z.of_nat (length json_files) - (Z.of_nat (length batches) - 1) * B)
      /\ (json_files = [] <-> batches = []).
Proof.
  intros A B l HB.
  pose proof (ceil_div_bounds (Z.of_nat (length l)) B ltac:(lia) HB) as Hb.
  set (c := Z.to_nat (ceil_div (Z.of_nat (length l)) B)) in *.
  assert (Hc : Z.of_nat c = ceil_div (Z.of_nat (length l)) B).
  { unfold c. apply Z2Nat.id. nia. }
  rewrite <- Hc in Hb.
  assert (Hlook : forall k batch,
             map (chunk (Z.to_nat B) l) (seq 0 c) !! k = Some batch ->
             (k < c)%nat /\ batch = chunk (Z.to_nat B) l k).
  { intros k batch Hk. rewrite list_lookup_fmap in Hk.
    destruct (seq 0 c !! k) as [k'|] eqn:Hs; [|done].
    apply lookup_seq in Hs as [-> Hlt]. simpl in Hk. by inversion Hk. }
  exists (map (chunk (Z.to_nat B) l) (seq 0 c)).
  split; [by apply create_batches_chunks|].
  rewrite length_map, length_seq.
  split; [|split; [|split]].
  - apply Forall_lookup. intros k batch Hk.
    apply Hlook in Hk as [Hlt ->]. intros Hnil.
    apply (f_equal length) in Hnil. rewrite length_chunk in Hnil.
    simpl in Hnil. nia.
  - intros k batch Hk Hlast. apply Hlook in Hk as [Hlt ->].
    rewrite length_chunk. nia.
  - intros batch Hlast. rewrite last_lookup, length_map, length_seq in Hlast.
    destruct c as [|c']; [done|]. simpl in Hlast.
    apply Hlook in Hlast as [Hlt ->]. rewrite length_chunk. nia.
  - split.
    + intros ->. simpl in Hb. assert (c = 0%nat) as -> by nia. done.
    + intros Hnil. apply (f_equal length) in Hnil.
      rewrite length_map, length_seq in Hnil. simpl in Hnil.
      rewrite Hnil in Hb. apply length_zero_iff_nil. lia.
Qed.

Lemma create_batches_full_witness :
  exists batches,
    create_batches 30 (seq 0 65) = Ok batches
    /\ Forall (fun batch => batch <> []) batches
    /\ (forall k batch,
          batches !! k = Some batch -> (S k < length batches)%nat ->
          Z.of_nat (length batch) = 30)
    /\ (forall batch,
          last batches = Some batch ->
          Z.of_nat (length batch)
          = Z.of_nat (length (seq 0 65)) - (Z.of_nat (length batches) - 1) * 30)
    /\ (seq 0 65 = [] <-> batches = []).
Proof. apply (create_batches_full nat 30 (seq 0 65)). lia. Defined.

(** * File discovery: nothing lost, and no dependence on the scan *)

Section Scan_order.

#[global] Instance path_le_antisymm : AntiSymm (=) path_le.
Proof.
  intros p. unfold path_le.
  induction p as [|a p IH]; intros [|b q] Hpq Hqp; try done.
  simpl in Hpq, Hqp. rewrite (String.compare_antisym b a) in Hqp.
  destruct (String.compare a b) eqn:Hab; simpl in Hqp; try done.
  apply String.compare_eq_iff in Hab as ->. f_equal. by apply IH.
Qed.

Lemma merge_sort_scan_order (l1 l2 : list Path) :
  l1 ≡ₚ l2 -> merge_sort path_le l1 = merge_sort path_le l2.
Proof.
  intros Hperm. apply (StronglySorted_unique path_le).
  - apply (StronglySorted_merge_sort path_le).
  - apply (StronglySorted_merge_sort path_le).
  - by rewrite !merge_sort_Permutation.
Qed.

End Scan_order.

(** X7.  Discovery loses nothing: the list returned is, up to its order,
    the list of the entries of the folder whose name ends in [.json] and
    does not start with the marker, each as a path of the folder. *)
Theorem get_json_files_complete :
  forall (promo_folder : Path) (names : list string) (w : World),
    dirs w !! promo_folder = Some names ->
    exists json_files,
      get_json_files promo_folder w = (Ret json_files, w)
      /\ json_files
         ≡ₚ map (fun n => promo_folder ++ [n])
              (filter (fun n => Py.endswith ".json" n = true
                                /\ Py.startswith "_" n = false) names)
      /\ forall n, n ∈ names -> eligible n -> promo_folder ++ [n] ∈ json_files.
Proof.
  intros promo names w Hdir. rewrite get_json_files_eq, Hdir.
  eexists. split; [done|]. split.
  - rewrite merge_sort_Permutation.
    clear Hdir. induction names as [|n names IH]; [done|].
    rewrite !filter_cons.
    destruct (decide (Py.endswith ".json" n)) as [He|He].
    + apply Is_true_true in He.
      destruct (json_name_join promo n He) as [Hj Hn].
      cbn [map]. rewrite filter_cons, Hj, Hn.
      destruct (decide (negb (Py.startswith "_" n))) as [Hs|Hs].
      * apply Is_true_true, negb_true_iff in Hs.
        rewrite decide_True by done. cbn [map]. by rewrite IH.
      * apply Is_true_false, negb_false_iff in Hs.
        rewrite decide_False by (intros [_ ?]; congruence). exact IH.
    + apply Is_true_false in He.
      rewrite decide_False by (intros [? _]; congruence). exact IH.
  - intros n Hn Hel.
    pose proof (get_json_files_elem promo w (promo ++ [n])) as Helem.
    rewrite Hdir in Helem. apply Helem. by exists names, n.
Qed.

Lemma get_json_files_complete_witness :
  exists json_files,
    get_json_files ["output"; "promo_1"] two_batch_world
    = (Ret json_files, two_batch_world)
    /\ json_files
       ≡ₚ map (fun n => ["output"; "promo_1"] ++ [n])
            (filter (fun n => Py.endswith ".json" n = true
                              /\ Py.startswith "_" n = false)
               ["b.json"; "_meta.json"; "a.json"; "notes.txt"])
    /\ forall n, n ∈ ["b.json"; "_meta.json"; "a.json"; "notes.txt"] ->
                 eligible n -> ["output"; "promo_1"] ++ [n] ∈ json_files.
Proof.
  apply (get_json_files_complete ["output"; "promo_1"] _ two_batch_world).
  reflexivity.
Defined.

(** X8.  The list returned does not depend on the order in which the
    folder is scanned: two listings of the same entries give the same
    list. *)
Theorem get_json_files_scan_order :
  forall (promo_folder : Path) (names1 names2 : list string) (w1 w2 : World),
    dirs w1 !! promo_folder = Some names1 ->
    dirs w2 !! promo_folder = Some names2 ->
    names1 ≡ₚ names2 ->
    (get_json_files promo_folder w1).1 = (get_json_files promo_folder w2).1.
Proof.
  intros promo names1 names2 w1 w2 H1 H2 Hperm.
  rewrite !get_json_files_eq, H1, H2. cbn [fst]. f_equal.
  apply merge_sort_scan_order. by rewrite Hperm.
Qed.

Lemma get_json_files_scan_order_witness :
  (get_json_files ["output"; "promo_1"]
     (world_of service_down {[ ["output"; "promo_1"] := ["b.json"; "a.json"] ]} ∅)).1
  = (get_json_files ["output"; "promo_1"]
       (world_of service_down {[ ["output"; "promo_1"] := ["a.json"; "b.json"] ]} ∅)).1.
Proof.
  apply (get_json_files_scan_order ["output"; "promo_1"]
           ["b.json"; "a.json"] ["a.json"; "b.json"]).
  - reflexivity.
  - reflexivity.
  - apply perm_swap.
Defined.

(** * Polling: progress lines *)

Section Progress.

Lemma progress_of_app evs1 evs2 :
  progress_of (evs1 ++ evs2) = progress_of evs1 ++ progress_of evs2.
Proof. apply omap_app. Qed.

Lemma progress_of_gateway evs : Forall gateway_event evs -> progress_of evs = [].
Proof.
  intros H. apply omap_all_none. intros e He.
  rewrite Forall_forall in H. specialize (H e He).
  by destruct e as [| |[]|].
Qed.

Lemma no_repeat_cons_option (last : option string) (t : string) (l : list string) :
  Some t <> last -> no_repeat (t :: l) -> no_repeat (option_list last ++ t :: l).
Proof.
  intros Hne Hl. destruct last as [u|]; [|done].
  split; [congruence | done].
Qed.

Lemma last_cons_option (last : option string) (t : string) (l : list string) :
  list.last (option_list last ++ t :: l) = list.last (t :: l).
Proof. destruct last as [u|]; [|done]. done. Qed.

(** Joining two runs of lines, the second starting from the last line of
    the first. *)
Lemma no_repeat_app (l1 l2 : list string) :
  no_repeat l1 -> no_repeat (option_list (list.last l1) ++ l2) ->
  no_repeat (l1 ++ l2).
Proof.
  induction l1 as [|x [|y l1] IH]; intros H1 H2; [done|done|].
  destruct H1 as [Hxy H1]. split; [done|].
  apply IH; [done|]. exact H2.
Qed.

Lemma last_app_option (l1 l2 : list string) :
  list.last (l1 ++ l2) = list.last (option_list (list.last l1) ++ l2).
Proof.
  destruct l2 as [|z l2 _] using rev_ind.
  - rewrite !app_nil_r. by destruct (list.last l1).
  - rewrite !app_assoc, !last_snoc. done.
Qed.

Lemma progress_has_text (entry : log_entry) :
  Py.contains "progress" (lower_text entry) = true ->
  exists t, log_text entry = Some t.
Proof.
  unfold lower_text. destruct (log_text entry) as [t|]; [by exists t|done].
Qed.

(** One scan: the progress lines it shows, counted from the one shown
    last before it, never repeat, and the scan remembers the last one. *)
Lemma scan_logs_progress logs : forall last w,
  exists v last' evs,
    scan_logs logs last w = (Ret (v, last'), advance 0 evs w)
    /\ requests_of evs = []
    /\ sleeps_of evs = []
    /\ no_repeat (option_list last ++ progress_of evs)
    /\ last' = list.last (option_list last ++ progress_of evs).
Proof.
  induction logs as [|entry logs IH]; intros last w; cbn [scan_logs].
  { exists false, last, []. rewrite advance_nil, app_nil_r.
    repeat split; try done; by destruct last. }
  destruct (is_completion entry).
  { exists true, last, [EvLog AgentCompleted].
    unfold bind. rewrite log_eq. rewrite app_nil_r.
    repeat split; try done; by destruct last. }
  destruct (Py.contains "progress" (lower_text entry)) eqn:Hp; [|apply IH].
  destruct (progress_has_text entry Hp) as [t Ht]. rewrite Ht.
  destruct (decide (Some t = last)) as [Heq|Hne]; [apply IH|].
  unfold bind at 1. rewrite log_eq.
  destruct (IH (Some t) (advance 0 [EvLog (Progress (default "" (Some t)))] w))
    as (v & last' & evs & Hscan & Hreq & Hsl & Hrep & Hlast).
  rewrite Hscan, advance_advance.
  eexists v, last', _. split; [done|].
  rewrite requests_of_app, sleeps_of_app, progress_of_app, Hreq, Hsl.
  cbn [option_list app] in Hrep, Hlast.
  repeat split; try done.
  - by apply no_repeat_cons_option.
  - change (progress_of [EvLog (Progress (default "" (Some t)))]
            ++ progress_of evs) with (t :: progress_of evs).
    by rewrite last_cons_option.
Qed.

End Progress.

Section Poll_progress.
Context (cfg : Ren3Config) (job_id : string).

Lemma option_list_no_repeat (last : option string) :
  no_repeat (option_list last) /\ last = list.last (option_list last).
Proof. by destruct last. Qed.

(** One turn of the loop: its progress lines, counted from the one shown
    last before it, never repeat, and the next turn starts from the last of
    them. *)
Lemma poll_once_progress (last : option string) (w : World) :
  exists o n evs,
    poll_once cfg job_id last w = (o, advance n evs w)
    /\ no_repeat (option_list last ++ progress_of evs)
    /\ match o with
       | Ret (Again last') =>
           last' = list.last (option_list last ++ progress_of evs)
       | _ => True
       end.
Proof.
  pose proof (option_list_no_repeat last) as [Hnr Hl].
  unfold poll_once, try_except, try_catch. unfold bind at 1.
  destruct (api_call_outcome cfg "/agentdrive/get_agentjoblogs" job_id [] POST w)
    as (o & n & evs & Heq & _ & _ & _ & Hev & _ & _).
  rewrite Heq. apply progress_of_gateway in Hev.
  assert (Hquiet : forall extra,
             progress_of extra = [] ->
             no_repeat (option_list last ++ progress_of (evs ++ extra))
             /\ last = list.last (option_list last ++ progress_of (evs ++ extra))).
  { intros extra Hx. by rewrite progress_of_app, Hev, Hx, !app_nil_r. }
  destruct o as [[j|]|e|].
  - destruct (success j).
    + destruct (logs_of (returnObject j)) as [logs|e]; cbn [of_result].
      * unfold bind at 1. unfold ret at 1. unfold bind at 1.
        destruct (scan_logs_progress logs last (advance n evs w))
          as (v & last' & evs2 & Hscan & _ & _ & Hrep & Hlast).
        rewrite Hscan, advance_advance. cbn [fst snd].
        assert (Hp : progress_of (evs ++ evs2) = progress_of evs2).
        { by rewrite progress_of_app, Hev. }
        destruct v.
        { eexists _, _, _. split; [done|]. by rewrite Hp. }
        rewrite wait_then. destruct (sleep_error _ _) eqn:Hpi.
        { rewrite log_wait_then, Hpi, advance_advance.
          eexists _, _, _. split; [done|].
          by rewrite progress_of_app, Hp, app_nil_r. }
        rewrite advance_advance. eexists _, _, _. split; [done|].
        by rewrite progress_of_app, Hp, app_nil_r.
      * unfold bind at 1. unfold raise at 1.
        rewrite log_wait_then, !advance_advance.
        destruct (sleep_error _ _); eexists _, _, _;
          (split; [done|]); (split; [by apply Hquiet | first [exact I | by apply Hquiet]]).
    + rewrite wait_then. destruct (sleep_error _ _) eqn:Hpi.
      * rewrite log_wait_then, Hpi, advance_advance.
        eexists _, _, _. split; [done|].
        split; [by apply Hquiet | first [exact I | by apply Hquiet]].
      * rewrite advance_advance. eexists _, _, _. split; [done|].
        by apply Hquiet.
  - unfold raise at 1. rewrite log_wait_then, !advance_advance.
    destruct (sleep_error _ _); eexists _, _, _;
      (split; [done|]); (split; [by apply Hquiet | first [exact I | by apply Hquiet]]).
  - rewrite log_wait_then, !advance_advance.
    destruct (sleep_error _ _); eexists _, _, _;
      (split; [done|]); (split; [by apply Hquiet | first [exact I | by apply Hquiet]]).
  - eexists _, _, _. split; [done|].
    rewrite <- (app_nil_r evs). split; [by apply Hquiet | exact I].
Qed.

Lemma poll_loop_progress (fuel : nat) : forall (last : option string) (w : World),
  exists o n evs,
    poll_loop fuel cfg job_id last w = (o, advance n evs w)
    /\ no_repeat (option_list last ++ progress_of evs).
Proof.
  induction fuel as [|fuel IH]; intros last w; cbn [poll_loop].
  { exists Diverge, 0%nat, []. rewrite advance_nil, app_nil_r.
    split; [done|]. apply option_list_no_repeat. }
  unfold bind at 1.
  destruct (poll_once_progress last w) as (o & n & evs & Heq & Hrep & Ho).
  rewrite Heq.
  destruct o as [[|last']|e|]; try by (eexists _, _, _).
  destruct (IH last' (advance n evs w)) as (o2 & n2 & evs2 & Heq2 & Hrep2).
  rewrite Heq2, advance_advance. eexists _, _, _. split; [done|].
  rewrite progress_of_app, app_assoc. apply no_repeat_app; [done|].
  by rewrite <- Ho.
Qed.

End Poll_progress.

(** X9.  [poll_job_status] never shows the same progress text twice in a
    row, within a poll or from one poll to the next, however it ends and
    whatever the service answers. *)
Theorem poll_job_status_progress_once :
  forall (fuel : nat) (cfg : Ren3Config) (job_id : string) (w : World)
         (o : outcome bool) (w' : World),
    poll_job_status fuel cfg job_id w = (o, w') ->
    exists evs,
      trace w' = trace w ++ evs /\ no_repeat (progress_of evs).
Proof.
  intros fuel cfg job_id w o w' H. unfold poll_job_status in H.
  destruct (poll_loop_progress cfg job_id fuel None w)
    as (o2 & n & evs & Heq & Hrep).
  rewrite Heq in H. injection H as _ <-. by exists evs.
Qed.

Lemma poll_job_status_progress_once_witness :
  exists evs,
    trace (poll_job_status 5 (config_of 30 15 3) "job-1"
             (world_of (completes_after 2) ∅ ∅)).2
    = trace (world_of (completes_after 2) ∅ ∅) ++ evs
    /\ no_repeat (progress_of evs).
Proof.
  eapply (poll_job_status_progress_once 5 (config_of 30 15 3) "job-1").
  apply surjective_pairing.
Defined.

(** * Download: what is saved *)



(** * The folder pipeline: the files of the batches *)

Section Batch_files.

Lemma bind_ret_inv {A B} (m : M A) (k : A -> M B) w b w' :
  bind m k w = (Ret b, w') ->
  exists a w1, m w = (Ret a, w1) /\ k a w1 = (Ret b, w').
Proof.
  unfold bind. destruct (m w) as [[a|e|] w1]; [|done|done].
  intros H. by exists a, w1.
Qed.

Lemma completed_of_app evs1 evs2 :
  completed_of (evs1 ++ evs2) = completed_of evs1 ++ completed_of evs2.
Proof. apply omap_app. Qed.

Lemma completed_of_quiet evs : Forall within_batch evs -> completed_of evs = [].
Proof.
  intros H. apply omap_all_none. intros e He.
  rewrite Forall_forall in H. specialize (H e He).
  by destruct e as [| |[]|].
Qed.

(** A batch that returns a path returns the path made of its number. *)
Lemma process_batch_path fuel cfg processed_dir n batch w p w' :
  process_batch fuel cfg processed_dir n batch w = (Ret (Some p), w') ->
  p = csv_path_of processed_dir n.
Proof.
  unfold process_batch. intros H.
  do 10 (apply bind_ret_inv in H as (? & ? & _ & H)).
  match type of H with (match ?x with _ => _ end) _ = _ => destruct x end.
  - do 2 (apply bind_ret_inv in H as (? & ? & _ & H)).
    by injection H as <- _.
  - apply bind_ret_inv in H as (? & ? & _ & H). done.
Qed.

Lemma batch_loop_csvs fuel cfg processed_dir total batches :
  forall n csv_files w o w',
    batch_loop fuel cfg processed_dir total n batches csv_files w = (o, w') ->
    exists evs,
      trace w' = trace w ++ evs
      /\ Forall (fun k => n <= k < n + Z.of_nat (length batches)) (completed_of evs)
      /\ StronglySorted Z.lt (completed_of evs)
      /\ forall csv_files',
           o = Ret csv_files' ->
           csv_files'
           = csv_files ++ map (csv_path_of processed_dir) (completed_of evs).
Proof.
  induction batches as [|batch rest IH]; intros n csvs w o w' H.
  - injection H as <- <-. exists []. rewrite app_nil_r.
    repeat split; try done; [constructor|]. intros ? [= <-]. by rewrite app_nil_r.
  - assert (Hshift : forall l,
               Forall (fun k => n + 1 <= k < n + 1 + Z.of_nat (length rest)) l ->
               Forall (fun k => n <= k < n + Z.of_nat (length (batch :: rest))) l).
    { intros l Hl. eapply Forall_impl; [exact Hl|].
      intros k Hk. simpl in Hk. cbn [length]. lia. }
    cbn [batch_loop] in H. unfold bind at 1 in H. rewrite log_eq in H.
    unfold bind at 1, try_except, try_catch, bind at 1 in H.
    destruct (process_batch fuel cfg processed_dir n batch
                (advance 0 [EvLog (BatchBanner n total)] w))
      as [[[p|]|e|] w1] eqn:Hpb;
      pose proof Hpb as Hpath;
      apply ends_batch_process_batch in Hpb as (evs1 & Ht1 & Hend);
      cbn [advance with_sent with_trace trace] in Ht1.
    + apply process_batch_path in Hpath as ->.
      destruct Hend as (evs0 & -> & Hq0). cbn [ret] in H.
      unfold bind at 1 in H.
      destruct (pause_between_batches n total w1) as (sl & Hsl & Hqs).
      rewrite Hsl in H.
      apply IH in H as (evs2 & Ht3 & Hrange & Hsorted & Hret).
      cbn [advance with_sent with_trace trace] in Ht3.
      exists ([EvLog (BatchBanner n total)]
              ++ (evs0 ++ [EvLog (BatchCompleted n)]) ++ sl ++ evs2).
      split; [by rewrite Ht3, Ht1, <- !app_assoc|].
      rewrite !completed_of_app, (completed_of_quiet evs0), (completed_of_quiet sl)
        by done.
      change (completed_of [EvLog (BatchBanner n total)]) with (@nil Z).
      change (completed_of [EvLog (BatchCompleted n)]) with [n].
      cbn [app]. split; [|split].
      * constructor; [cbn [length]; lia | by apply Hshift].
      * constructor; [done|]. eapply Forall_impl; [exact Hrange|].
        intros k Hk. simpl in Hk. lia.
      * intros csvs' ->. rewrite (Hret _ eq_refl), <- app_assoc. done.
    + cbn [ret] in H.
      apply IH in H as (evs2 & Ht3 & Hrange & Hsorted & Hret).
      exists ([EvLog (BatchBanner n total)] ++ evs1 ++ evs2).
      split; [by rewrite Ht3, Ht1, <- !app_assoc|].
      rewrite !completed_of_app, (completed_of_quiet evs1) by done.
      change (completed_of [EvLog (BatchBanner n total)]) with (@nil Z).
      cbn [app]. split; [by apply Hshift|]. split; [done|].
      intros csvs' ->. by rewrite (Hret _ eq_refl).
    + cbv [bind ret] in H. rewrite log_eq in H.
      apply IH in H as (evs2 & Ht3 & Hrange & Hsorted & Hret).
      cbn [advance with_sent with_trace trace] in Ht3.
      exists ([EvLog (BatchBanner n total)] ++ evs1
              ++ [EvLog (BatchFailed n e)] ++ evs2).
      split; [by rewrite Ht3, Ht1, <- !app_assoc|].
      rewrite !completed_of_app, (completed_of_quiet evs1) by done.
      change (completed_of [EvLog (BatchBanner n total)]) with (@nil Z).
      change (completed_of [EvLog (BatchFailed n e)]) with (@nil Z).
      cbn [app]. split; [by apply Hshift|]. split; [done|].
      intros csvs' ->. by rewrite (Hret _ eq_refl).
    + injection H as <- <-.
      exists ([EvLog (BatchBanner n total)] ++ evs1).
      split; [by rewrite Ht1, <- !app_assoc|].
      rewrite !completed_of_app, (completed_of_quiet evs1) by done.
      change (completed_of [EvLog (BatchBanner n total)]) with (@nil Z).
      cbn [app]. repeat split; try done; constructor.
Qed.

End Batch_files.

(** X11.  The loop over the batches returns one file for each batch that
    was completed and no other: the files [batch_NNN.csv] of the output
    directory, [NNN] being the numbers of the completed batches, in
    ascending order and within [1..len(batches)]. *)
Theorem batch_loop_files :
  forall (fuel : nat) (cfg : Ren3Config) (processed_dir : Path)
         (batches : list (list Path)) (w : World)
         (csv_files : list Path) (w' : World),
    batch_loop fuel cfg processed_dir (Z.of_nat (length batches)) 1 batches [] w
    = (Ret csv_files, w') ->
    exists evs,
      trace w' = trace w ++ evs
      /\ csv_files = map (csv_path_of processed_dir) (completed_of evs)
      /\ Forall (fun k => 1 <= k <= Z.of_nat (length batches)) (completed_of evs)
      /\ StronglySorted Z.lt (completed_of evs).
Proof.
  intros fuel cfg processed_dir batches w csv_files w' H.
  apply batch_loop_csvs in H as (evs & Ht & Hrange & Hsorted & Hret).
  exists evs. split; [done|]. split; [by apply Hret|]. split; [|done].
  eapply Forall_impl; [exact Hrange|]. intros k Hk. simpl in Hk. lia.
Qed.

Lemma batch_loop_files_witness :
  exists evs,
    trace (batch_loop 3 (config_of 1 15 3) ["processed"; "promo_1"] 2 1
             [[["output"; "promo_1"; "a.json"]]; [["output"; "promo_1"; "b.json"]]]
             [] two_batch_world).2
    = trace two_batch_world ++ evs
    /\ [["processed"; "promo_1"; "batch_002.csv"]]
       = map (csv_path_of ["processed"; "promo_1"]) (completed_of evs)
    /\ Forall (fun k => 1 <= k <= 2) (completed_of evs)
    /\ StronglySorted Z.lt (completed_of evs).
Proof.
  apply (batch_loop_files 3 (config_of 1 15 3) ["processed"; "promo_1"]
           [[["output"; "promo_1"; "a.json"]]; [["output"; "promo_1"; "b.json"]]]
           two_batch_world).
  vm_compute. reflexivity.
Defined.

(** * The folder pipeline: a batch size that is not positive *)

Section Bad_batch_size.

Lemma create_batches_nonpositive {A : Type} (B : Z) (l : list A) :
  B <= 0 -> create_batches B l = Err ValueError \/ create_batches B l = Ok [].
Proof.
  intros HB. unfold create_batches.
  destruct (decide (B = 0)) as [->|Hne]; [by left|].
  right. by rewrite range_negative_step by lia.
Qed.

Lemma path_exists_eq (p : Path) (w : World) :
  path_exists p w
  = (Ret (bool_decide (is_Some (dirs w !! p))
          || bool_decide (is_Some (files w !! p))), w).
Proof. reflexivity. Qed.

(** With a batch size that is not positive the folder pipeline gives no
    result and contacts nobody. *)
Lemma process_promo_folder_nonpositive fuel cfg path w o w' :
  batch_size cfg <= 0 ->
  process_promo_folder fuel cfg path w = (o, w') ->
  (o = Ret None \/ exists e, o = Raise e)
  /\ sent w' = sent w /\ files w' = files w
  /\ exists evs, trace w' = trace w ++ evs
                 /\ requests_of evs = [] /\ sleeps_of evs = [].
Proof.
  intros HB H. unfold process_promo_folder in H.
  unfold bind at 1 in H. rewrite path_exists_eq in H.
  destruct (bool_decide _ || bool_decide _); cbn [negb] in H.
  2:{ unfold bind in H. rewrite log_eq in H. injection H as <- <-.
      split; [by left|]. repeat split. by eexists. }
  unfold bind at 1 in H.
  destruct (mkdir _ w) as [[[]|e|] w0] eqn:Hmk;
    [| | by apply mkdir_diverge in Hmk];
    apply mkdir_made in Hmk as (d & -> & _).
  2:{ injection H as <- <-. split; [right; by eexists|]. repeat split.
      exists []. by rewrite app_nil_r. }
  unfold try_except, try_catch, bind at 1 in H;
    rewrite get_json_files_eq in H;
    destruct (merge_sort path_le _) as [|f fs];
    [ unfold bind in H; rewrite log_eq in H; injection H as <- <-;
      split; [by left|]; repeat split; by eexists
    | unfold bind at 1 in H;
      destruct (create_batches_nonpositive (batch_size cfg) (f :: fs) HB)
        as [Hb|Hb]; rewrite Hb in H; cbn [of_result] in H;
      [ unfold raise at 1 in H; unfold bind in H; rewrite log_eq in H;
        injection H as <- <-; split; [by left|]; repeat split; by eexists
      | unfold ret at 1 in H; cbn [length batch_loop] in H;
        unfold bind at 1, ret at 1 in H; unfold bind in H;
        rewrite log_eq in H; injection H as <- <-;
        split; [by left|]; repeat split; by eexists ] ].
Qed.

End Bad_batch_size.

(** X12.  With a batch size that is not positive every run fails: [main]
    exits with code 1 without sending a request, waiting, or writing a
    file, whatever the folder holds. *)
Theorem nonpositive_batch_size_fails :
  forall (fuel : nat) (argv : list string) (env : environ) (cfg : Ren3Config)
         (w : World),
    Ren3Config_init env = Ok cfg ->
    batch_size cfg <= 0 ->
    exists w' evs,
      main fuel argv env w = (Ret 1, w')
      /\ trace w' = trace w ++ evs
      /\ requests_of evs = [] /\ sleeps_of evs = []
      /\ sent w' = sent w /\ files w' = files w.
Proof.
  intros fuel argv env cfg w Hcfg HB. unfold main.
  destruct argv as [|prog [|path rest]].
  1,2: exists w, []; rewrite app_nil_r; by repeat split.
  unfold try_except, try_catch, bind at 1. rewrite Hcfg. cbn [of_result].
  unfold ret at 1. unfold bind at 1.
  destruct (process_promo_folder fuel cfg path w) as [o w1] eqn:Hrun.
  apply (process_promo_folder_nonpositive _ _ _ _ _ _ HB) in Hrun
    as ([-> | [e ->]] & Hsent & Hfiles & evs & Ht & Hreq & Hsl).
  - exists w1, evs. by repeat split.
  - unfold bind. rewrite log_eq.
    eexists _, (evs ++ [EvLog (FatalError e)]).
    split; [done|]. cbn [advance with_sent with_trace trace sent files].
    rewrite requests_of_app, sleeps_of_app, Hreq, Hsl, Ht, Hsent, Hfiles.
    by rewrite <- app_assoc.
Qed.

Lemma nonpositive_batch_size_fails_witness :
  exists w' evs,
    main 3 ["ren3_processor.py"; "output/promo_1"]
      (<["BATCH_SIZE" := "0"]> base_env) two_batch_world = (Ret 1, w')
    /\ trace w' = trace two_batch_world ++ evs
    /\ requests_of evs = [] /\ sleeps_of evs = []
    /\ sent w' = sent two_batch_world /\ files w' = files two_batch_world.
Proof.
  apply (nonpositive_batch_size_fails 3 ["ren3_processor.py"; "output/promo_1"]
           (<["BATCH_SIZE" := "0"]> base_env) (config_of 0 15 3) two_batch_world).
  - vm_compute. reflexivity.
  - simpl. lia.
Defined.

(** * The body of a batch: what a completed batch has seen *)

Section Completed_batch.
Context (fuel : nat) (cfg : Ren3Config) (processed_dir : Path).

Lemma download_csv_returns doc_uuid output_path w p w' :
  download_csv cfg doc_uuid output_path w = (Ret p, w') ->
  exists content json,
    service w (sent w) = Reply content json
    /\ w' = written output_path (Bytes content)
              (advance 1 [EvRequest (download_request cfg doc_uuid);
                          EvWrite output_path] w).
Proof.
  destruct (service w (sent w)) as [content json| |partial] eqn:Hs.
  - rewrite (download_csv_ok cfg doc_uuid output_path w content json Hs).
    intros [= _ <-]. by exists content, json.
  - by rewrite (download_csv_fail cfg doc_uuid output_path w Hs).
  - by rewrite (download_csv_truncated cfg doc_uuid output_path w partial Hs).
Qed.

Lemma steps_sent w w' : steps w w' -> (sent w <= sent w')%nat.
Proof. by intros (_ & _ & ? & _). Qed.

Lemma steps_service w w' : steps w w' -> service w' = service w.
Proof. by intros (? & _). Qed.

End Completed_batch.

(** X13.  A batch ends with a path only when the job was seen completed:
    some answer before the last one of the batch signalled completion; the
    path is [batch_NNN.csv] of the output directory, and the file there
    holds the body of the last answer of the batch. *)
Theorem batch_completed_after_completion :
  forall (fuel : nat) (cfg : Ren3Config) (processed_dir : Path) (batch_num : Z)
         (batch : list Path) (w : World) (p : Path) (w' : World),
    process_batch fuel cfg processed_dir batch_num batch w = (Ret (Some p), w') ->
    p = csv_path_of processed_dir batch_num
    /\ (exists k, (sent w <= k)%nat /\ (S k < sent w')%nat
                  /\ signals_completion (service w k) = true)
    /\ exists content json,
         service w (sent w' - 1) = Reply content json
         /\ files w' !! p = Some (Bytes content).
Proof.
  intros fuel cfg processed_dir n batch w p w' H.
  split; [by eapply process_batch_path|].
  unfold process_batch in H.
  apply bind_ret_inv in H as (temp & w1 & H1%safe_fresh_uuid & H).
  apply bind_ret_inv in H as (? & w2 & H2%safe_upload_files & H).
  apply bind_ret_inv in H as (? & w3 & H3%safe_sleep & H).
  apply bind_ret_inv in H as (inputs & w4 & H4%safe_get_job_input_files & H).
  apply bind_ret_inv in H as (job_id & w5 & H5%safe_run_agent & H).
  apply bind_ret_inv in H as (b & w6 & H6 & H).
  apply bind_ret_inv in H as (details & w7 & H7%safe_get_job_details & H).
  apply bind_ret_inv in H as (folder & w8 & H8%safe_of_result & H).
  apply bind_ret_inv in H as (listing & w9 & H9%safe_get_output_files & H).
  apply bind_ret_inv in H as (csv & w10 & H10%safe_of_result & H).
  destruct csv as [d|].
  2:{ by apply bind_ret_inv in H as (? & ? & _ & H). }
  apply bind_ret_inv in H as (? & w11 & H11 & H).
  unfold bind in H. rewrite log_eq in H. injection H as <- <-.
  apply download_csv_returns in H11 as (content & json & Hanswer & ->).
  pose proof (safe_poll_job_status _ _ _ _ _ _ H6) as H6s.
  apply poll_loop_returns in H6 as (_ & k & Hk & Hdone).
  assert (Hw5 : steps w w5) by eauto 6 using steps_trans.
  assert (Hw10 : steps w6 w10) by eauto 6 using steps_trans.
  pose proof (steps_sent _ _ Hw5). pose proof (steps_sent _ _ Hw10).
  rewrite (steps_service _ _ Hw5) in Hdone.
  split.
  - exists k. cbn [sent advance written with_dirs with_sent with_trace with_files].
    repeat split; [lia | lia | done].
  - exists content, json.
    cbn [sent files advance written with_dirs with_sent with_trace with_files].
    split; [|apply lookup_insert_eq].
    replace (0 + (1 + sent w10) - 1)%nat with (sent w10) by lia.
    rewrite <- Hanswer.
    assert (Hall : steps w w10).
    { eapply steps_trans; [exact Hw5|]. eapply steps_trans; [|exact Hw10].
      exact H6s. }
    by rewrite (steps_service _ _ Hall).
Qed.

Lemma batch_completed_after_completion_witness :
  ["processed"; "promo_1"; "batch_002.csv"]
  = csv_path_of ["processed"; "promo_1"] 2
  /\ (exists k,
        (sent (world_of one_batch_script ∅ ∅) <= k)%nat
        /\ (S k < sent (process_batch 3 (config_of 30 15 3) ["processed"; "promo_1"] 2
                      [["output"; "promo_1"; "b.json"]]
                      (world_of one_batch_script ∅ ∅)).2)%nat
        /\ signals_completion (service (world_of one_batch_script ∅ ∅) k) = true)
  /\ exists content json,
       service (world_of one_batch_script ∅ ∅)
         (sent (process_batch 3 (config_of 30 15 3) ["processed"; "promo_1"] 2
                  [["output"; "promo_1"; "b.json"]]
                  (world_of one_batch_script ∅ ∅)).2 - 1)
       = Reply content json
       /\ files (process_batch 3 (config_of 30 15 3) ["processed"; "promo_1"] 2
                   [["output"; "promo_1"; "b.json"]]
                   (world_of one_batch_script ∅ ∅)).2
          !! ["processed"; "promo_1"; "batch_002.csv"]
          = Some (Bytes content).
Proof.
  apply (batch_completed_after_completion 3 (config_of 30 15 3)
           ["processed"; "promo_1"] 2 [["output"; "promo_1"; "b.json"]]
           (world_of one_batch_script ∅ ∅)).
  vm_compute. reflexivity.
Defined.

(** * The driver: proofs *)

Section Glob.

Lemma drop_chars_app (p r : string) : drop_chars (String.length p) (p +:+ r) = r.
Proof. induction p as [|a p IH]; [by destruct r|]. exact IH. Qed.

(** A name matches [prefix*suffix] when it is the prefix, anything, and
    the suffix. *)
Lemma glob_star_spec (prefix suffix name : string) :
  glob_star prefix suffix name = true
  <-> exists mid, name = prefix +:+ mid +:+ suffix.
Proof.
  unfold glob_star. rewrite andb_true_iff, startswith_spec. split.
  - intros [[r ->] He]. rewrite drop_chars_app in He.
    apply endswith_spec in He as [mid ->]. by exists mid.
  - intros [mid ->]. split; [by eexists|].
    rewrite drop_chars_app. apply endswith_spec. by exists mid.
Qed.

Lemma glob_star_prefix (prefix name : string) :
  glob_star prefix "" name = Py.startswith prefix name.
Proof.
  apply eq_true_iff_eq. rewrite glob_star_spec, startswith_spec.
  split; intros [r ->]; exists r; by rewrite ?append_nil_r.
Qed.

Lemma glob_promo (dir : Path) (names : list string) :
  map (path_join dir) (filter (fun n => glob_star "promo_" "" n) names)
  = map (fun n => dir ++ [n]) (filter (fun n => Py.startswith "promo_" n) names).
Proof.
  induction names as [|n names IH]; [done|].
  rewrite !filter_cons, glob_star_prefix.
  destruct (decide (Py.startswith "promo_" n)) as [Hn|Hn]; [|exact IH].
  cbn [map]. rewrite IH. f_equal. unfold path_join.
  by destruct (decide (n = "")) as [->|].
Qed.

Lemma glob_pattern_eq dir prefix suffix w :
  RunProcessor.glob_pattern dir prefix suffix w
  = (Ret (match dirs w !! dir with
          | Some names =>
              map (path_join dir)
                (filter (fun n => glob_star prefix suffix n) names)
          | None => []
          end), w).
Proof. reflexivity. Qed.

End Glob.

Section Newest.

Local Abbreviation sorted := RunProcessor.sort_newest_first.

Lemma sort_newest_first_nil (l : list (Path * Z)) : sorted l = [] -> l = [].
Proof.
  destruct l as [|x l]; [done|].
  change (sorted (x :: l)) with (RunProcessor.insert_newest x (sorted l)).
  destruct (sorted l) as [|y s]; [done|]. cbn [RunProcessor.insert_newest].
  by destruct (y.2 <=? x.2).
Qed.

(** The head of the sorted list: the first of the folders that no folder
    is newer than. *)
Lemma sort_newest_first_head (l : list (Path * Z)) (x : Path * Z) :
  head (sorted l) = Some x ->
  exists before after,
    l = before ++ x :: after
    /\ Forall (fun y => y.2 < x.2) before
    /\ Forall (fun y => y.2 <= x.2) after.
Proof.
  revert x. induction l as [|a l IH]; intros x Hx; [done|].
  change (sorted (a :: l)) with (RunProcessor.insert_newest a (sorted l)) in Hx.
  destruct (sorted l) as [|y s] eqn:Hs.
  - apply sort_newest_first_nil in Hs as ->. injection Hx as <-.
    by exists [], [].
  - destruct (IH y eq_refl) as (before & after & -> & Hb & Ha).
    cbn [RunProcessor.insert_newest] in Hx.
    destruct (Z.leb_spec y.2 a.2) as [Hle|Hlt]; injection Hx as <-.
    + exists [], (before ++ y :: after). split; [done|]. split; [done|].
      apply Forall_app. split; [|constructor].
      * eapply Forall_impl; [exact Hb|]. intros z Hz. simpl in Hz. lia.
      * done.
      * eapply Forall_impl; [exact Ha|]. intros z Hz. simpl in Hz. lia.
    + exists (a :: before), after. split; [done|]. split; [|done].
      constructor; [lia | done].
Qed.

Lemma sort_newest_first_some (l : list (Path * Z)) :
  l <> [] -> exists x, head (sorted l) = Some x.
Proof.
  intros Hl. destruct (sorted l) as [|x s] eqn:Hs; [|by exists x].
  by apply sort_newest_first_nil in Hs.
Qed.

Context (st_mtime : Path -> result Z).

(** The keys, when every folder can be examined. *)
Lemma sort_keys_ok (l : list Path) (keyed : list (Path * Z)) :
  RunProcessor.sort_keys st_mtime l = Ok keyed ->
  l = keyed.*1 /\ Forall (fun xt => st_mtime xt.1 = Ok xt.2) keyed.
Proof.
  revert keyed. induction l as [|x l IH]; intros keyed H; cbn in H.
  - by injection H as <-.
  - destruct (st_mtime x) as [t|e] eqn:Hx; [|done].
    destruct (RunProcessor.sort_keys st_mtime l) as [keyed'|e]; [|done].
    injection H as <-. destruct (IH keyed' eq_refl) as [-> Hall].
    split; [done|]. by constructor.
Qed.

Lemma keyed_forall (R : Z -> Prop) (keyed : list (Path * Z)) :
  Forall (fun xt => st_mtime xt.1 = Ok xt.2) keyed ->
  Forall (fun xt => R xt.2) keyed ->
  Forall (fun q => exists u, st_mtime q = Ok u /\ R u) keyed.*1.
Proof.
  intros Hkeys HR. apply Forall_fmap.
  eapply Forall_impl; [apply Forall_and; split; [exact Hkeys | exact HR]|].
  intros [y u] [Hy Hu]. exists u. by split.
Qed.

(** The error of the sort is the one of the first folder that cannot be
    examined. *)
Lemma sort_keys_err (l : list Path) (e : exn) :
  RunProcessor.sort_keys st_mtime l = Err e ->
  exists before x after,
    l = before ++ x :: after
    /\ Forall (fun y => exists u, st_mtime y = Ok u) before
    /\ st_mtime x = Err e.
Proof.
  induction l as [|x l IH]; intros H; cbn in H; [done|].
  destruct (st_mtime x) as [t|e'] eqn:Hx.
  - destruct (RunProcessor.sort_keys st_mtime l) as [keyed'|e']; [done|].
    injection H as ->. destruct (IH eq_refl) as (before & y & after & -> & Hb & Hy).
    exists (x :: before), y, after. split; [done|]. split; [|done].
    constructor; [by exists t | done].
  - injection H as ->. by exists [], x, l.
Qed.

End Newest.

(** What [get_latest_promo_folder] returns or raises, and that it changes
    nothing. *)
Lemma get_latest_promo_folder_spec :
  forall (st_mtime : Path -> result Z) (w : World),
    let promo :=
      filter (fun n => Py.startswith "promo_" n)
        (default [] (dirs w !! RunProcessor.output_dir)) in
    exists o,
      RunProcessor.get_latest_promo_folder st_mtime w = (o, w)
      /\ (promo = [] -> o = Ret None)
      /\ match o with
         | Ret None => promo = []
         | Ret (Some p) =>
             exists before n after t,
               promo = before ++ n :: after
               /\ p = RunProcessor.output_dir ++ [n]
               /\ st_mtime p = Ok t
               /\ Forall (fun m => exists u,
                                     st_mtime (RunProcessor.output_dir ++ [m]) = Ok u
                                     /\ u < t) before
               /\ Forall (fun m => exists u,
                                     st_mtime (RunProcessor.output_dir ++ [m]) = Ok u
                                     /\ u <= t) after
         | Raise e =>
             exists before n after,
               promo = before ++ n :: after
               /\ st_mtime (RunProcessor.output_dir ++ [n]) = Err e
               /\ Forall (fun m => exists u,
                                     st_mtime (RunProcessor.output_dir ++ [m]) = Ok u)
                         before
         | Diverge => False
         end.
Proof.
  intros st_mtime w promo.
  unfold RunProcessor.get_latest_promo_folder. unfold bind at 1.
  rewrite glob_pattern_eq.
  assert (Hglob :
    match dirs w !! RunProcessor.output_dir with
    | Some names =>
        map (path_join RunProcessor.output_dir)
          (filter (fun n => glob_star "promo_" "" n) names)
    | None => []
    end = map (fun n => RunProcessor.output_dir ++ [n]) promo).
  { unfold promo. destruct (dirs w !! RunProcessor.output_dir) as [names|]; [|done].
    apply glob_promo. }
  rewrite Hglob. clear Hglob. clearbody promo.
  destruct promo as [|n0 promo0]; [by exists (Ret None)|].
  change (map (fun n => RunProcessor.output_dir ++ [n]) (n0 :: promo0))
    with ((RunProcessor.output_dir ++ [n0])
          :: map (fun n => RunProcessor.output_dir ++ [n]) promo0).
  cbv iota beta.
  change ((RunProcessor.output_dir ++ [n0])
          :: map (fun n => RunProcessor.output_dir ++ [n]) promo0)
    with (map (fun n => RunProcessor.output_dir ++ [n]) (n0 :: promo0)).
  unfold bind.
  destruct (RunProcessor.sort_keys st_mtime
              (map (fun n => RunProcessor.output_dir ++ [n]) (n0 :: promo0)))
    as [keyed|e] eqn:Hkeys; cbn [of_result ret raise].
  - apply sort_keys_ok in Hkeys as [Hl Hall].
    destruct (sort_newest_first_some keyed) as [[p t] Hp].
    { intros ->. done. }
    rewrite Hp. exists (Ret (Some p)). split; [done|]. split; [done|].
    apply sort_newest_first_head in Hp as (before & after & -> & Hb & Ha).
    rewrite fmap_app, fmap_cons in Hl.
    change (map (fun n => RunProcessor.output_dir ++ [n]) (n0 :: promo0)
            = before.*1 ++ p :: after.*1) in Hl.
    apply map_eq_app in Hl as (before' & rest & Hpromo & Hbefore & Hrest).
    apply map_eq_cons in Hrest as (n & after' & -> & Hn & Hafter).
    exists before', n, after', t. split; [done|].
    apply Forall_app in Hall as [Hallb Hallrest].
    apply Forall_cons in Hallrest as [Hpt Halla]. cbn [fst snd] in Hpt, Hn.
    split; [done|]. split; [done|]. split.
    + pose proof (keyed_forall st_mtime (fun u => u < t) before Hallb Hb) as Hfb.
      rewrite <- Hbefore in Hfb. exact (proj1 (List.Forall_map _ _ _) Hfb).
    + pose proof (keyed_forall st_mtime (fun u => u <= t) after Halla Ha) as Hfa.
      rewrite <- Hafter in Hfa. exact (proj1 (List.Forall_map _ _ _) Hfa).
  - apply sort_keys_err in Hkeys as (before & x & after & Hl & Hb & Hx).
    exists (Raise e). split; [done|]. split; [done|].
    change (map (fun n => RunProcessor.output_dir ++ [n]) (n0 :: promo0)
            = before ++ x :: after) in Hl.
    apply map_eq_app in Hl as (before' & rest & Hpromo & Hbefore & Hrest).
    apply map_eq_cons in Hrest as (n & after' & -> & Hn & Hafter).
    exists before', n, after'. split; [done|]. split; [by rewrite Hn|].
    rewrite <- Hbefore in Hb. exact (proj1 (List.Forall_map _ _ _) Hb).
Qed.

(** X14.  [get_latest_promo_folder] changes nothing.  It returns nothing
    exactly when no entry of [/app/output] has a name that starts with
    [promo_].  Otherwise it asks for the modification time of every such
    entry, in scan order: when an entry cannot be examined it raises the
    error of the first one that cannot; when all can, it returns the entry
    with the latest modification time, the first in scan order when several
    have it. *)
Theorem get_latest_promo_folder_newest :
  forall (st_mtime : Path -> result Z) (w : World),
    let promo :=
      filter (fun n => Py.startswith "promo_" n)
        (default [] (dirs w !! RunProcessor.output_dir)) in
    exists o,
      RunProcessor.get_latest_promo_folder st_mtime w = (o, w)
      /\ (promo = [] -> o = Ret None)
      /\ match o with
         | Ret None => promo = []
         | Ret (Some p) =>
             exists before n after t,
               promo = before ++ n :: after
               /\ p = RunProcessor.output_dir ++ [n]
               /\ st_mtime p = Ok t
               /\ Forall (fun m => exists u,
                                     st_mtime (RunProcessor.output_dir ++ [m]) = Ok u
                                     /\ u < t) before
               /\ Forall (fun m => exists u,
                                     st_mtime (RunProcessor.output_dir ++ [m]) = Ok u
                                     /\ u <= t) after
         | Raise e =>
             exists before n after,
               promo = before ++ n :: after
               /\ st_mtime (RunProcessor.output_dir ++ [n]) = Err e
               /\ Forall (fun m => exists u,
                                     st_mtime (RunProcessor.output_dir ++ [m]) = Ok u)
                         before
         | Diverge => False
         end.
Proof. apply get_latest_promo_folder_spec. Qed.

Section Already_processed.

(** What [check_if_already_processed] returns, and that it changes
    nothing. *)
Lemma check_if_already_processed_spec (promo_folder : Path) (w : World) :
  exists b,
    RunProcessor.check_if_already_processed promo_folder w = (Ret b, w)
    /\ (b = true
        <-> exists names n,
              dirs w !! path_join RunProcessor.processed_root (path_name promo_folder)
              = Some names
              /\ n ∈ names
              /\ exists stamp, n = "final_analysis_" +:+ stamp +:+ ".xlsx").
Proof.
  unfold RunProcessor.check_if_already_processed. cbv zeta.
  set (processed_dir := path_join RunProcessor.processed_root (path_name promo_folder)).
  unfold bind at 1. rewrite path_exists_eq.
  destruct (dirs w !! processed_dir) as [names|] eqn:Hd.
  - cbn [orb bool_decide]. rewrite bool_decide_eq_true_2 by by eexists.
    cbn [orb]. unfold bind. rewrite glob_pattern_eq, Hd.
    destruct (filter (fun n => glob_star "final_analysis_" ".xlsx" n) names)
      as [|n ns] eqn:Hf; cbn [map]; unfold ret.
    + exists false. split; [done|]. split; [done|].
      intros (names' & n & [= <-] & Hn & Hstamp).
      assert (n ∈ filter (fun n => glob_star "final_analysis_" ".xlsx" n) names) as Hin.
      { apply list_elem_of_filter. split; [|done].
        apply Is_true_true. by apply glob_star_spec. }
      rewrite Hf in Hin. by apply elem_of_nil in Hin.
    + exists true. split; [done|]. split; [intros _|done].
      assert (n ∈ filter (fun n => glob_star "final_analysis_" ".xlsx" n) names) as Hin.
      { rewrite Hf. by left. }
      apply list_elem_of_filter in Hin as [Hg Hn].
      apply Is_true_true, glob_star_spec in Hg. by exists names, n.
  - assert (Hno : ~ exists names n,
                      @None (list string) = Some names /\ n ∈ names
                      /\ exists stamp, n = "final_analysis_" +:+ stamp +:+ ".xlsx").
    { by intros (? & ? & ? & _). }
    rewrite bool_decide_eq_false_2 by by intros [? ?].
    cbn [orb]. destruct (bool_decide (is_Some (files w !! processed_dir))).
    + unfold bind. rewrite glob_pattern_eq, Hd. unfold ret.
      exists false. by split.
    + exists false. by split.
Qed.

End Already_processed.

(** X15.  [check_if_already_processed] changes nothing; it answers true
    exactly when [/app/processed/<name of the folder>] is a directory with
    an entry named [final_analysis_*.xlsx]. *)
Theorem check_if_already_processed_iff :
  forall (promo_folder : Path) (w : World),
  exists b,
    RunProcessor.check_if_already_processed promo_folder w = (Ret b, w)
    /\ (b = true
        <-> exists names n,
              dirs w !! path_join RunProcessor.processed_root (path_name promo_folder)
              = Some names
              /\ n ∈ names
              /\ exists stamp, n = "final_analysis_" +:+ stamp +:+ ".xlsx").
Proof. apply check_if_already_processed_spec. Qed.

(** X16.  The search for the newest folder comes before the [try] of the
    driver: the driver raises exactly when the search does, the same
    error, and then it has changed nothing.  Without a promo folder it
    exits with code 1, and with a newest folder that is already processed
    with code 0, in both cases without sending a request or touching the
    disk; otherwise it exits as the processor does on that folder: with
    code 0 exactly when some batch was completed, the workbook then being
    on disk. *)
Theorem driver_main_exit_code :
  forall (fuel : nat) (st_mtime : Path -> result Z) (env : environ) (w : World)
         (o : outcome Z) (w' : World),
    RunProcessor.main fuel st_mtime env w = (o, w') ->
    (forall e,
        o = Raise e
        <-> (RunProcessor.get_latest_promo_folder st_mtime w).1 = Raise e)
    /\ (forall e, o = Raise e -> w' = w)
    /\ ((RunProcessor.get_latest_promo_folder st_mtime w).1 = Ret None ->
        o = Ret 1 /\ w' = w)
    /\ forall p,
         (RunProcessor.get_latest_promo_folder st_mtime w).1 = Ret (Some p) ->
         ((RunProcessor.check_if_already_processed p w).1 = Ret true ->
          o = Ret 0 /\ w' = w)
         /\ ((RunProcessor.check_if_already_processed p w).1 = Ret false ->
             main fuel ["run_processor.py"; path_to_string p] env w = (o, w')
             /\ exists evs,
                  trace w' = trace w ++ evs
                  /\ ((o = Ret 1 /\ ~ completed evs)
                      \/ (o = Ret 0 /\ completed evs
                          /\ exists out table,
                               EvWrite out ∈ evs
                               /\ files w' !! out = Some (Workbook table))
                      \/ o = Diverge)).
Proof.
  intros fuel st_mtime env w o w' H.
  unfold RunProcessor.main in H. unfold bind at 1 in H.
  destruct (get_latest_promo_folder_spec st_mtime w) as (latest & Hl & _ & Hlatest).
  rewrite Hl in H |- *. cbn [fst].
  destruct latest as [[p|]|e0|]; [| | |done].
  3:{ injection H as <- <-. split; [|by repeat split].
      intros e. split; by intros [= ->]. }
  2:{ injection H as <- <-. split; [by intros e|]. split; [done|].
      split; [done|]. by intros p. }
  unfold bind at 1 in H.
  destruct (check_if_already_processed_spec p w) as (b & Hb & _).
  rewrite Hb in H.
  destruct b.
  { injection H as <- <-. split; [by intros e|]. split; [done|]. split; [done|].
    intros p' [= <-]. rewrite Hb. by split. }
  apply (main_cases fuel ["run_processor.py"; path_to_string p] env w o w') in H
    as Hcases.
  destruct Hcases as (evs & Ht & Hcases).
  assert (Hnr : forall e, o <> Raise e).
  { intros e ->. by destruct Hcases as [[? _]|[[? _]|?]]. }
  split; [intros e; split; [by intros ?%Hnr | done]|].
  split; [by intros e ?%Hnr|].
  split; [done|]. intros p' [= <-]. rewrite Hb. split; [done|]. intros _.
  split; [exact H|]. exists evs. split; [done|].
  destruct Hcases as [(? & ? & _)|[(? & ? & _ & ?)|?]]; auto.
Qed.

(** A driver run on a machine where the newest promo entry is a link to
    nothing. *)
Lemma driver_main_exit_code_witness :
  (RunProcessor.main 3 (fun _ => Err FileNotFoundError) base_env
     (world_of service_down {[ RunProcessor.output_dir := ["promo_2"] ]} ∅)).1
  = Raise FileNotFoundError
  /\ (RunProcessor.main 3 (fun _ => Ok 0) base_env
        (world_of service_down ∅ ∅)).1 = Ret 1.
Proof.
  split.
  - eapply (driver_main_exit_code 3 (fun _ => Err FileNotFoundError) base_env
              (world_of service_down {[ RunProcessor.output_dir := ["promo_2"] ]} ∅)).
    + apply surjective_pairing.
    + reflexivity.
  - eapply (driver_main_exit_code 3 (fun _ => Ok 0) base_env
              (world_of service_down ∅ ∅)).
    + apply surjective_pairing.
    + reflexivity.
Defined.

(** * Paths: from a path to its text and back *)

Section Round_trip.

Lemma rev_app_rev_app (a cur t : string) :
  String.rev_app (String.rev_app a cur) t = String.rev_app cur (a +:+ t).
Proof.
  revert cur t. induction a as [|c a IH]; intros cur t; [done|].
  cbn [String.rev_app]. by rewrite IH.
Qed.

Lemma no_separator_cons (c : ascii) (a : string) :
  Py.contains "/" (String c a) = false ->
  c <> "/"%char /\ Py.contains "/" a = false.
Proof.
  cbn [Py.contains Py.startswith].
  destruct (decide ("/"%char = c)) as [<-|Hc]; [done|].
  intros H. split; [congruence | done].
Qed.

(** Reading a part: the characters go to the accumulator. *)
Lemma split_path_part (a : string) : forall cur rest,
  Py.contains "/" a = false ->
  split_path cur (a +:+ rest) = split_path (String.rev_app a cur) rest.
Proof.
  induction a as [|c a IH]; intros cur rest Ha; [done|].
  apply no_separator_cons in Ha as [Hc Ha].
  rewrite append_cons. cbn [split_path String.rev_app].
  rewrite decide_False by done. by apply IH.
Qed.

Lemma split_path_join (parts : list string) :
  parts <> [] ->
  Forall (fun a => Py.contains "/" a = false) parts ->
  split_path "" (join_parts parts) = parts.
Proof.
  induction parts as [|a [|b rest] IH]; intros Hne Hparts; [done| |].
  - apply Forall_cons in Hparts as [Ha _]. cbn [join_parts].
    rewrite <- (append_nil_r a), split_path_part by done.
    cbn [split_path]. unfold String.rev.
    by rewrite rev_app_rev_app, append_nil_r.
  - apply Forall_cons in Hparts as [Ha Hrest].
    change (join_parts (a :: b :: rest))
      with (a +:+ String "/" (join_parts (b :: rest))).
    rewrite split_path_part by done. cbn [split_path].
    rewrite decide_True by done. unfold String.rev at 1.
    rewrite rev_app_rev_app, append_nil_r. f_equal.
    cbn [String.rev_app]. by apply IH.
Qed.

Lemma filter_parts (parts : list string) :
  Forall is_part parts ->
  filter (fun c => c <> "" /\ c <> ".") parts = parts.
Proof.
  induction 1 as [|a parts (Ha1 & Ha2 & _) _ IH]; [done|].
  rewrite filter_cons, decide_True by done. by rewrite IH.
Qed.

Lemma parts_no_separator (parts : list string) :
  Forall is_part parts -> Forall (fun a => Py.contains "/" a = false) parts.
Proof. intros H. eapply Forall_impl; [exact H|]. by intros a (_ & _ & ?). Qed.

Lemma join_parts_relative (a : string) (rest : list string) :
  is_part a -> Py.startswith "/" (join_parts (a :: rest)) = false.
Proof.
  intros (Ha1 & _ & Ha3). destruct a as [|c a]; [done|].
  apply no_separator_cons in Ha3 as [Hc _].
  destruct rest as [|b rest]; cbn [join_parts]; rewrite ?append_cons;
    cbn [Py.startswith]; by rewrite decide_False by congruence.
Qed.

Lemma Path_of_string_to_string (p : Path) :
  well_formed p -> Path_of_string (path_to_string p) = p.
Proof.
  unfold well_formed, Path_of_string, path_to_string.
  destruct p as [|a rest]; [done|].
  destruct (decide (a = "/")) as [->|Hroot]; intros Hparts.
  - change (Py.startswith "/" ("/" +:+ join_parts rest)) with true.
    cbn iota. f_equal.
    change (split_path "" ("/" +:+ join_parts rest))
      with ("" :: split_path "" (join_parts rest)).
    rewrite filter_cons, decide_False by (by intros [? _]).
    destruct rest as [|b rest]; [done|].
    rewrite split_path_join by (done || by apply parts_no_separator).
    by apply filter_parts.
  - apply Forall_cons in Hparts as Hcons. destruct Hcons as [Ha _].
    rewrite join_parts_relative by done.
    rewrite split_path_join by (done || by apply parts_no_separator).
    by apply filter_parts.
Qed.

End Round_trip.

(** X17.  Turning a path into text with [str] and the text into a path
    with [Path] gives the path back; so the processor, which gets the
    folder from the driver as text, works on the folder the driver found
    and names its output directory after it. *)
Theorem path_round_trip :
  forall (p : Path),
    well_formed p ->
    Path_of_string (path_to_string p) = p
    /\ forall n,
         p = RunProcessor.output_dir ++ [n] ->
         path_join ["processed"] (path_name (Path_of_string (path_to_string p)))
         = ["processed"; n].
Proof.
  intros p Hp. rewrite Path_of_string_to_string by done. split; [done|].
  intros n ->. unfold path_name. rewrite last_snoc.
  unfold well_formed in Hp. cbn in Hp.
  apply Forall_cons in Hp as [_ Hp]. apply Forall_cons in Hp as [_ Hp].
  apply Forall_cons in Hp as [(Hn1 & _ & Hn3) _].
  rewrite decide_False by (by intros ->).
  unfold path_join. by rewrite decide_False.
Qed.

Lemma path_round_trip_witness :
  Path_of_string (path_to_string ["/"; "app"; "output"; "promo_1"])
  = ["/"; "app"; "output"; "promo_1"]
  /\ forall n,
       ["/"; "app"; "output"; "promo_1"] = RunProcessor.output_dir ++ [n] ->
       path_join ["processed"]
         (path_name (Path_of_string (path_to_string ["/"; "app"; "output"; "promo_1"])))
       = ["processed"; n].
Proof.
  apply (path_round_trip ["/"; "app"; "output"; "promo_1"]).
  unfold well_formed. cbn. repeat constructor; done.
Defined.

(** * What a run does to the disk: proofs *)

Section Keeps.
Context (R : relation World) `{!Bookkeeping R}.













End Keeps.


Section Keeps_calls.
Context (R : relation World) `{!Bookkeeping R} (cfg : Ren3Config).













End Keeps_calls.

Section Footprint.
Context (dir : Path).

#[global] Instance writes_inside_bookkeeping : Bookkeeping (writes_inside dir).
Proof.
  split.
  - intros w. split; [done|]. split; [done | apply grows_refl].
  - intros w1 w2 w3 (Hf1 & Hd1 & Hg1) (Hf2 & Hd2 & Hg2). split; [|split].
    + intros p Hp. by rewrite Hf2, Hf1.
    + intros q Hq. by rewrite Hd2, Hd1.
    + by eapply grows_trans.
  - intros n evs w. split; [done|]. split; [done | apply grows_refl].
Qed.

Local Abbreviation R := (writes_inside dir).







Hypothesis Hdir : dir <> [].







End Footprint.

Section Folder_run.
Context (fuel : nat) (cfg : Ren3Config) (path : string).

Local Abbreviation promo_folder := (Path_of_string path).
Local Abbreviation processed_dir := (path_join ["processed"] (path_name promo_folder)).






End Folder_run.



(** * The folder pipeline: the exception that escapes *)

Section Escapes.
Context (w : World).








End Escapes.



(** * Upload: the request of a batch *)

(** X20.  The batches that [create_batches] makes for a positive batch
    size are all uploaded as multipart forms with the long timeout of 300
    seconds: none is empty, so none is sent as a JSON request. *)
Theorem upload_of_batch_is_multipart :
  forall (cfg : Ren3Config) (B : Z) (json_files : list Path)
         (batches : list (list Path)) (temp_folder_uuid : string),
    0 < B ->
    create_batches B json_files = Ok batches ->
    Forall (fun batch =>
              kind (api_request cfg "/upload_agenttmpfiles" temp_folder_uuid
                      batch POST) = Multipart
              /\ timeout (api_request cfg "/upload_agenttmpfiles" temp_folder_uuid
                            batch POST) = 300)
           batches.
Proof.
  intros cfg B l batches temp HB Hb.
  rewrite create_batches_chunks in Hb by done. injection Hb as <-.
  pose proof (ceil_div_bounds (Z.of_nat (length l)) B ltac:(lia) HB) as Hc.
  apply Forall_fmap, Forall_forall. intros k Hk.
  apply elem_of_seq in Hk. cbn [compose].
  destruct (chunk (Z.to_nat B) l k) as [|f fs] eqn:Hchunk; [|done].
  apply (f_equal length) in Hchunk. rewrite length_chunk in Hchunk.
  simpl in Hchunk. nia.
Qed.

Lemma upload_of_batch_is_multipart_witness :
  Forall (fun batch =>
            kind (api_request (config_of 1 15 3) "/upload_agenttmpfiles" "uuid-0"
                    batch POST) = Multipart
            /\ timeout (api_request (config_of 1 15 3) "/upload_agenttmpfiles"
                          "uuid-0" batch POST) = 300)
         [[["output"; "promo_1"; "a.json"]]; [["output"; "promo_1"; "b.json"]]].
Proof.
  apply (upload_of_batch_is_multipart (config_of 1 15 3) 1
           [["output"; "promo_1"; "a.json"]; ["output"; "promo_1"; "b.json"]]).
  - lia.
  - reflexivity.
Defined.

(** * The folder pipeline: what the workbook holds *)

Section Workbook.

Lemma csv_path_not_excel (processed_dir : Path) (k : Z) (stamp : string) :
  csv_path_of processed_dir k
  <> path_join processed_dir ("final_analysis_" +:+ stamp +:+ ".xlsx").
Proof.
  unfold csv_path_of, path_join. cbn [append].
  rewrite !decide_False by done.
  intros H. by apply app_inj_1 in H as [_ [=]].
Qed.

Lemma readable_rows_files (w w' : World) (csv_files : list Path) :
  read_csv w' = read_csv w ->
  (forall csv, csv ∈ csv_files -> files w' !! csv = files w !! csv) ->
  readable_rows w' csv_files = readable_rows w csv_files.
Proof.
  intros Hparser Hfiles. unfold readable_rows. do 2 f_equal.
  induction csv_files as [|csv rest IH]; [done|].
  assert (Hcsv : readable w' csv = readable w csv).
  { unfold readable. rewrite Hparser, Hfiles; [done | by left]. }
  change (omap (readable w') (csv :: rest))
    with (match readable w' csv with
          | Some df => df :: omap (readable w') rest
          | None => omap (readable w') rest
          end).
  change (omap (readable w) (csv :: rest))
    with (match readable w csv with
          | Some df => df :: omap (readable w) rest
          | None => omap (readable w) rest
          end).
  rewrite Hcsv, IH; [done|]. intros c Hc. apply Hfiles. by right.
Qed.

End Workbook.

(** X21.  When the folder pipeline gives a result, the workbook it wrote
    holds the rows of the files [batch_NNN.csv] of the completed batches,
    as they are on disk at the end of the run, batch after batch in
    ascending order of [NNN]; the files that cannot be read give no
    row. *)
Theorem workbook_rows_in_batch_order :
  forall (fuel : nat) (cfg : Ren3Config) (path : string) (w : World)
         (out : Path) (w' : World),
    process_promo_folder fuel cfg path w = (Ret (Some out), w') ->
    let processed_dir := path_join ["processed"] (path_name (Path_of_string path)) in
    exists evs table,
      trace w' = trace w ++ evs
      /\ files w' !! out = Some (Workbook table)
      /\ rows table
         = readable_rows w' (map (csv_path_of processed_dir) (completed_of evs))
      /\ completed_of evs <> []
      /\ StronglySorted Z.lt (completed_of evs).
Proof.
  intros fuel cfg path w out w' H processed_dir.
  unfold process_promo_folder in H. fold processed_dir in H.
  unfold bind at 1 in H. rewrite path_exists_eq in H.
  destruct (bool_decide _ || bool_decide _); cbn [negb] in H.
  2:{ unfold bind in H. by rewrite log_eq in H. }
  unfold bind at 1 in H.
  assert (exists w0, trace w0 = trace w /\
            try_except
              (json_files <- get_json_files (Path_of_string path) ;;
               match json_files with
               | [] => log NoJsonFiles ;;; ret None
               | _ :: _ =>
                   batches <- of_result (create_batches (batch_size cfg) json_files) ;;
                   csv_files <- batch_loop fuel cfg processed_dir
                                  (Z.of_nat (length batches)) 1 batches [] ;;
                   match csv_files with
                   | _ :: _ =>
                       stamp <- timestamp ;;
                       let final_excel :=
                         path_join processed_dir
                           ("final_analysis_" +:+ stamp +:+ ".xlsx") in
                       _ <- combine_csvs csv_files final_excel ;;
                       ret (Some final_excel)
                   | [] => log NoBatchSucceeded ;;; ret None
                   end
               end)
              (fun e => log (ProcessingFailed e) ;;; ret None) w0
            = (Ret (Some out), w')) as (w0 & Hw0 & Hrun).
  { destruct (mkdir processed_dir w) as [[[]|e|] w0] eqn:Hmk; [|done|done].
    apply mkdir_made in Hmk as (d & -> & _). eexists. split; [|exact H]. done. }
  clear H. rewrite <- Hw0. clear Hw0 w.
  unfold try_except, try_catch in Hrun.
  match type of Hrun with
  | match ?m ?w1 with _ => _ end = _ =>
      destruct (m w1) as [[r|e|] w2] eqn:Hbody
  end; [| |done].
  2:{ cbn beta iota in Hrun. unfold bind in Hrun. by rewrite log_eq in Hrun. }
  injection Hrun as -> ->.
  apply bind_ret_inv in Hbody as (json_files & w1 & Hfiles & Hbody).
  rewrite get_json_files_eq in Hfiles. injection Hfiles as <- <-.
  destruct (merge_sort path_le _) as [|f fs].
  { by apply bind_ret_inv in Hbody as (? & ? & _ & ?). }
  apply bind_ret_inv in Hbody as (batches & w1 & Hbatches & Hbody).
  assert (w1 = w0) as ->.
  { by destruct (create_batches (batch_size cfg) (f :: fs)); injection Hbatches. }
  apply bind_ret_inv in Hbody as (csv_files & w1 & Hloop & Hbody).
  apply batch_loop_csvs in Hloop as (evs1 & Ht1 & _ & Hsorted & Hcsvs).
  specialize (Hcsvs _ eq_refl). cbn [app] in Hcsvs.
  destruct csv_files as [|c cs].
  { by apply bind_ret_inv in Hbody as (? & ? & _ & ?). }
  rewrite Hcsvs in Hbody.
  destruct (completed_of evs1) as [|k ks] eqn:Hdone; [done|]. rewrite <- Hdone in *.
  clear Hcsvs c cs.
  apply bind_ret_inv in Hbody as (stamp & w2 & Hstamp & Hbody).
  injection Hstamp as <- <-. cbv zeta in Hbody.
  apply bind_ret_inv in Hbody as (? & w2 & Hcombine & Hbody).
  injection Hbody as <- <-.
  destruct (combine_csvs_spec
              (map (csv_path_of processed_dir) (completed_of evs1))
              (path_join processed_dir
                 ("final_analysis_" +:+ strftime w1 +:+ ".xlsx")) w1)
    as (evs2 & Hspec & Hquiet & _).
  rewrite Hspec in Hcombine. injection Hcombine as _ <-.
  eexists (evs1 ++ evs2 ++ [EvWrite _]), _.
  cbn [trace files advance written with_dirs with_sent with_trace with_files].
  split; [rewrite Ht1, <- app_assoc; reflexivity|].
  split; [apply lookup_insert_eq|].
  rewrite !completed_of_app, (completed_of_quiet evs2) by done.
  cbn [completed_of omap app]. rewrite app_nil_r.
  split; [|split; [by rewrite Hdone | done]].
  rewrite rows_fold_concat. cbn [rows empty_frame app].
  symmetry. apply readable_rows_files; [done|].
  intros csv Hcsv.
  cbn [files written with_dirs with_files advance with_sent with_trace].
  apply lookup_insert_ne. intros <-.
  apply list_elem_of_fmap in Hcsv as (n & Hn & _).
  symmetry in Hn. by apply csv_path_not_excel in Hn.
Qed.

Lemma workbook_rows_in_batch_order_witness :
  exists evs table,
    trace (process_promo_folder 3 (config_of 1 15 3) "output/promo_1"
             two_batch_world).2
    = trace two_batch_world ++ evs
    /\ files (process_promo_folder 3 (config_of 1 15 3) "output/promo_1"
                two_batch_world).2
         !! ["processed"; "promo_1"; "final_analysis_20251020_080000.xlsx"]
       = Some (Workbook table)
    /\ rows table
       = readable_rows
           (process_promo_folder 3 (config_of 1 15 3) "output/promo_1"
              two_batch_world).2
           (map (csv_path_of
                   (path_join ["processed"]
                      (path_name (Path_of_string "output/promo_1"))))
              (completed_of evs))
    /\ completed_of evs <> []
    /\ StronglySorted Z.lt (completed_of evs).
Proof.
  apply (workbook_rows_in_batch_order 3 (config_of 1 15 3) "output/promo_1"
           two_batch_world).
  vm_compute. reflexivity.
Defined.
